(** * OmniForm Phantom: form-field discovery, deep queries and mapping

    A shallow embedding of the TypeScript sources
    [contentscript.ts], [formfiller.ts], [mappingengine.ts] and of the
    page scanner whose file name is unknown (functions [scanPage],
    [resolveLabelText], [buildUniqueSelector], [cssEscape]).

    Conventions of the embedding:
    - JavaScript strings are [string]s of ASCII characters;
    - a JavaScript object used as a dictionary is a [gmap string _];
      a [Set<string>] is a [gset string];
    - a function that may throw returns a [Result];
    - ratios of two set sizes are exact rationals ([Q]); for sets of fewer
      than 2^26 elements the IEEE double division of the source orders
      such ratios exactly as the rationals do, including against [0.2];
    - a page is a tree of nodes; an element may carry a shadow root and an
      embedded document, which are trees of their own.  A node is
      identified by its position: the boundary crossings from the top
      document to its root, then the child indices below that root;
    - [querySelectorAll] is the platform's: it parses its argument and
      throws a [SyntaxError] when the argument is not a selector.  Where
      the sources count the matches of a selector that they have just
      written with [CSS.escape], the count is taken on the selector that
      the string denotes;
    - timers and the delivery of mutation records follow the event loop
      of a single thread, with time in milliseconds;
    - messaging ([sendResults]) and the cache of the last scan have no
      part in the properties below and are left out. *)

From Stdlib Require Import ZArith QArith List Ascii String Bool Lia.
From stdpp Require Import gmap strings list fin_maps pretty.

Local Open Scope string_scope.
Local Open Scope list_scope.

(* ===================================================================== *)
(** ** Exceptions                                                         *)
(* ===================================================================== *)

Module Js.

Inductive JsError :=
| Error (msg : string)
| SyntaxError
| TypeError
| SecurityError.

Inductive Result (A : Type) :=
| Ok (a : A)
| Throw (e : JsError).

Arguments Ok {A} a.
Arguments Throw {A} e.

Definition bind {A B} (r : Result A) (k : A -> Result B) : Result B :=
  match r with
  | Ok a => k a
  | Throw e => Throw e
  end.


(** [\s] of a JavaScript regular expression and the characters removed by
    [String.prototype.trim], restricted to ASCII. *)
Definition isSpace (c : ascii) : bool :=
  let n := nat_of_ascii c in
  (n =? 32)%nat || ((9 <=? n)%nat && (n <=? 13)%nat).

Definition isDigit (c : ascii) : bool :=
  let n := nat_of_ascii c in (48 <=? n)%nat && (n <=? 57)%nat.

Definition isUpper (c : ascii) : bool :=
  let n := nat_of_ascii c in (65 <=? n)%nat && (n <=? 90)%nat.

Definition isLower (c : ascii) : bool :=
  let n := nat_of_ascii c in (97 <=? n)%nat && (n <=? 122)%nat.

Definition toLowerChar (c : ascii) : ascii :=
  if isUpper c then ascii_of_nat (nat_of_ascii c + 32) else c.

Definition toLowerCase (s : list ascii) : list ascii := map toLowerChar s.

Fixpoint trimStart (s : list ascii) : list ascii :=
  match s with
  | c :: s' => if isSpace c then trimStart s' else s
  | [] => []
  end.

Definition trim (s : list ascii) : list ascii :=
  rev (trimStart (rev (trimStart s))).

(** [s.split(/\s+/)]: the pieces between maximal runs of white space; a
    leading or trailing run leaves an empty piece, as in JavaScript. *)
Fixpoint splitSpaces_go (cur : list ascii) (inrun : bool) (s : list ascii)
  : list (list ascii) :=
  match s with
  | [] => [rev cur]
  | c :: s' =>
      if isSpace c
      then if inrun then splitSpaces_go cur true s'
           else rev cur :: splitSpaces_go [] true s'
      else splitSpaces_go (c :: cur) false s'
  end.

Definition splitSpaces (s : list ascii) : list (list ascii) :=
  splitSpaces_go [] false s.

(** [Boolean(s)] for a string. *)
Definition truthy (s : list ascii) : bool :=
  match s with [] => false | _ => true end.

Definition chars (s : string) : list ascii := list_ascii_of_string s.
Definition str (s : list ascii) : string := string_of_list_ascii s.

End Js.

Import Js.

(* ===================================================================== *)
(** ** mappingengine.ts                                                   *)
(* ===================================================================== *)

Module MappingEngine.

Abbreviation Selector := string (only parsing).
Abbreviation ColumnName := string (only parsing).

(** [interface FieldInfo { selector; label?; name? }] *)
Record FieldInfo := mkField {
  selector : string;
  label : option string;
  name : option string
}.

(** The two arrays a call receives; they are threaded through the loops
    so that a write to either would be visible in the final store. *)
Record Inputs := mkInputs {
  in_fields : list FieldInfo;
  in_columns : list ColumnName
}.

Definition mismatchMessage (nf nc : nat) : string :=
  "generateMapping: Mismatched lengths between fields (" +:+ pretty nf +:+
  ") and columns (" +:+ pretty nc +:+ ").".

(** One iteration of [for (let i = 0; i < fields.length; i++)
    mapping[fields[i].selector] = columns[i]].  Reading [.selector] of a
    missing array slot is a [TypeError]; a missing column is the value
    [undefined], which a [Mapping] cannot hold, so it is reported too. *)
Definition generateMapping_step (inp : Inputs) (acc : Result (gmap string string))
  (i : nat) : Result (gmap string string) :=
  bind acc (fun mapping =>
    match in_fields inp !! i, in_columns inp !! i with
    | Some f, Some c => Ok (<[selector f := c]> mapping)
    | _, _ => Throw TypeError
    end).

Definition generateMapping (inp : Inputs) : Result (gmap string string) * Inputs :=
  if negb (length (in_fields inp) =? length (in_columns inp))%nat
  then (Throw (Error (mismatchMessage (length (in_fields inp))
                                      (length (in_columns inp)))), inp)
  else (fold_left (generateMapping_step inp)
                  (seq 0 (length (in_fields inp))) (Ok ∅), inp).

(** [str.replace(/[^a-z0-9\s-]/gi, '')] keeps letters, digits, white space
    and hyphens. *)
Definition keptByTokenize (c : ascii) : bool :=
  isLower c || isUpper c || isDigit c || isSpace c
  || (nat_of_ascii c =? 45)%nat.

Definition tokenize (s : string) : list string :=
  map str
    (filter (fun p => truthy p = true)
       (splitSpaces (toLowerCase (filter (fun c => keptByTokenize c = true) (chars s))))).

Definition tokenSet (s : string) : gset string := list_to_set (tokenize s).

(** [jaccard(a, b)]: size of the intersection over size of the union, and
    [0] for two empty sets. *)
Definition jaccard (a b : gset string) : Q :=
  let union := a ∪ b in
  if (size union =? 0)%nat then 0%Q
  else
    let intersection := filter (fun x => x ∈ b) a in
    Qmake (Z.of_nat (size intersection)) (Pos.of_nat (size union)).

Definition Qgtb (x y : Q) : bool := negb (Qle_bool x y).

(** [field.label || field.name || ''] *)
Definition fieldText (f : FieldInfo) : string :=
  match label f with
  | Some l => if truthy (chars l) then l
              else match name f with Some n => n | None => "" end
  | None => match name f with Some n => n | None => "" end
  end.

Record Best := mkBest { bestIdx : Z; bestScore : Q }.

(** The body of the inner loop over the header indices. *)
Definition autoMap_scan (headers : list ColumnName) (headerTokens : list (gset string))
  (usedHeaders : gset string) (fieldTokens : gset string) (b : Best) (i : nat) : Best :=
  match headers !! i, headerTokens !! i with
  | Some h, Some ht =>
      if bool_decide (h ∈ usedHeaders) then b
      else
        let score := jaccard fieldTokens ht in
        if Qgtb score (bestScore b)
        then mkBest (Z.of_nat i) score
        else b
  | _, _ => b
  end.

Record AutoMapState := mkAuto {
  mapping : gmap string string;
  usedHeaders : gset string
}.

(** The body of [for (const field of fields)]. *)
Definition autoMap_field (headers : list ColumnName) (headerTokens : list (gset string))
  (st : AutoMapState) (field : FieldInfo) : AutoMapState :=
  let text := fieldText field in
  if negb (truthy (chars text)) then st
  else
    let fieldTokens := tokenSet text in
    let b := fold_left (autoMap_scan headers headerTokens (usedHeaders st) fieldTokens)
                       (seq 0 (length headers)) (mkBest (-1) 0) in
    if negb (bestIdx b =? -1)%Z && Qle_bool (2 # 10) (bestScore b)
    then match headers !! Z.to_nat (bestIdx b) with
         | Some h => mkAuto (<[selector field := h]> (mapping st)) ({[h]} ∪ usedHeaders st)
         | None => st
         end
    else st.

Definition autoMap (fields : list FieldInfo) (headers : list ColumnName)
  : gmap string string :=
  let headerTokens := map tokenSet headers in
  mapping (fold_left (autoMap_field headers headerTokens) fields (mkAuto ∅ ∅)).

End MappingEngine.

(* ===================================================================== *)
(** ** mappingengine.ts: validating and applying a mapping                *)
(* ===================================================================== *)

Module MappingUse.

(** [!s.trim()] for a string *)
Definition isBlank (s : string) : bool := negb (truthy (trim (chars s))).

(** [validateMapping(mapping)].  The argument is a [Mapping], so the
    tests [!mapping], [typeof mapping !== 'object'] and [typeof s !==
    'string'] are false. *)
Definition validateMapping (mapping : gmap string string) : bool :=
  let selectors := (map_to_list mapping).*1 in
  let columns := (map_to_list mapping).*2 in
  if (length selectors =? 0)%nat then true
  else if existsb isBlank selectors then false
  else if existsb isBlank columns then false
  else (size (list_to_set selectors : gset string) =? length selectors)%nat.



End MappingUse.

(* ===================================================================== *)
(** ** contentscript.ts: the mutation observer and its debounce timer     *)
(* ===================================================================== *)

Module ChangeMonitor.








Section Loop.

(** How long one run of [scanDOM] keeps the thread. *)
Variable scanTime : Z.





End Loop.

End ChangeMonitor.

(* ===================================================================== *)
(** ** The DOM: node trees with shadow roots and embedded documents       *)
(* ===================================================================== *)

Module Dom.

(** What an [<iframe>] holds: no browsing context, a cross-origin window
    (whose document cannot be read) or a same-origin document. *)
Inductive FrameContent (D : Type) :=
| NoWindow
| CrossOrigin
| SameOrigin (document : D).

Arguments NoWindow {D}.
Arguments CrossOrigin {D}.
Arguments SameOrigin {D} document.

(** An HTML element: [tag] is its local name (lower case; [tagName] is the
    same name in upper case, so two elements have equal [tagName]s exactly
    when they have equal [tag]s).  [isContentEditable] is the computed
    platform property. *)
Record ElemData := mkElem {
  tag : string;
  attrs : list (string * string);
  isContentEditable : bool
}.

(** A node of a tree: an element with its [childNodes], its open shadow
    root and its frame content, or a text node.  A [Document] and a
    [ShadowRoot] are given by the list of their child nodes. *)
#[local] Unset Elimination Schemes.
Inductive Node :=
| Element (e : ElemData) (childNodes : list Node)
          (shadowRoot : option (list Node))
          (content : FrameContent (list Node))
| Text (data : string).
#[local] Set Elimination Schemes.

Abbreviation Root := (list Node).

(** Position of a node below a root: the indices into [childNodes] from
    the root down.  The empty position is the root itself. *)
Abbreviation Loc := (list nat).

Inductive Boundary := ShadowB | FrameB.

#[global] Instance Boundary_eq_dec : EqDecision Boundary.
Proof. solve_decision. Defined.

(** The boundary crossings from the top document to a root: for each one
    the position of the host (or iframe) in the root before. *)
Abbreviation CtxPath := (list (list nat * Boundary)).

(** Identity of an element: its root and its position below it. *)
Abbreviation Ref := (list (list nat * Boundary) * list nat)%type.

Fixpoint getAttr (k : string) (l : list (string * string)) : option string :=
  match l with
  | [] => None
  | (k', v) :: l' => if String.eqb k k' then Some v else getAttr k l'
  end.

Definition getAttribute (e : ElemData) (k : string) : option string :=
  getAttr k (attrs e).

(** [el.id], [el.className], [el.name]: the reflected attribute or [''] *)
Definition attrOrEmpty (e : ElemData) (k : string) : string :=
  match getAttribute e k with Some v => v | None => "" end.

Definition id (e : ElemData) : string := attrOrEmpty e "id".
Definition className (e : ElemData) : string := attrOrEmpty e "class".
Definition nameProp (e : ElemData) : string := attrOrEmpty e "name".

(** [el.classList] / [className.split(/\s+/).filter(Boolean)] *)
Definition classList (e : ElemData) : list string :=
  map str (filter (fun p => truthy p = true) (splitSpaces (chars (className e)))).

Definition childrenOf (n : Node) : list Node :=
  match n with
  | Element _ ch _ _ => ch
  | Text _ => []
  end.

Definition dataOf (n : Node) : option ElemData :=
  match n with
  | Element e _ _ _ => Some e
  | Text _ => None
  end.

Definition shadowRootOf (n : Node) : option Root :=
  match n with
  | Element _ _ sr _ => sr
  | Text _ => None
  end.

(** [iframe.contentDocument]: [null] unless the frame is same-origin. *)
Definition contentDocumentOf (n : Node) : option Root :=
  match n with
  | Element _ _ _ (SameOrigin d) => Some d
  | _ => None
  end.

Fixpoint nodeAt (r : Root) (loc : Loc) : option Node :=
  match loc with
  | [] => None
  | i :: loc' =>
      match r !! i with
      | Some n =>
          match loc' with
          | [] => Some n
          | _ => nodeAt (childrenOf n) loc'
          end
      | None => None
      end
  end.

Definition elemAt (r : Root) (loc : Loc) : option ElemData :=
  match nodeAt r loc with
  | Some n => dataOf n
  | None => None
  end.

(** The child nodes of the node at [loc] (of the root for the empty
    position). *)
Definition childNodesAt (r : Root) (loc : Loc) : list Node :=
  match loc with
  | [] => r
  | _ => match nodeAt r loc with Some n => childrenOf n | None => [] end
  end.

(** [el.parentElement]: [null] for a child of a document or shadow root. *)
Definition parentElement (loc : Loc) : option Loc :=
  match removelast loc with
  | [] => None
  | p => Some p
  end.

(** [parent.children]: the element children with their [childNodes] index. *)
Fixpoint elementChildren_from (i : nat) (l : list Node) : list (nat * ElemData) :=
  match l with
  | [] => []
  | Element e _ _ _ :: l' => (i, e) :: elementChildren_from (S i) l'
  | Text _ :: l' => elementChildren_from (S i) l'
  end.

Definition elementChildren (l : list Node) : list (nat * ElemData) :=
  elementChildren_from 0 l.

(** [arr.indexOf(x)] on the [childNodes] indices; [-1] when absent. *)
Fixpoint indexOf_from (k : Z) (i : nat) (l : list (nat * ElemData)) : Z :=
  match l with
  | [] => (-1)%Z
  | (j, _) :: l' => if (i =? j)%nat then k else indexOf_from (k + 1)%Z i l'
  end.

Definition indexOf (i : nat) (l : list (nat * ElemData)) : Z := indexOf_from 0 i l.

Section Walk.
Context {A : Type}.
Variable f : nat -> Node -> list A.

Fixpoint concatMapi (i : nat) (l : list Node) : list A :=
  match l with
  | [] => []
  | n :: l' => f i n ++ concatMapi (S i) l'
  end.

End Walk.

(** The elements below a node in tree order, the node first; shadow roots
    and embedded documents are other trees and are not entered. *)
Fixpoint elementsUnder (here : Loc) (n : Node) : list Loc :=
  match n with
  | Text _ => []
  | Element _ ch _ _ =>
      here :: concatMapi (fun i c => elementsUnder (here ++ [i]) c) 0 ch
  end.

(** All elements of a root, in document order. *)
Definition allElements (r : Root) : list Loc :=
  concatMapi (fun i c => elementsUnder [i] c) 0 r.

(** [node.textContent] *)
Fixpoint textContent (n : Node) : string :=
  match n with
  | Text d => d
  | Element _ ch _ _ => fold_right (fun c acc => textContent c +:+ acc) "" ch
  end.

(** The root reached from the top document by a chain of crossings. *)
Fixpoint rootAt (doc : Root) (cp : CtxPath) : option Root :=
  match cp with
  | [] => Some doc
  | (loc, b) :: cp' =>
      match nodeAt doc loc with
      | Some n =>
          match (match b with
                 | ShadowB => shadowRootOf n
                 | FrameB => contentDocumentOf n
                 end) with
          | Some r => rootAt r cp'
          | None => None
          end
      | None => None
      end
  end.

Definition elemOf (doc : Root) (x : Ref) : option ElemData :=
  match rootAt doc (fst x) with
  | Some r => elemAt r (snd x)
  | None => None
  end.

End Dom.

Import Dom.

(* ===================================================================== *)
(** ** The selector engine of the platform                                *)
(* ===================================================================== *)

Module Css.

(** *** [CSS.escape], as the polyfill [cssEscape] computes it *)

Definition hexDigit (n : nat) : ascii :=
  if (n <? 10)%nat then ascii_of_nat (48 + n) else ascii_of_nat (87 + n).

(** [codeUnit.toString(16)] for a code unit below 256 *)
Definition toHex (n : nat) : list ascii :=
  if (n <? 16)%nat then [hexDigit n]
  else [hexDigit (n / 16); hexDigit (n mod 16)].

Definition backslash : ascii := ascii_of_nat 92.
Definition hyphen : ascii := ascii_of_nat 45.
Definition underscore : ascii := ascii_of_nat 95.
Definition space : ascii := ascii_of_nat 32.

Fixpoint cssEscape_go (len : nat) (first : ascii) (index : nat) (s : list ascii)
  : list ascii :=
  match s with
  | [] => []
  | c :: s' =>
      let codeUnit := nat_of_ascii c in
      let rest := cssEscape_go len first (S index) s' in
      if (codeUnit =? 0)%nat
      then ascii_of_nat 239 :: ascii_of_nat 191 :: ascii_of_nat 189 :: rest
      else if ((1 <=? codeUnit)%nat && (codeUnit <=? 31)%nat)
              || (codeUnit =? 127)%nat
              || ((index =? 0)%nat && isDigit c)
              || ((index =? 1)%nat && isDigit c && Ascii.eqb first hyphen)
      then backslash :: toHex codeUnit ++ space :: rest
      else if (index =? 0)%nat && Ascii.eqb c hyphen && (len =? 1)%nat
      then backslash :: c :: rest
      else if (128 <=? codeUnit)%nat || Ascii.eqb c hyphen || Ascii.eqb c underscore
              || isDigit c || isUpper c || isLower c
      then c :: rest
      else backslash :: c :: rest
  end.

Definition cssEscape (value : string) : string :=
  let s := chars value in
  str (cssEscape_go (length s) (hd zero s) 0 s).

(** *** Selectors *)

Inductive Simple :=
| SType (t : string)
| SUniversal
| SId (i : string)
| SClass (c : string)
| SAttr (n : string) (v : option string)
| SNthOfType (k : nat).

Abbreviation Compound := (list Simple).

Inductive Combinator := Descendant | Child.

(** A complex selector, its rightmost compound first. *)
Record Complex := mkComplex {
  subject : Compound;
  leftwards : list (Combinator * Compound)
}.

Abbreviation SelectorList := (list Complex).

(** *** Parsing.  The grammar is the part of CSS that the sources write:
    type, universal, id, class, attribute and [:nth-of-type(n)] selectors,
    the descendant and child combinators and comma lists.  Any other
    string is rejected with a [SyntaxError]. *)

Definition isNameStart (c : ascii) : bool :=
  isLower c || isUpper c || Ascii.eqb c underscore || (128 <=? nat_of_ascii c)%nat.

Definition isNameChar (c : ascii) : bool :=
  isNameStart c || isDigit c || Ascii.eqb c hyphen.

Definition isHex (c : ascii) : bool :=
  let n := nat_of_ascii c in
  isDigit c || ((97 <=? n)%nat && (n <=? 102)%nat) || ((65 <=? n)%nat && (n <=? 70)%nat).

Definition hexValue (c : ascii) : nat :=
  let n := nat_of_ascii c in
  if isDigit c then n - 48 else if (97 <=? n)%nat then n - 87 else n - 55.

Definition isNewline (c : ascii) : bool :=
  let n := nat_of_ascii c in (n =? 10)%nat || (n =? 12)%nat || (n =? 13)%nat.

(** Up to [k] hexadecimal digits: their value and what follows. *)
Fixpoint hexRun (k : nat) (acc : nat) (s : list ascii) : nat * list ascii :=
  match k, s with
  | S k', c :: s' => if isHex c then hexRun k' (16 * acc + hexValue c) s' else (acc, s)
  | _, _ => (acc, s)
  end.

Definition skipOneSpace (s : list ascii) : list ascii :=
  match s with
  | c :: s' => if isSpace c then s' else s
  | [] => []
  end.

(** An escape after the backslash: the character it stands for. *)
Definition readEscape (s : list ascii) : option (ascii * list ascii) :=
  match s with
  | [] => None
  | c :: s' =>
      if isHex c then
        let '(v, rest) := hexRun 6 0 s in
        Some (ascii_of_nat v, skipOneSpace rest)
      else if isNewline c then None
      else Some (c, s')
  end.

(** The longest run of name characters and escapes. *)
Fixpoint readName (fuel : nat) (acc : list ascii) (s : list ascii)
  : list ascii * list ascii :=
  match fuel with
  | O => (rev acc, s)
  | S fuel' =>
      match s with
      | [] => (rev acc, [])
      | c :: s' =>
          if isNameChar c then readName fuel' (c :: acc) s'
          else if Ascii.eqb c backslash then
            match readEscape s' with
            | Some (d, rest) => readName fuel' (d :: acc) rest
            | None => (rev acc, s)
            end
          else (rev acc, s)
      end
  end.

Definition startsEscape (s : list ascii) : bool :=
  match s with
  | c :: d :: _ => Ascii.eqb c backslash && negb (isNewline d)
  | _ => false
  end.

Definition startsIdent (s : list ascii) : bool :=
  match s with
  | [] => false
  | c :: s' =>
      if Ascii.eqb c hyphen then
        match s' with
        | d :: _ => isNameStart d || Ascii.eqb d hyphen || startsEscape s'
        | [] => false
        end
      else isNameStart c || startsEscape s
  end.

Definition readIdent (s : list ascii) : option (string * list ascii) :=
  if startsIdent s then
    let '(n, rest) := readName (S (length s)) [] s in Some (str n, rest)
  else None.

Fixpoint readDigits (acc : nat) (seen : bool) (s : list ascii)
  : option (nat * list ascii) :=
  match s with
  | c :: s' =>
      if isDigit c then readDigits (10 * acc + (nat_of_ascii c - 48)) true s'
      else if seen then Some (acc, s) else None
  | [] => if seen then Some (acc, []) else None
  end.

(** A quoted string after its opening quote [q]. *)
Fixpoint readString (fuel : nat) (q : ascii) (acc : list ascii) (s : list ascii)
  : option (string * list ascii) :=
  match fuel with
  | O => None
  | S fuel' =>
      match s with
      | [] => None
      | c :: s' =>
          if Ascii.eqb c q then Some (str (rev acc), s')
          else if isNewline c then None
          else if Ascii.eqb c backslash then
            match readEscape s' with
            | Some (d, rest) => readString fuel' q (d :: acc) rest
            | None => None
            end
          else readString fuel' q (c :: acc) s'
      end
  end.

Definition expect (c : ascii) (s : list ascii) : option (list ascii) :=
  match s with
  | d :: s' => if Ascii.eqb c d then Some s' else None
  | [] => None
  end.

Definition dquote : ascii := ascii_of_nat 34.
Definition squote : ascii := ascii_of_nat 39.

(** [\[name\]] and [\[name=value\]] after the opening bracket. *)
Definition readAttr (s : list ascii) : option (Simple * list ascii) :=
  match readIdent (trimStart s) with
  | None => None
  | Some (n, s1) =>
      match trimStart s1 with
      | c :: s2 =>
          if Ascii.eqb c "]" then Some (SAttr n None, s2)
          else if Ascii.eqb c "=" then
            let s3 := trimStart s2 in
            match (match s3 with
                   | q :: s4 =>
                       if Ascii.eqb q dquote || Ascii.eqb q squote
                       then readString (S (length s4)) q [] s4
                       else readIdent s3
                   | [] => None
                   end) with
            | Some (v, s5) =>
                match expect "]" (trimStart s5) with
                | Some s6 => Some (SAttr n (Some v), s6)
                | None => None
                end
            | None => None
            end
          else None
      | [] => None
      end
  end.

(** [:nth-of-type(n)] after the colon, for a plain number [n]. *)
Definition readPseudo (s : list ascii) : option (Simple * list ascii) :=
  match readIdent s with
  | Some (n, s1) =>
      if String.eqb (str (toLowerCase (chars n))) "nth-of-type" then
        match expect "(" s1 with
        | Some s2 =>
            match readDigits 0 false (trimStart s2) with
            | Some (k, s3) =>
                match expect ")" (trimStart s3) with
                | Some s4 => Some (SNthOfType k, s4)
                | None => None
                end
            | None => None
            end
        | None => None
        end
      else None
  | None => None
  end.

(** The id, class, attribute and pseudo-class selectors of a compound. *)
Fixpoint readSubclasses (fuel : nat) (acc : list Simple) (s : list ascii)
  : option (Compound * list ascii) :=
  match fuel with
  | O => None
  | S fuel' =>
      match s with
      | c :: s' =>
          if Ascii.eqb c "#" then
            match readIdent s' with
            | Some (n, rest) => readSubclasses fuel' (SId n :: acc) rest
            | None => None
            end
          else if Ascii.eqb c "." then
            match readIdent s' with
            | Some (n, rest) => readSubclasses fuel' (SClass n :: acc) rest
            | None => None
            end
          else if Ascii.eqb c "[" then
            match readAttr s' with
            | Some (a, rest) => readSubclasses fuel' (a :: acc) rest
            | None => None
            end
          else if Ascii.eqb c ":" then
            match readPseudo s' with
            | Some (p, rest) => readSubclasses fuel' (p :: acc) rest
            | None => None
            end
          else Some (rev acc, s)
      | [] => Some (rev acc, [])
      end
  end.

Definition readCompound (s : list ascii) : option (Compound * list ascii) :=
  let '(start, s1) :=
    match s with
    | c :: s' =>
        if Ascii.eqb c "*" then ([SUniversal], s')
        else match readIdent s with
             | Some (t, rest) => ([SType t], rest)
             | None => ([], s)
             end
    | [] => ([], s)
    end in
  match readSubclasses (S (length s1)) (rev start) s1 with
  | Some ([], _) => None
  | r => r
  end.

(** What follows a compound: a combinator and the next compound, a comma,
    or the end. *)
Fixpoint readComplex (fuel : nat) (cur : Complex) (s : list ascii)
  : option (Complex * list ascii) :=
  match fuel with
  | O => None
  | S fuel' =>
      let s1 := trimStart s in
      match s1 with
      | [] => Some (cur, [])
      | c :: s2 =>
          if Ascii.eqb c "," then Some (cur, s1)
          else
            let '(comb, s3) :=
              if Ascii.eqb c ">" then (Child, trimStart s2) else (Descendant, s1) in
            if (match comb, s with
                | Descendant, d :: _ => negb (isSpace d)
                | _, _ => false
                end) then None
            else
              match readCompound s3 with
              | Some (cp, rest) =>
                  readComplex fuel'
                    (mkComplex cp ((comb, subject cur) :: leftwards cur)) rest
              | None => None
              end
      end
  end.

Fixpoint readList (fuel : nat) (acc : SelectorList) (s : list ascii)
  : option SelectorList :=
  match fuel with
  | O => None
  | S fuel' =>
      match readCompound (trimStart s) with
      | Some (cp, rest) =>
          match readComplex (S (length rest)) (mkComplex cp []) rest with
          | Some (cx, []) => Some (rev (cx :: acc))
          | Some (cx, c :: rest') =>
              if Ascii.eqb c "," then readList fuel' (cx :: acc) rest' else None
          | None => None
          end
      | None => None
      end
  end.

Definition parseSelector (s : string) : option SelectorList :=
  readList (S (String.length s)) [] (chars s).

(** *** Matching *)

(** The 1-based rank of the element at child index [i] among the element
    children of the same type before it and itself. *)
Fixpoint typeRank (t : string) (i : nat) (l : list Node) : nat :=
  match i, l with
  | O, _ => 1
  | S i', Element e _ _ _ :: l' =>
      (if String.eqb (tag e) t then 1 else 0) + typeRank t i' l'
  | S i', Text _ :: l' => typeRank t i' l'
  | S _, [] => 1
  end.

Definition matchesSimple (r : Root) (loc : Loc) (e : ElemData) (s : Simple) : bool :=
  match s with
  | SType t => String.eqb (tag e) (str (toLowerCase (chars t)))
  | SUniversal => true
  | SId i => match getAttribute e "id" with
             | Some v => String.eqb v i
             | None => false
             end
  | SClass c => bool_decide (c ∈ classList e)
  | SAttr n None => match getAttribute e n with Some _ => true | None => false end
  | SAttr n (Some v) => match getAttribute e n with
                        | Some w => String.eqb v w
                        | None => false
                        end
  | SNthOfType k =>
      (typeRank (tag e) (List.last loc 0) (childNodesAt r (removelast loc)) =? k)%nat
  end.

Definition matchesCompound (r : Root) (loc : Loc) (c : Compound) : bool :=
  match elemAt r loc with
  | Some e => forallb (matchesSimple r loc e) c
  | None => false
  end.

(** The proper ancestors that are elements, nearest first. *)
Fixpoint ancestors_go (rloc : list nat) : list Loc :=
  match rloc with
  | [] => []
  | _ :: rparent =>
      match rparent with
      | [] => []
      | _ => rev rparent :: ancestors_go rparent
      end
  end.

Definition ancestors (loc : Loc) : list Loc := ancestors_go (rev loc).

Fixpoint matchesLeftwards (r : Root) (loc : Loc) (l : list (Combinator * Compound))
  : bool :=
  match l with
  | [] => true
  | (Child, c) :: l' =>
      match parentElement loc with
      | Some p => matchesCompound r p c && matchesLeftwards r p l'
      | None => false
      end
  | (Descendant, c) :: l' =>
      existsb (fun p => matchesCompound r p c && matchesLeftwards r p l')
              (ancestors loc)
  end.

Definition matchesComplex (r : Root) (loc : Loc) (cx : Complex) : bool :=
  matchesCompound r loc (subject cx) && matchesLeftwards r loc (leftwards cx).

Definition selectAll (r : Root) (sel : SelectorList) : list Loc :=
  List.filter (fun loc => existsb (matchesComplex r loc) sel) (allElements r).

(** [root.querySelectorAll(s)] *)
Definition querySelectorAll (r : Root) (s : string) : Result (list Loc) :=
  match parseSelector s with
  | Some sel => Ok (selectAll r sel)
  | None => Throw SyntaxError
  end.

(** [root.querySelector(s)] *)
Definition querySelector (r : Root) (s : string) : Result (option Loc) :=
  bind (querySelectorAll r s) (fun l => Ok (head l)).

End Css.

Import Css.

(* ===================================================================== *)
(** ** Selector synthesis and label lookup shared by the scanners         *)
(* ===================================================================== *)

Module Synth.

(** The element nodes among [parent.children] with the tag of [e]:
    [Array.from(parent.children).filter(sib => sib.tagName === el.tagName)] *)
Definition sameTagSiblings (r : Root) (parent : Loc) (e : ElemData)
  : list (nat * ElemData) :=
  List.filter (fun s => String.eqb (tag (snd s)) (tag e))
              (elementChildren (childNodesAt r parent)).

Definition nthOfType (index : Z) : string :=
  ":nth-of-type(" +:+ pretty index +:+ ")".

(** [el.previousElementSibling] *)
Definition previousElementSibling (r : Root) (loc : Loc) : option Loc :=
  let i := List.last loc 0 in
  match List.filter (fun s => (fst s <? i)%nat)
                    (elementChildren (childNodesAt r (removelast loc))) with
  | [] => None
  | l => Some (removelast loc ++ [fst (List.last l (0, mkElem "" [] false))])
  end.

(** [root.querySelector('label[for="' + CSS.escape(id) + '"]')]: the
    escaped id, read back inside the quoted string, is [id] again, so the
    string denotes this selector. *)
Definition labelFor (r : Root) (i : string) : option Loc :=
  head (selectAll r [mkComplex [SType "label"; SAttr "for" (Some i)] []]).

Definition textAt (r : Root) (loc : Loc) : string :=
  match nodeAt r loc with
  | Some n => textContent n
  | None => ""
  end.

Definition trimmed (s : string) : string := str (trim (chars s)).

(** [s.replace(/\s+/g, ' ')] *)
Fixpoint collapseSpaces (inrun : bool) (s : list ascii) : list ascii :=
  match s with
  | [] => []
  | c :: s' =>
      if isSpace c
      then if inrun then collapseSpaces true s' else space :: collapseSpaces true s'
      else c :: collapseSpaces false s'
  end.

Definition isFormControl (e : ElemData) : bool :=
  String.eqb (tag e) "input" || String.eqb (tag e) "select"
  || String.eqb (tag e) "textarea".

End Synth.

Import Synth.

(* ===================================================================== *)
(** ** contentscript.ts                                                   *)
(* ===================================================================== *)

Module ContentScript.

(** The loop of [uniqueSelector], on the reversed position of [element].
    [root.querySelectorAll(selector).length] is computed on the selector
    that the string written by the code denotes: [CSS.escape] makes
    [tag.c1.c2] denote the type selector with these classes. *)
Fixpoint uniqueSelector_walk (r : Root) (relement : list nat) (paths : list string)
  : list string :=
  match relement with
  | [] => paths
  | i :: rparent =>
      match elemAt r (rev relement) with
      | None => paths
      | Some e =>
          let classes := classList e in
          let className :=
            String.concat "" (map (fun cls => "." +:+ cssEscape cls) classes) in
          let hasClass := truthy (chars (Dom.className e)) && truthy (chars className) in
          let selector := if hasClass then tag e +:+ className else tag e in
          if hasClass
             && (length (selectAll r [mkComplex (SType (tag e) :: map SClass classes) []])
                 =? 1)%nat
          then selector :: paths
          else
            match rparent with
            | [] => paths
            | _ :: _ =>
                let siblings := sameTagSiblings r (rev rparent) e in
                let selector :=
                  if (1 <? length siblings)%nat
                  then selector +:+ nthOfType (indexOf i siblings + 1)
                  else selector in
                uniqueSelector_walk r rparent (selector :: paths)
            end
      end
  end.

(** [uniqueSelector(el, root)] for the element at [loc] below [root]. *)
Definition uniqueSelector (r : Root) (loc : Loc) : string :=
  let elId := match elemAt r loc with Some e => Dom.id e | None => "" end in
  if truthy (chars elId)
     && (length (selectAll r [mkComplex [SId elId] []]) =? 1)%nat
  then "#" +:+ cssEscape elId
  else String.concat " > " (uniqueSelector_walk r (rev loc) []).

(** [extractLabelText(el)]; [document] is the top document whatever the
    root of [el] is. *)
Definition extractLabelText (document : Root) (r : Root) (loc : Loc) : option string :=
  let e := match elemAt r loc with Some e => e | None => mkElem "" [] false end in
  match (if isFormControl e && truthy (chars (Dom.id e))
         then labelFor document (Dom.id e) else None) with
  | Some l => Some (trimmed (textAt document l))
  | None =>
      match previousElementSibling r loc with
      | Some prev =>
          match elemAt r prev with
          | Some p =>
              if String.eqb (tag p) "label" then Some (trimmed (textAt r prev))
              else None
          | None => None
          end
      | None => None
      end
  end.

(** *** The deep query *)

(** [Some n] when [\s*>>>\s*] matches at the start of [s], [n] being the
    length of the match. *)
Definition delimiterAt (s : list ascii) : option nat :=
  let s1 := trimStart s in
  match s1 with
  | a :: b :: c :: s2 =>
      if Ascii.eqb a ">" && Ascii.eqb b ">" && Ascii.eqb c ">"
      then Some (length s - length (trimStart s2))
      else None
  | _ => None
  end.

(** [s.split(/\s*>>>\s*/)]: [skip] characters of the current match are
    still to be passed over, [cur] is the piece being read (reversed). *)
Fixpoint splitDeep_go (skip : nat) (cur : list ascii) (s : list ascii)
  : list (list ascii) :=
  match s with
  | [] => [rev cur]
  | c :: s' =>
      match skip with
      | S k => splitDeep_go k cur s'
      | O =>
          match delimiterAt s with
          | Some n => rev cur :: splitDeep_go (n - 1) [] s'
          | None => splitDeep_go 0 (c :: cur) s'
          end
      end
  end.

(** [deepSelector.split(/\s*>>>\s*/).map(p => p.trim()).filter(Boolean)] *)
Definition deepParts (deepSelector : string) : list string :=
  map str (List.filter truthy (map trim (splitDeep_go 0 [] (chars deepSelector)))).

(** A context with its identity: the chain of crossings that leads to it
    and its tree. *)
Abbreviation Context := (CtxPath * Root)%type.

(** What [nextContexts] holds: roots, and on the last part elements. *)
Inductive DeepNode :=
| RootNode (c : Context)
| ElementNode (x : Ref).

Definition elementNodes (l : list DeepNode) : list Ref :=
  flat_map (fun n => match n with ElementNode x => [x] | RootNode _ => [] end) l.

Definition rootNodes (l : list DeepNode) : list Context :=
  flat_map (fun n => match n with RootNode c => [c] | ElementNode _ => [] end) l.

(** [isSameOriginIframe(iframe)]: [false] when reading [contentDocument]
    throws, which the source expects of a cross-origin frame. *)
Definition isSameOriginIframe (n : Node) : bool :=
  match n with
  | Element _ _ _ CrossOrigin => false
  | _ => true
  end.

(** The root entered through [match], if it is a boundary. *)
Definition nextRoot (ctx : Context) (loc : Loc) : option Context :=
  match nodeAt (snd ctx) loc with
  | Some n =>
      match (if match dataOf n with
                | Some e => String.eqb (tag e) "iframe"
                | None => false
                end && isSameOriginIframe n
             then contentDocumentOf n else None) with
      | Some d => Some (fst ctx ++ [(loc, FrameB)], d)
      | None =>
          match shadowRootOf n with
          | Some sr => Some (fst ctx ++ [(loc, ShadowB)], sr)
          | None => None
          end
      end
  | None => None
  end.

(** [matches.forEach(match => ...)] for one context *)
Definition pushMatches (isLast : bool) (ctx : Context) (matches : list Loc)
  (nextContexts : list DeepNode) : list DeepNode :=
  fold_left (fun acc m =>
               if isLast then acc ++ [ElementNode (fst ctx, m)]
               else match nextRoot ctx m with
                    | Some c => acc ++ [RootNode c]
                    | None => acc
                    end)
            matches nextContexts.

(** [currentContexts.forEach(ctx => ...)] *)
Fixpoint eachContext (part : string) (isLast : bool) (ctxs : list Context)
  (nextContexts : list DeepNode) : Result (list DeepNode) :=
  match ctxs with
  | [] => Ok nextContexts
  | ctx :: ctxs' =>
      bind (querySelectorAll (snd ctx) part) (fun matches =>
        eachContext part isLast ctxs' (pushMatches isLast ctx matches nextContexts))
  end.

(** The [for] loop over the parts. *)
Fixpoint queryDeepAll_loop (parts : list string) (currentContexts : list Context)
  : Result (list Ref) :=
  match parts with
  | [] => Ok []
  | part :: rest =>
      let isLast := match rest with [] => true | _ => false end in
      bind (eachContext part isLast currentContexts []) (fun nextContexts =>
        if (length nextContexts =? 0)%nat then Ok []
        else if isLast then Ok (elementNodes nextContexts)
        else queryDeepAll_loop rest (rootNodes nextContexts))
  end.

(** [queryDeepAll(deepSelector)] on the page whose top document is
    [document]. *)
Definition queryDeepAll (document : Root) (deepSelector : string) : Result (list Ref) :=
  let parts := deepParts deepSelector in
  if (length parts =? 0)%nat then Ok []
  else queryDeepAll_loop parts [([], document)].

(** *** Scanning *)

(** [ScanOptions]: every field is optional. *)
Record ScanOptions := mkOptions {
  opt_includeShadowDom : option bool;
  opt_maxDepth : option nat;
  opt_iframeTraversal : option bool
}.

Record Config := mkConfig {
  includeShadowDom : bool;
  maxDepth : nat;
  iframeTraversal : bool
}.

Definition DEFAULT_OPTIONS : Config := mkConfig true 7 true.

(** [{ ...DEFAULT_OPTIONS, ...options }] *)
Definition mergeOptions (options : ScanOptions) : Config :=
  mkConfig (default (includeShadowDom DEFAULT_OPTIONS) (opt_includeShadowDom options))
           (default (maxDepth DEFAULT_OPTIONS) (opt_maxDepth options))
           (default (iframeTraversal DEFAULT_OPTIONS) (opt_iframeTraversal options)).

Definition noOptions : ScanOptions := mkOptions None None None.

Record FieldInfo := mkFieldInfo {
  selector : string;
  tagName : string;
  type : string;
  nameAttr : option string;
  label : option string
}.

Definition inputTypes : list string :=
  ["hidden"; "text"; "search"; "tel"; "url"; "email"; "password"; "date";
   "month"; "week"; "time"; "datetime-local"; "number"; "range"; "color";
   "checkbox"; "radio"; "file"; "submit"; "image"; "reset"; "button"].

(** [el.type]: the empty string stands for [undefined]. *)
Definition typeProp (e : ElemData) : string :=
  if String.eqb (tag e) "input" then
    let t := str (toLowerCase (chars (attrOrEmpty e "type"))) in
    if bool_decide (t ∈ inputTypes) then t else "text"
  else if String.eqb (tag e) "select" then
    match getAttribute e "multiple" with
    | Some _ => "select-multiple"
    | None => "select-one"
    end
  else if String.eqb (tag e) "textarea" then "textarea"
  else "".

(** The test that makes an element a field. *)
Definition isField (e : ElemData) : bool :=
  isFormControl e || isContentEditable e.

(** The identity of a node for the [visited] set: the steps from the top
    document down to it. *)
Inductive Step := ChildStep (i : nat) | ShadowStep | FrameStep.

#[global] Instance Step_eq_dec : EqDecision Step.
Proof. solve_decision. Defined.

Abbreviation NodeKey := (list Step).

Definition boundaryStep (b : Boundary) : Step :=
  match b with ShadowB => ShadowStep | FrameB => FrameStep end.

Definition keyOf (cp : CtxPath) (loc : Loc) : NodeKey :=
  flat_map (fun h => map ChildStep (fst h) ++ [boundaryStep (snd h)]) cp
  ++ map ChildStep loc.

(** A scanned field with the element it was captured from. *)
Record Captured := mkCaptured {
  elementRef : Ref;
  info : FieldInfo
}.

Record ScanState := mkScan {
  visited : list NodeKey;
  results : list Captured
}.

Definition deepSelectorOf (pathParts : list string) (selector : string) : string :=
  if (0 <? length pathParts)%nat
  then String.concat " >>> " pathParts +:+ " >>> " +:+ selector
  else selector.

Definition fieldInfoOf (document : Root) (r : Root) (loc : Loc) (e : ElemData)
  (pathParts : list string) : FieldInfo :=
  let selector := uniqueSelector r loc in
  mkFieldInfo (deepSelectorOf pathParts selector)
              (tag e)
              (if truthy (chars (typeProp e)) then typeProp e else tag e)
              (if isFormControl e && truthy (chars (nameProp e))
               then Some (nameProp e) else None)
              (extractLabelText document r loc).

Section Children.
Variable visit : nat -> Node -> ScanState -> ScanState.

(** [node.childNodes.forEach(child => ...)] *)
Fixpoint forEachChild (i : nat) (l : list Node) (st : ScanState) : ScanState :=
  match l with
  | [] => st
  | c :: l' => forEachChild (S i) l' (visit i c st)
  end.

End Children.

(** The guard and the marking at the head of [traverse]. *)
Definition enter (cfg : Config) (depth : nat) (key : NodeKey) (st : ScanState)
  : option ScanState :=
  if (maxDepth cfg <? depth)%nat || bool_decide (key ∈ visited st) then None
  else Some (mkScan (visited st ++ [key]) (results st)).

Section Traverse.
Variable cfg : Config.
Variable document : Root.

(** [traverse(node, depth, rootForSelector, pathParts)] for an element or
    text node at [loc] below the root [r] reached by [cp].  A call on a
    [Document] or [ShadowRoot] is [traverseRoot]. *)
Fixpoint traverse (node : Node) (depth : nat) (cp : CtxPath) (r : Root)
  (pathParts : list string) (loc : Loc) (st : ScanState) {struct node} : ScanState :=
  match enter cfg depth (keyOf cp loc) st with
  | None => st
  | Some st =>
      match node with
      | Text _ => st
      | Element e childNodes shadow content =>
          let st :=
            if isField e
            then mkScan (visited st)
                        (results st ++
                         [mkCaptured (cp, loc) (fieldInfoOf document r loc e pathParts)])
            else st in
          let st :=
            match shadow with
            | Some sr =>
                if includeShadowDom cfg then
                  let hostSelector := uniqueSelector r loc in
                  let cp' := cp ++ [(loc, ShadowB)] in
                  let parts' := pathParts ++ [hostSelector] in
                  match enter cfg (S depth) (keyOf cp' []) st with
                  | None => st
                  | Some st =>
                      forEachChild
                        (fun i c => traverse c (S (S depth)) cp' sr parts' [i])
                        0 sr st
                  end
                else st
            | None => st
            end in
          let st :=
            if iframeTraversal cfg && String.eqb (tag e) "iframe" then
              match content with
              | SameOrigin doc =>
                  let iframeSelector := uniqueSelector r loc in
                  let cp' := cp ++ [(loc, FrameB)] in
                  let parts' := pathParts ++ [iframeSelector] in
                  match enter cfg (S depth) (keyOf cp' []) st with
                  | None => st
                  | Some st =>
                      forEachChild
                        (fun i c => traverse c (S (S depth)) cp' doc parts' [i])
                        0 doc st
                  end
              | _ => st
              end
            else st in
          forEachChild
            (fun i c => traverse c (S depth) cp r pathParts (loc ++ [i]))
            0 childNodes st
      end
  end.

(** [traverse(document, 0, document, [])] *)
Definition traverseRoot (depth : nat) (cp : CtxPath) (r : Root)
  (pathParts : list string) (st : ScanState) : ScanState :=
  match enter cfg depth (keyOf cp []) st with
  | None => st
  | Some st =>
      forEachChild (fun i c => traverse c (S depth) cp r pathParts [i]) 0 r st
  end.

End Traverse.

(** [scanDOM(options)]: the fields found, each with the element it was
    captured from. *)
Definition scanDOM (document : Root) (options : ScanOptions) : list Captured :=
  let cfg := mergeOptions options in
  results (traverseRoot cfg document 0 [] document [] (mkScan [] [])).

End ContentScript.

(* ===================================================================== *)
(** ** The page scanner ([scanPage] and its helpers)                      *)
(* ===================================================================== *)

Module PageScanner.

(** The loop of [buildUniqueSelector], on the reversed position of
    [current]. *)
Fixpoint buildUniqueSelector_walk (r : Root) (rcurrent : list nat) (parts : list string)
  : list string :=
  match rcurrent with
  | [] => parts
  | i :: rparent =>
      match elemAt r (rev rcurrent) with
      | None => parts
      | Some e =>
          let classes := classList e in
          let part :=
            if (0 <? length classes)%nat
            then tag e +:+ "." +:+ String.concat "." (map cssEscape classes)
            else tag e in
          let part :=
            match rparent with
            | [] => part
            | _ :: _ =>
                let sameTag := sameTagSiblings r (rev rparent) e in
                if (1 <? length sameTag)%nat
                then part +:+ nthOfType (indexOf i sameTag + 1)
                else part
            end in
          buildUniqueSelector_walk r rparent (part :: parts)
      end
  end.

(** [buildUniqueSelector(el, root)] *)
Definition buildUniqueSelector (r : Root) (loc : Loc) : string :=
  let elId := match elemAt r loc with Some e => Dom.id e | None => "" end in
  if truthy (chars elId) then "#" +:+ cssEscape elId
  else String.concat " > " (buildUniqueSelector_walk r (rev loc) []).

(** [el.ownerDocument]: the document of the innermost frame crossed. *)
Fixpoint ownerDocument_go (r : Root) (cp : CtxPath) (owner : Root) : Root :=
  match cp with
  | [] => owner
  | (loc, b) :: cp' =>
      match nodeAt r loc with
      | Some n =>
          match b with
          | ShadowB =>
              match shadowRootOf n with
              | Some sr => ownerDocument_go sr cp' owner
              | None => owner
              end
          | FrameB =>
              match contentDocumentOf n with
              | Some d => ownerDocument_go d cp' d
              | None => owner
              end
          end
      | None => owner
      end
  end.

Definition ownerDocument (document : Root) (cp : CtxPath) : Root :=
  ownerDocument_go document cp document.

(** [text?.trim() || null] *)
Definition trimOrNull (s : string) : option string :=
  if truthy (chars (trimmed s)) then Some (trimmed s) else None.

(** The walk up through [parentElement] until a [<label>]. *)
Fixpoint enclosingLabel (r : Root) (ancs : list Loc) : option string :=
  match ancs with
  | [] => None
  | parent :: ancs' =>
      match elemAt r parent with
      | Some e =>
          if String.eqb (tag e) "label" then trimOrNull (textAt r parent)
          else enclosingLabel r ancs'
      | None => enclosingLabel r ancs'
      end
  end.

(** [resolveLabelText(el)] for the element at [loc] below the root [r]
    reached by [cp]. *)
Definition resolveLabelText (document : Root) (cp : CtxPath) (r : Root) (loc : Loc)
  : option string :=
  let elId := match elemAt r loc with Some e => Dom.id e | None => "" end in
  let labelText :=
    if truthy (chars elId) then
      let owner := ownerDocument document cp in
      match labelFor owner elId with
      | Some lab => trimOrNull (textAt owner lab)
      | None => None
      end
    else None in
  let labelText :=
    match labelText with
    | Some t => Some t
    | None => enclosingLabel r (ancestors loc)
    end in
  match labelText with
  | Some t => Some (str (collapseSpaces false (chars t)))
  | None => None
  end.

End PageScanner.

(* ===================================================================== *)
(** ** formfiller.ts: resolving a mapping to an element                   *)
(* ===================================================================== *)

Module FormFiller.

(** One entry of [framePath]: a number (frame index) or a string (the
    selector of a shadow host). *)
Inductive Hop :=
| FrameIndex (n : nat)
| HostSelector (s : string).

Record FieldMapping := mkMapping {
  selector : string;
  column : string;
  type : string;
  framePath : list Hop
}.

(** A window: that of a same-origin document, or a cross-origin one whose
    [document] cannot be read. *)
Inductive Window :=
| WindowOf (cp : CtxPath) (doc : Root)
| ForeignWindow.

(** [iframe.contentWindow] *)
Definition contentWindowOf (cp : CtxPath) (loc : Loc) (n : Node) : option Window :=
  match n with
  | Element _ _ _ (SameOrigin d) => Some (WindowOf (cp ++ [(loc, FrameB)]) d)
  | Element _ _ _ CrossOrigin => Some ForeignWindow
  | _ => None
  end.

Record Cursor := mkCursor {
  ctx : option (CtxPath * Root);
  currentWin : Window
}.

(** One turn of [for (const hop of map.framePath)]: [inl] is an early
    [return null]. *)
Definition resolveHop (cur : Cursor) (hop : Hop) : Result (unit + Cursor) :=
  match hop with
  | FrameIndex n =>
      match currentWin cur with
      | ForeignWindow => Throw SecurityError
      | WindowOf wcp wdoc =>
          bind (querySelectorAll wdoc "iframe") (fun frames =>
            match frames !! n with
            | None => Ok (inl tt)
            | Some loc =>
                match nodeAt wdoc loc with
                | None => Ok (inl tt)
                | Some node =>
                    match contentWindowOf wcp loc node with
                    | None => Ok (inl tt)
                    | Some ForeignWindow => Throw SecurityError
                    | Some (WindowOf cp d) =>
                        Ok (inr (mkCursor (Some (cp, d)) (WindowOf cp d)))
                    end
                end
            end)
      end
  | HostSelector s =>
      match ctx cur with
      | None => Ok (inr (mkCursor None (currentWin cur)))
      | Some (cp, r) =>
          bind (querySelector r s) (fun host =>
            match host with
            | None => Ok (inr (mkCursor None (currentWin cur)))
            | Some loc =>
                match nodeAt r loc with
                | Some node =>
                    match shadowRootOf node with
                    | Some sr =>
                        Ok (inr (mkCursor (Some (cp ++ [(loc, ShadowB)], sr))
                                          (currentWin cur)))
                    | None => Ok (inr (mkCursor None (currentWin cur)))
                    end
                | None => Ok (inr (mkCursor None (currentWin cur)))
                end
            end)
      end
  end.

Fixpoint resolveHops (cur : Cursor) (hops : list Hop) : Result (unit + Cursor) :=
  match hops with
  | [] => Ok (inr cur)
  | hop :: hops' =>
      bind (resolveHop cur hop) (fun step =>
        match step with
        | inl tt => Ok (inl tt)
        | inr cur' => resolveHops cur' hops'
        end)
  end.

(** [ctx?.querySelector(map.selector) ?? null] *)
Definition finalQuery (cur : Cursor) (s : string) : Result (option Ref) :=
  match ctx cur with
  | None => Ok None
  | Some (cp, r) =>
      bind (querySelector r s) (fun found =>
        Ok (match found with
            | Some loc => Some (cp, loc)
            | None => None
            end))
  end.

(** [FormFiller._resolveElement(map)]: the element, or [None] for
    [null]. *)
Definition _resolveElement (document : Root) (map : FieldMapping) : Result (option Ref) :=
  bind (resolveHops (mkCursor (Some ([], document)) (WindowOf [] document))
                    (framePath map))
       (fun step =>
          match step with
          | inl tt => Ok None
          | inr cur => finalQuery cur (selector map)
          end).

End FormFiller.

(* ===================================================================== *)
(** ** formfiller.ts: scanning the page                                   *)
(* ===================================================================== *)

Module FormScan.

Import FormFiller.





(** ['input, select, textarea, \[contenteditable\]'] and ['iframe'], as the
    engine reads them. *)
Definition fillableSelector : SelectorList :=
  [mkComplex [SType "input"] []; mkComplex [SType "select"] [];
   mkComplex [SType "textarea"] []; mkComplex [SAttr "contenteditable" None] []].

Definition iframeSelector : SelectorList := [mkComplex [SType "iframe"] []].



Section Walk.

Variable document : Root.









End Walk.

End FormScan.

(* ===================================================================== *)
(** ** Sample pages                                                       *)
(* ===================================================================== *)

Module Samples.

Definition el (t : string) (a : list (string * string)) (ch : list Node) : Node :=
  Element (mkElem t a false) ch None NoWindow.

Definition hostEl (t : string) (a : list (string * string)) (sr : Root) : Node :=
  Element (mkElem t a false) [] (Some sr) NoWindow.

(** [<html><head></head><body> ... </body></html>] *)
Definition page (body : list Node) : Root :=
  [el "html" [] [el "head" [] []; el "body" [] body]].

(** Two inputs that share the id [a]. *)
Definition dupIdPage : Root :=
  page [el "input" [("id", "a")] []; el "input" [("id", "a")] []].

(** A shadow root whose only child is an input without id or class. *)
Definition bareShadow : Root := [el "input" [] []].
Definition bareShadowPage : Root := page [hostEl "x-host" [] bareShadow].

(** A shadow root with two rows, an input in each. *)
Definition rowsShadow : Root :=
  [el "div" [] [el "input" [] []]; el "div" [] [el "input" [] []]].
Definition rowsShadowPage : Root := page [hostEl "x-host" [] rowsShadow].

(** An input inside its label, and an input after its label. *)
Definition wrappedLabelPage : Root :=
  page [el "label" [] [Text "Name "; el "input" [] []]].

(** Two inputs without attributes. *)
Definition twoInputsPage : Root :=
  page [el "input" [] []; el "input" [] []].

(** A shadow root holding [<input id="email">] and one holding
    [<input name="x">]; a host-like element without shadow root. *)
Definition emailShadowPage : Root :=
  page [hostEl "x-host" [] [el "input" [("id", "email")] []]].
Definition namedShadowPage : Root :=
  page [hostEl "host" [] [el "input" [("name", "x")] []]].
Definition noShadowPage : Root :=
  page [el "host" [] [el "input" [("name", "x")] []]].

End Samples.

(* ===================================================================== *)
(** * Properties                                                          *)
(* ===================================================================== *)

(* ===================================================================== *)
(** ** mappingengine.ts                                                   *)
(* ===================================================================== *)

Section MappingEngineFacts.

Import MappingEngine.

(** What the loop of [generateMapping] has built after [n] turns: each
    selector carries the column of the last field below [n] that has it. *)
Definition builtUpTo (inp : Inputs) (n : nat) (m : gmap string string) : Prop :=
  forall s : string,
    (m !! s = None /\
     forall j f, (j < n)%nat -> in_fields inp !! j = Some f -> selector f <> s)
    \/
    (exists j f c,
        (j < n)%nat /\ in_fields inp !! j = Some f /\ in_columns inp !! j = Some c /\
        selector f = s /\ m !! s = Some c /\
        forall j' f', (j < j')%nat -> (j' < n)%nat ->
                      in_fields inp !! j' = Some f' -> selector f' <> s).

Lemma generateMapping_loop (inp : Inputs) (n : nat) :
  (n <= length (in_fields inp))%nat ->
  (n <= length (in_columns inp))%nat ->
  exists m, fold_left (generateMapping_step inp) (seq 0 n) (Ok ∅) = Ok m
            /\ builtUpTo inp n m.
Proof.
  induction n as [|n IH]; intros Hf Hc.
  - exists ∅. split; [reflexivity|].
    intros s. left. split; [apply lookup_empty|]. intros j f Hj. lia.
  - destruct IH as (m & Hm & Hinv); [lia|lia|].
    rewrite seq_S, fold_left_app, Hm. simpl.
    destruct (lookup_lt_is_Some_2 (in_fields inp) n) as [f Hfn]; [lia|].
    destruct (lookup_lt_is_Some_2 (in_columns inp) n) as [c Hcn]; [lia|].
    rewrite Hfn, Hcn. eexists. split; [reflexivity|].
    intros s. destruct (decide (selector f = s)) as [Heq|Hne].
    + right. exists n, f, c. repeat split; try assumption; try lia.
      subst s. apply lookup_insert_eq.
    + destruct (Hinv s) as [[Hnone Hall]|(j & g & d & Hj & Hg & Hd & Hs & Hl & Hlast)].
      * left. split.
        -- rewrite lookup_insert_ne; assumption.
        -- intros j g Hj Hg. destruct (decide (j = n)) as [->|Hjn].
           ++ congruence.
           ++ apply (Hall j); [lia|assumption].
      * right. exists j, g, d. repeat split; try assumption; try lia.
        -- rewrite lookup_insert_ne; assumption.
        -- intros j' f' H1 H2 Hf'. destruct (decide (j' = n)) as [->|Hjn].
           ++ congruence.
           ++ apply (Hlast j'); [lia|lia|assumption].
Qed.


(** The inner loop of [autoMap] ends with no candidate, or with an unused
    header and its score. *)
Definition bestOk (headers : list string) (used : gset string) (ft : gset string)
  (b : Best) : Prop :=
  bestIdx b = (-1)%Z \/
  exists i h, bestIdx b = Z.of_nat i /\ headers !! i = Some h /\ (h ∉ used) /\
              bestScore b = jaccard ft (tokenSet h).

Lemma autoMap_scan_ok headers used ft (l : list nat) (b : Best) :
  bestOk headers used ft b ->
  bestOk headers used ft
    (fold_left (autoMap_scan headers (map tokenSet headers) used ft) l b).
Proof.
  revert b. induction l as [|i l IH]; intros b Hb; simpl; [assumption|].
  apply IH. unfold autoMap_scan.
  rewrite list_lookup_fmap.
  destruct (headers !! i) as [h|] eqn:Hh; simpl; [|exact Hb].
  case_bool_decide as Hused; [exact Hb|].
  destruct (Qgtb _ _); [|exact Hb].
  right. exists i, h. simpl. auto.
Qed.

(** What holds of the mapping and of the used headers between two
    fields. *)
Definition autoMapInv (fields : list FieldInfo) (headers : list string)
  (st : AutoMapState) : Prop :=
  (forall s h, mapping st !! s = Some h ->
     h ∈ usedHeaders st /\ h ∈ headers /\
     exists f, f ∈ fields /\ selector f = s /\
               (2 # 10 <= jaccard (tokenSet (fieldText f)) (tokenSet h))%Q) /\
  (forall s1 s2 h, mapping st !! s1 = Some h -> mapping st !! s2 = Some h -> s1 = s2).

Lemma autoMap_field_inv fields headers st f :
  f ∈ fields ->
  autoMapInv fields headers st ->
  autoMapInv fields headers (autoMap_field headers (map tokenSet headers) st f).
Proof.
  intros Hin [Hval Hinj]. unfold autoMap_field.
  destruct (negb (truthy (chars (fieldText f)))); [split; assumption|].
  set (b := fold_left _ _ _).
  assert (Hb : bestOk headers (usedHeaders st) (tokenSet (fieldText f)) b).
  { apply autoMap_scan_ok. left. reflexivity. }
  destruct (negb (bestIdx b =? -1)%Z && Qle_bool (2 # 10) (bestScore b)) eqn:Hc;
    [|split; assumption].
  apply andb_true_iff in Hc. destruct Hc as [Hidx Hscore].
  apply negb_true_iff, Z.eqb_neq in Hidx.
  apply Qle_bool_iff in Hscore.
  destruct Hb as [Hb|(i & h & Hi & Hh & Hfresh & Hs)]; [contradiction|].
  rewrite Hi, Nat2Z.id, Hh.
  split; simpl.
  - intros s h' Hl. destruct (decide (selector f = s)) as [<-|Hne].
    + rewrite lookup_insert_eq in Hl. injection Hl as <-.
      split; [apply elem_of_union; left; apply elem_of_singleton; reflexivity|].
      split; [eapply list_elem_of_lookup_2; eassumption|].
      exists f. rewrite <- Hs. auto.
    + rewrite lookup_insert_ne in Hl by assumption.
      destruct (Hval s h' Hl) as (Hu & Hrest).
      split; [apply elem_of_union; right; exact Hu|assumption].
  - intros s1 s2 h' H1 H2.
    destruct (decide (selector f = s1)) as [E1|N1];
      destruct (decide (selector f = s2)) as [E2|N2].
    + congruence.
    + subst s1. rewrite lookup_insert_eq in H1. injection H1 as <-.
      rewrite lookup_insert_ne in H2 by assumption.
      destruct (Hval s2 h H2) as (Hu & _). contradiction.
    + subst s2. rewrite lookup_insert_eq in H2. injection H2 as <-.
      rewrite lookup_insert_ne in H1 by assumption.
      destruct (Hval s1 h H1) as (Hu & _). contradiction.
    + rewrite lookup_insert_ne in H1 by assumption.
      rewrite lookup_insert_ne in H2 by assumption.
      eapply Hinj; eassumption.
Qed.

Lemma autoMap_fields_inv fields headers (l : list FieldInfo) st :
  (forall f, f ∈ l -> f ∈ fields) ->
  autoMapInv fields headers st ->
  autoMapInv fields headers
    (fold_left (autoMap_field headers (map tokenSet headers)) l st).
Proof.
  revert st. induction l as [|f l IH]; intros st Hsub Hinv; simpl; [assumption|].
  apply IH.
  - intros g Hg. apply Hsub. right. assumption.
  - apply autoMap_field_inv; [apply Hsub; left|assumption].
Qed.

(** C10. The mapping returned by [autoMap] gives no header to two
    selectors, and every header it assigns is one of the given headers
    whose Jaccard score against the label-or-name text of a field with
    that selector is at least 0.2. *)
Theorem autoMap_injective_and_scored (fields : list FieldInfo) (headers : list string) :
  (forall s1 s2 h,
      autoMap fields headers !! s1 = Some h ->
      autoMap fields headers !! s2 = Some h -> s1 = s2) /\
  (forall s h,
      autoMap fields headers !! s = Some h ->
      h ∈ headers /\
      exists f, f ∈ fields /\ selector f = s /\
                (2 # 10 <= jaccard (tokenSet (fieldText f)) (tokenSet h))%Q).
Proof.
  unfold autoMap.
  destruct (autoMap_fields_inv fields headers fields (mkAuto ∅ ∅)) as [Hval Hinj].
  - auto.
  - split; simpl.
    + intros s h Hl. rewrite lookup_empty in Hl. discriminate.
    + intros s1 s2 h Hl. rewrite lookup_empty in Hl. discriminate.
  - split; [exact Hinj|].
    intros s h Hl. destruct (Hval s h Hl) as (_ & Hh & Hf). auto.
Qed.

Definition sampleInputs : Inputs :=
  mkInputs [mkField "#first" (Some "First name") None; mkField "#city" None (Some "city")]
           ["First"; "City"].


Lemma autoMap_injective_and_scored_witness :
  autoMap (in_fields sampleInputs) (in_columns sampleInputs) !! "#first" = Some "First"
  /\ "First" ∈ in_columns sampleInputs.
Proof.
  assert (Hl : autoMap (in_fields sampleInputs) (in_columns sampleInputs) !! "#first"
               = Some "First") by (vm_compute; reflexivity).
  split; [exact Hl|].
  exact (proj1 (proj2 (autoMap_injective_and_scored _ _) "#first" "First" Hl)).
Defined.

End MappingEngineFacts.

(* ===================================================================== *)
(** ** The change monitor                                                 *)
(* ===================================================================== *)

Section ChangeMonitorFacts.

Import ChangeMonitor.

Variable scanTime : Z.















End ChangeMonitorFacts.


(* ===================================================================== *)
(** ** Positions in a tree                                                *)
(* ===================================================================== *)

Section DomFacts.

(** The node reached from a node by child indices. *)
Fixpoint sub (n : Node) (rel : Loc) : option Node :=
  match rel with
  | [] => Some n
  | i :: rel' =>
      match childrenOf n !! i with
      | Some c => sub c rel'
      | None => None
      end
  end.

Lemma nodeAt_cons (r : Root) (i : nat) (h : Loc) :
  nodeAt r (i :: h) = match r !! i with Some n => sub n h | None => None end.
Proof.
  revert r i. induction h as [|j h IH]; intros r i; simpl.
  - destruct (r !! i); reflexivity.
  - destruct (r !! i) as [n|]; [|reflexivity].
    specialize (IH (childrenOf n) j). simpl in IH. exact IH.
Qed.

Lemma nodeAt_snoc (r : Root) (parent : Loc) (k : nat) :
  nodeAt r (parent ++ [k]) = childNodesAt r parent !! k.
Proof.
  revert r. induction parent as [|a p IH]; intros r; simpl.
  - destruct (r !! k); reflexivity.
  - destruct (r !! a) as [n|] eqn:Ha; [|destruct (p ++ [k]); reflexivity].
    destruct p as [|b p]; [simpl; destruct (childrenOf n !! k); reflexivity|].
    exact (IH (childrenOf n)).
Qed.




Lemma elem_of_concatMapi {A} (f : nat -> Node -> list A) (l : list Node) :
  forall i0 x,
    x ∈ concatMapi f i0 l <-> exists j c, l !! j = Some c /\ x ∈ f (i0 + j) c.
Proof.
  induction l as [|n l IH]; intros i0 x; simpl.
  - split; [intros H; inversion H|intros (j & c & H & _); discriminate].
  - rewrite elem_of_app, IH. split.
    + intros [H|(j & c & Hl & Hx)].
      * exists 0, n. rewrite Nat.add_0_r. auto.
      * exists (S j), c. rewrite Nat.add_succ_r. auto.
    + intros ([|j] & c & Hl & Hx).
      * left. simpl in Hl. injection Hl as <-. rewrite Nat.add_0_r in Hx. exact Hx.
      * right. exists j, c. rewrite Nat.add_succ_r in Hx. auto.
Qed.

(** Every element below a node is listed with it. *)
Lemma elementsUnder_complete (rel : Loc) : forall n here e ch sr fc,
  sub n rel = Some (Element e ch sr fc) -> (here ++ rel) ∈ elementsUnder here n.
Proof.
  induction rel as [|j rel IH]; intros n here e ch sr fc Hsub.
  - simpl in Hsub. injection Hsub as ->. rewrite app_nil_r. simpl. left.
  - simpl in Hsub. destruct n as [e' ch' sr' fc'|d]; [|discriminate].
    simpl in Hsub. destruct (ch' !! j) as [c|] eqn:Hj; [|discriminate].
    cbn [elementsUnder]. right. apply elem_of_concatMapi. exists j, c.
    split; [exact Hj|]. simpl.
    replace (here ++ j :: rel) with ((here ++ [j]) ++ rel)
      by (rewrite <- app_assoc; reflexivity).
    eapply IH. exact Hsub.
Qed.

(** [allElements] lists every element of a root. *)
Lemma allElements_complete (r : Root) (loc : Loc) (e : ElemData) :
  elemAt r loc = Some e -> loc ∈ allElements r.
Proof.
  unfold elemAt. destruct loc as [|i rel]; [discriminate|].
  rewrite nodeAt_cons. destruct (r !! i) as [n|] eqn:Hi; [|discriminate].
  destruct (sub n rel) as [[e' ch sr fc|d]|] eqn:Hsub; try discriminate.
  intros _. unfold allElements. apply elem_of_concatMapi. exists i, n.
  split; [exact Hi|]. simpl.
  apply (elementsUnder_complete rel n [i] e' ch sr fc Hsub).
Qed.

Lemma truthy_chars (s : string) : truthy (chars s) = false <-> s = "".
Proof. destruct s; simpl; split; intros H; congruence. Qed.

Lemma truthy_chars_true (s : string) : s <> "" -> truthy (chars s) = true.
Proof.
  intros Hs. destruct (truthy (chars s)) eqn:E; [reflexivity|].
  apply truthy_chars in E. contradiction.
Qed.

End DomFacts.

(* ===================================================================== *)
(** ** Selector synthesis                                                 *)
(* ===================================================================== *)

Section SynthesisFacts.

Import Samples ContentScript.

(** C1. The synthesized selector is not always unique.
    [buildUniqueSelector] emits [#a] for an element whose id [a] is shared,
    and the selector matches both elements.  [uniqueSelector] leaves out
    the child of a shadow root: for an input in one of two rows it gives
    [input], which matches both inputs, and for an input directly below
    the shadow root it gives the empty string, which is no selector. *)
Theorem synthesized_selector_not_unique :
  PageScanner.buildUniqueSelector dupIdPage [0; 1; 0] = "#a"
  /\ querySelectorAll dupIdPage "#a" = Ok [[0; 1; 0]; [0; 1; 1]]
  /\ uniqueSelector rowsShadow [0; 0] = "input"
  /\ querySelectorAll rowsShadow "input" = Ok [[0; 0]; [1; 0]]
  /\ uniqueSelector bareShadow [0] = ""
  /\ querySelectorAll bareShadow "" = Throw SyntaxError.
Proof. repeat split; vm_compute; reflexivity. Qed.

(** Where [uniqueSelector] checks the id it is right: the shared id is not
    used and the path it builds in a document matches the element alone. *)
Example uniqueSelector_dupId :
  uniqueSelector dupIdPage [0; 1; 0] = "body > input:nth-of-type(1)"
  /\ querySelectorAll dupIdPage "body > input:nth-of-type(1)" = Ok [[0; 1; 0]].
Proof. split; vm_compute; reflexivity. Qed.

(** The id shortcut of [uniqueSelector] is sound: it is taken only when
    the id selector matches one element of the root, and that element is
    the one the selector was asked for. *)
Lemma uniqueSelector_id_shortcut (r : Root) (loc : Loc) (e : ElemData) :
  elemAt r loc = Some e -> Dom.id e <> "" ->
  length (selectAll r [mkComplex [SId (Dom.id e)] []]) = 1 ->
  uniqueSelector r loc = "#" +:+ cssEscape (Dom.id e)
  /\ selectAll r [mkComplex [SId (Dom.id e)] []] = [loc].
Proof.
  intros He Hid Hone. split.
  - unfold uniqueSelector. rewrite He, (truthy_chars_true _ Hid), Hone. reflexivity.
  - assert (Hin : loc ∈ selectAll r [mkComplex [SId (Dom.id e)] []]).
    { unfold selectAll. apply list_elem_of_In, filter_In. split.
      - apply list_elem_of_In. eapply allElements_complete. exact He.
      - unfold matchesComplex, matchesCompound. simpl. rewrite He. simpl.
        unfold Dom.id, attrOrEmpty in *.
        destruct (getAttribute e "id") as [v|]; [|contradiction].
        rewrite String.eqb_refl. reflexivity. }
    destruct (selectAll r [mkComplex [SId (Dom.id e)] []]) as [|x [|y l]];
      try discriminate.
    apply list_elem_of_singleton in Hin. congruence.
Qed.

(** With a shared id the shortcut is not taken. *)
Lemma uniqueSelector_shared_id (r : Root) (loc : Loc) (e : ElemData) :
  elemAt r loc = Some e ->
  length (selectAll r [mkComplex [SId (Dom.id e)] []]) <> 1 ->
  uniqueSelector r loc = String.concat " > " (uniqueSelector_walk r (rev loc) []).
Proof.
  intros He Hmany. unfold uniqueSelector. rewrite He.
  destruct (Nat.eqb_spec (length (selectAll r [mkComplex [SId (Dom.id e)] []])) 1);
    [contradiction|].
  rewrite andb_false_r. reflexivity.
Qed.

(** C2. A scanned field is not always found again.  The scan of a page
    whose shadow root holds one input gives that input the deep selector
    [body > x-host >>> ], and the deep query for it returns the host.  With
    two rows in the shadow root both inputs get the same deep selector and
    the query returns both. *)
Theorem scan_then_query_misses_field :
  map (fun c => (elementRef c, selector (info c))) (scanDOM bareShadowPage noOptions)
  = [(([([0; 1; 0], ShadowB)], [0]), "body > x-host >>> ")]
  /\ queryDeepAll bareShadowPage "body > x-host >>> " = Ok [([], [0; 1; 0])]
  /\ map (fun c => (elementRef c, selector (info c))) (scanDOM rowsShadowPage noOptions)
     = [(([([0; 1; 0], ShadowB)], [0; 0]), "body > x-host >>> input");
        (([([0; 1; 0], ShadowB)], [1; 0]), "body > x-host >>> input")]
  /\ queryDeepAll rowsShadowPage "body > x-host >>> input"
     = Ok [([([0; 1; 0], ShadowB)], [0; 0]); ([([0; 1; 0], ShadowB)], [1; 0])].
Proof. repeat split; vm_compute; reflexivity. Qed.

(** In a plain document the round trip succeeds. *)
Example scan_then_query_document :
  map (fun c => (elementRef c, selector (info c))) (scanDOM twoInputsPage noOptions)
  = [(([], [0; 1; 0]), "body > input:nth-of-type(1)");
     (([], [0; 1; 1]), "body > input:nth-of-type(2)")]
  /\ queryDeepAll twoInputsPage "body > input:nth-of-type(2)" = Ok [([], [0; 1; 1])].
Proof. split; vm_compute; reflexivity. Qed.

(** The strings that the synthesis writes with [CSS.escape] are read back
    by the engine as the selectors whose matches it counts. *)
Example escaped_strings_denote_selectors :
  parseSelector ("#" +:+ cssEscape "1 b.c") = Some [mkComplex [SId "1 b.c"] []]
  /\ parseSelector ("div" +:+ "." +:+ cssEscape "a:b" +:+ "." +:+ cssEscape "-")
     = Some [mkComplex [SType "div"; SClass "a:b"; SClass "-"] []]
  /\ parseSelector ("label[for=" +:+ String dquote (cssEscape "x y" +:+ String dquote "]"))
     = Some [mkComplex [SType "label"; SAttr "for" (Some "x y")] []].
Proof. repeat split; vm_compute; reflexivity. Qed.

(** A field with an id inside a shadow root: one descriptor, one hop, and
    the local selector is the id. *)
Example scan_shadow_email :
  map (fun c => (elementRef c, selector (info c))) (scanDOM emailShadowPage noOptions)
  = [(([([0; 1; 0], ShadowB)], [0]), "body > x-host >>> #email")]
  /\ queryDeepAll emailShadowPage "body > x-host >>> #email"
     = Ok [([([0; 1; 0], ShadowB)], [0])].
Proof. split; vm_compute; reflexivity. Qed.

(** The deep query enters a shadow host and finds nothing behind an
    element that hosts no shadow root. *)
Example deep_query_boundary_drop :
  queryDeepAll namedShadowPage "host >>> input[name=x]"
  = Ok [([([0; 1; 0], ShadowB)], [0])]
  /\ queryDeepAll noShadowPage "host >>> input[name=x]" = Ok [].
Proof. split; vm_compute; reflexivity. Qed.

End SynthesisFacts.

(* ===================================================================== *)
(** ** The deep query                                                     *)
(* ===================================================================== *)

Section DeepQueryFacts.

Import Samples ContentScript.

(** The deep query in the words of its description: the matches of a
    fragment in every current context, contexts in order ... *)
Definition candidates (ctxs : list Context) (sel : SelectorList) : list (Context * Loc) :=
  flat_map (fun ctx => map (pair ctx) (selectAll (snd ctx) sel)) ctxs.

(** ... of which those that are boundaries give the next contexts, the
    others being dropped ... *)
Definition boundariesOf (cands : list (Context * Loc)) : list Context :=
  flat_map (fun c => match nextRoot (fst c) (snd c) with
                     | Some x => [x]
                     | None => []
                     end) cands.

Definition refOf (c : Context * Loc) : Ref := (fst (fst c), snd c).



Definition parsesTo (part : string) (sel : SelectorList) : Prop :=
  parseSelector part = Some sel.


Lemma boundariesOf_app (a b : list (Context * Loc)) :
  boundariesOf (a ++ b) = boundariesOf a ++ boundariesOf b.
Proof. unfold boundariesOf. apply flat_map_app. Qed.

Lemma pushMatches_spec (isLast : bool) (ctx : Context) (matches : list Loc) :
  forall acc,
    pushMatches isLast ctx matches acc =
    acc ++ (if isLast
            then map ElementNode (map refOf (map (pair ctx) matches))
            else map RootNode (boundariesOf (map (pair ctx) matches))).
Proof.
  unfold pushMatches.
  induction matches as [|m ms IH]; intros acc; simpl.
  - destruct isLast; simpl; rewrite app_nil_r; reflexivity.
  - rewrite IH. destruct isLast; simpl.
    + rewrite <- app_assoc. reflexivity.
    + destruct (nextRoot ctx m) as [c|]; simpl.
      * rewrite <- app_assoc. reflexivity.
      * reflexivity.
Qed.

Lemma eachContext_spec (part : string) (sel : SelectorList) (isLast : bool) :
  parsesTo part sel ->
  forall ctxs acc,
    eachContext part isLast ctxs acc =
    Ok (acc ++ (if isLast
                then map ElementNode (map refOf (candidates ctxs sel))
                else map RootNode (boundariesOf (candidates ctxs sel)))).
Proof.
  intros Hp. induction ctxs as [|ctx ctxs IH]; intros acc; simpl.
  - destruct isLast; simpl; rewrite app_nil_r; reflexivity.
  - unfold querySelectorAll. rewrite Hp. simpl.
    rewrite IH, pushMatches_spec. f_equal. rewrite <- app_assoc. f_equal.
    destruct isLast.
    + rewrite !map_app. reflexivity.
    + unfold candidates. simpl. fold (candidates ctxs sel).
      rewrite boundariesOf_app, map_app. reflexivity.
Qed.

Lemma elementNodes_map (l : list Ref) : elementNodes (map ElementNode l) = l.
Proof. induction l as [|x l IH]; simpl; [reflexivity|]. f_equal. exact IH. Qed.

Lemma rootNodes_map (l : list Context) : rootNodes (map RootNode l) = l.
Proof. induction l as [|x l IH]; simpl; [reflexivity|]. f_equal. exact IH. Qed.







End DeepQueryFacts.

(* ===================================================================== *)
(** ** Splitting a deep-query string                                      *)
(* ===================================================================== *)

Section SplitFacts.

Import Samples ContentScript.


Definition blank (s : list ascii) : Prop := forallb isSpace s = true.




Lemma trimStart_suffix s : exists p, s = p ++ trimStart s /\ blank p.
Proof.
  induction s as [|c s (p & Hs & Hp)]; simpl.
  - exists []. split; reflexivity.
  - destruct (isSpace c) eqn:Hc.
    + exists (c :: p). split; [simpl; f_equal; exact Hs|].
      unfold blank. simpl. rewrite Hc. exact Hp.
    + exists []. split; reflexivity.
Qed.












End SplitFacts.

(* ===================================================================== *)
(** ** Resolving a mapping                                                *)
(* ===================================================================== *)

Section ResolverFacts.

Import Samples FormFiller.

Definition start (document : Root) : Cursor :=
  mkCursor (Some ([], document)) (WindowOf [] document).

(** What the final query gives back for the matches of the selector. *)
Definition firstOf (cp : CtxPath) (matches : list Loc) : option Ref :=
  match matches with
  | [] => None
  | first :: _ => Some (cp, first)
  end.

(** C4, as the code has it.  When the hops of a mapping lead to a final
    context and the selector of the mapping is valid there,
    [_resolveElement] does not throw: it returns [null] when the selector
    matches no node and the first match in document order when it matches
    one node or several. *)
Theorem resolveElement_first_match_or_null
  (document : Root) (map : FieldMapping) (cur : Cursor)
  (cp : CtxPath) (r : Root) (matches : list Loc) :
  resolveHops (start document) (framePath map) = Ok (inr cur) ->
  ctx cur = Some (cp, r) ->
  querySelectorAll r (selector map) = Ok matches ->
  _resolveElement document map = Ok (firstOf cp matches)
  /\ (matches = [] -> _resolveElement document map = Ok None)
  /\ (forall first second others,
         matches = first :: second :: others ->
         _resolveElement document map = Ok (Some (cp, first))).
Proof.
  intros Hhops Hctx Hq.
  assert (H : _resolveElement document map = Ok (firstOf cp matches)).
  { unfold _resolveElement. fold (start document). rewrite Hhops. simpl.
    unfold finalQuery. rewrite Hctx. unfold querySelector. rewrite Hq. simpl.
    destruct matches; reflexivity. }
  split; [exact H|]. split.
  - intros ->. exact H.
  - intros first second others ->. exact H.
Qed.

Definition twoInputsMapping : FieldMapping := mkMapping "input" "COL_1" "input" [].

Lemma resolveElement_first_match_or_null_witness :
  _resolveElement twoInputsPage twoInputsMapping = Ok (Some ([], [0; 1; 0])).
Proof.
  destruct (resolveElement_first_match_or_null twoInputsPage twoInputsMapping
              (start twoInputsPage) [] twoInputsPage [[0; 1; 0]; [0; 1; 1]])
    as (_ & _ & H).
  - reflexivity.
  - reflexivity.
  - vm_compute. reflexivity.
  - apply (H [0; 1; 0] [0; 1; 1] []). reflexivity.
Defined.

(** The outcomes that the description of the resolver names, and the one
    it prescribes for the matches of the selector in the final context. *)
Inductive Outcome :=
| Resolved (x : Ref)
| NotFound
| Ambiguous.

Definition describedOutcome (cp : CtxPath) (matches : list Loc) : Outcome :=
  match matches with
  | [] => NotFound
  | [x] => Resolved (cp, x)
  | _ :: _ :: _ => Ambiguous
  end.

(** The value returned by the code, read as an outcome. *)
Definition outcomeOf (res : Result (option Ref)) : option Outcome :=
  match res with
  | Ok (Some x) => Some (Resolved x)
  | Ok None => Some NotFound
  | Throw _ => None
  end.

(** A selector that matches two nodes is resolved to the first of them;
    no outcome tells the caller that there were several. *)
Lemma resolveElement_picks_first_of_two :
  querySelectorAll twoInputsPage (selector twoInputsMapping)
  = Ok [[0; 1; 0]; [0; 1; 1]]
  /\ resolveHops (start twoInputsPage) (framePath twoInputsMapping)
     = Ok (inr (start twoInputsPage))
  /\ describedOutcome [] [[0; 1; 0]; [0; 1; 1]] = Ambiguous
  /\ _resolveElement twoInputsPage twoInputsMapping = Ok (Some ([], [0; 1; 0]))
  /\ outcomeOf (_resolveElement twoInputsPage twoInputsMapping)
     <> Some (describedOutcome [] [[0; 1; 0]; [0; 1; 1]]).
Proof. repeat split; try (vm_compute; reflexivity). vm_compute. discriminate. Qed.

End ResolverFacts.

(* ===================================================================== *)
(** ** The depth bound of the scan                                        *)
(* ===================================================================== *)

Section NodeInduction.

Variable P : Node -> Prop.
Hypothesis text_case : forall d, P (Text d).
Hypothesis element_case :
  forall e ch sr fc,
    Forall P ch ->
    Forall P (default [] sr) ->
    Forall P (default [] (contentDocumentOf (Element e ch sr fc))) ->
    P (Element e ch sr fc).

(** Induction on a node with the hypothesis for every node of its child
    list, of its shadow root and of its embedded document. *)
Lemma Node_nested_ind : forall n, P n.
Proof.
  fix IH 1. intros [e ch sr fc|d]; [|apply text_case].
  apply element_case.
  - induction ch as [|c ch IHch]; constructor; [apply IH|exact IHch].
  - destruct sr as [s|]; simpl; [|constructor].
    induction s as [|c s IHs]; constructor; [apply IH|exact IHs].
  - destruct fc as [| |d]; simpl; try constructor.
    induction d as [|c d IHd]; constructor; [apply IH|exact IHd].
Qed.

End NodeInduction.

Section DepthFacts.

Import Samples ContentScript.

Variable cfg : Config.
Variable document : Root.

(** The root entered from a node through a boundary that the options
    allow the scan to cross. *)
Definition crossing (b : Boundary) (n : Node) : option Root :=
  match n with
  | Element e _ sr fc =>
      match b with
      | ShadowB => if includeShadowDom cfg then sr else None
      | FrameB =>
          if iframeTraversal cfg && String.eqb (tag e) "iframe"
          then match fc with SameOrigin d => Some d | _ => None end
          else None
      end
  | Text _ => None
  end.

(** The root reached by a chain of such crossings. *)
Fixpoint enabledRootAt (r : Root) (cp : CtxPath) : option Root :=
  match cp with
  | [] => Some r
  | (h, b) :: cp' =>
      match nodeAt r h with
      | Some n =>
          match crossing b n with
          | Some r' => enabledRootAt r' cp'
          | None => None
          end
      | None => None
      end
  end.

(** A field that the scan can reach when depth is no limit. *)
Definition scannable (x : Ref) : Prop :=
  exists r e, enabledRootAt document (fst x) = Some r
              /\ elemAt r (snd x) = Some e /\ isField e = true.

(** The number of tree edges from the top document to a node: one for
    every step to a child node and one for every boundary crossed. *)
Definition nodeDepth (x : Ref) : nat :=
  list_sum (map (fun h => S (length (fst h))) (fst x)) + length (snd x).

(** The number of boundaries crossed on the way. *)
Definition crossings (x : Ref) : nat := length (fst x).

(** The scan without its [visited] set. *)
Fixpoint collectNode (node : Node) (depth : nat) (cp : CtxPath) (r : Root)
  (pathParts : list string) (loc : Loc) {struct node} : list Captured :=
  if (maxDepth cfg <? depth)%nat then []
  else
    match node with
    | Text _ => []
    | Element e childNodes shadow content =>
        (if isField e
         then [mkCaptured (cp, loc) (fieldInfoOf document r loc e pathParts)]
         else [])
        ++ match shadow with
           | Some sr =>
               if includeShadowDom cfg then
                 if (maxDepth cfg <? S depth)%nat then []
                 else
                   concatMapi
                     (fun i c => collectNode c (S (S depth)) (cp ++ [(loc, ShadowB)]) sr
                                             (pathParts ++ [uniqueSelector r loc]) [i])
                     0 sr
               else []
           | None => []
           end
        ++ (if iframeTraversal cfg && String.eqb (tag e) "iframe" then
              match content with
              | SameOrigin doc =>
                  if (maxDepth cfg <? S depth)%nat then []
                  else
                    concatMapi
                      (fun i c => collectNode c (S (S depth)) (cp ++ [(loc, FrameB)]) doc
                                              (pathParts ++ [uniqueSelector r loc]) [i])
                      0 doc
              | _ => []
              end
            else [])
        ++ concatMapi
             (fun i c => collectNode c (S depth) cp r pathParts (loc ++ [i]))
             0 childNodes
    end.

Definition collectRoot (depth : nat) (cp : CtxPath) (r : Root)
  (pathParts : list string) : list Captured :=
  if (maxDepth cfg <? depth)%nat then []
  else concatMapi (fun i c => collectNode c (S depth) cp r pathParts [i]) 0 r.

(** A field below a node, addressed from that node: the first position
    of the address starts at the node. *)
Definition resolveFrom (node : Node) (rr : Ref) : option ElemData :=
  match fst rr with
  | [] =>
      match sub node (snd rr) with
      | Some n => dataOf n
      | None => None
      end
  | (h, b) :: cpR =>
      match sub node h with
      | Some hn =>
          match crossing b hn with
          | Some r' =>
              match enabledRootAt r' cpR with
              | Some r'' => elemAt r'' (snd rr)
              | None => None
              end
          | None => None
          end
      | None => None
      end
  end.

(** The address of such a field from the top document. *)
Definition rebase (cp : CtxPath) (loc : Loc) (rr : Ref) : Ref :=
  match fst rr with
  | [] => (cp, loc ++ snd rr)
  | (h, b) :: cpR => (cp ++ (loc ++ h, b) :: cpR, snd rr)
  end.

(** What [collectNode] promises of one node. *)
Definition collectsBelow (node : Node) : Prop :=
  forall depth cp r pathParts loc x,
    (exists c, c ∈ collectNode node depth cp r pathParts loc /\ elementRef c = x)
    <-> (exists rr e, x = rebase cp loc rr /\ resolveFrom node rr = Some e
                      /\ isField e = true
                      /\ depth + nodeDepth rr <= maxDepth cfg).

(** The same of the nodes of a root. *)
Lemma collects_root (r : Root) :
  Forall collectsBelow r ->
  forall depth cp pathParts x,
    (exists c, c ∈ concatMapi (fun i c => collectNode c (S depth) cp r pathParts [i]) 0 r
               /\ elementRef c = x)
    <-> (exists cpR locR r' e,
            x = (cp ++ cpR, locR) /\ enabledRootAt r cpR = Some r'
            /\ elemAt r' locR = Some e /\ isField e = true
            /\ depth + nodeDepth (cpR, locR) <= maxDepth cfg).
Proof.
  intros HF depth cp pathParts x. split.
  - intros (c & Hc & Hx). apply elem_of_concatMapi in Hc.
    destruct Hc as (j & n & Hj & Hc). simpl in Hc.
    pose proof (proj1 (Forall_lookup _ _) HF j n Hj) as Hn.
    destruct (proj1 (Hn (S depth) cp r pathParts [j] x)) as (rr & e & Hrr & Hres & Hf & Hd);
      [eauto|].
    destruct rr as [[|[h b] cpR] locR]; unfold rebase, resolveFrom in *; simpl in *.
    + exists [], (j :: locR), r, e. rewrite app_nil_r.
      repeat split; try assumption.
      * unfold elemAt. rewrite nodeAt_cons, Hj. destruct (sub n locR); assumption.
      * unfold nodeDepth in *. simpl in *. lia.
    + destruct (sub n h) as [hn|] eqn:Hh; [|discriminate].
      destruct (crossing b hn) as [r1|] eqn:Hcr; [|discriminate].
      destruct (enabledRootAt r1 cpR) as [r2|] eqn:Hen; [|discriminate].
      exists ((j :: h, b) :: cpR), locR, r2, e.
      repeat split; try assumption.
      * cbn [enabledRootAt]. rewrite nodeAt_cons, Hj, Hh, Hcr. exact Hen.
      * unfold nodeDepth in *. simpl in *. lia.
  - intros (cpR & locR & r' & e & Hx & Hen & He & Hf & Hd).
    destruct cpR as [|[h b] cpR].
    + simpl in Hen. injection Hen as <-.
      destruct locR as [|j rel]; [discriminate|].
      unfold elemAt in He. rewrite nodeAt_cons in He.
      destruct (r !! j) as [n|] eqn:Hj; [|discriminate].
      pose proof (proj1 (Forall_lookup _ _) HF j n Hj) as Hn.
      destruct (proj2 (Hn (S depth) cp r pathParts [j] x)) as (c & Hc & Hcx).
      * exists ([], rel), e. unfold rebase, resolveFrom. simpl.
        rewrite app_nil_r in Hx. repeat split; try assumption.
        unfold nodeDepth in *. simpl in *. lia.
      * exists c. split; [|exact Hcx]. apply elem_of_concatMapi. exists j, n. auto.
    + simpl in Hen. destruct h as [|j h]; [discriminate|].
      rewrite nodeAt_cons in Hen.
      destruct (r !! j) as [n|] eqn:Hj; [|discriminate].
      pose proof (proj1 (Forall_lookup _ _) HF j n Hj) as Hn.
      destruct (proj2 (Hn (S depth) cp r pathParts [j] x)) as (c & Hc & Hcx).
      * exists ((h, b) :: cpR, locR), e. unfold rebase, resolveFrom. simpl.
        destruct (sub n h) as [hn|]; [|discriminate].
        destruct (crossing b hn) as [r1|]; [|discriminate].
        rewrite Hen. repeat split; try assumption.
        unfold nodeDepth in *. simpl in *. lia.
      * exists c. split; [|exact Hcx]. apply elem_of_concatMapi. exists j, n. auto.
Qed.

Lemma collects_children (ch : list Node) :
  Forall collectsBelow ch ->
  forall depth cp r pathParts loc x,
    (exists c, c ∈ concatMapi
                     (fun i c => collectNode c (S depth) cp r pathParts (loc ++ [i])) 0 ch
               /\ elementRef c = x)
    <-> (exists j n rr e,
            ch !! j = Some n /\ x = rebase cp (loc ++ [j]) rr
            /\ resolveFrom n rr = Some e /\ isField e = true
            /\ S depth + nodeDepth rr <= maxDepth cfg).
Proof.
  intros HF depth cp r pathParts loc x. split.
  - intros (c & Hc & Hx). apply elem_of_concatMapi in Hc.
    destruct Hc as (j & n & Hj & Hc). simpl in Hc.
    pose proof (proj1 (Forall_lookup _ _) HF j n Hj) as Hn.
    destruct (proj1 (Hn (S depth) cp r pathParts (loc ++ [j]) x))
      as (rr & e & Hrr & Hres & Hf & Hd); [eauto|].
    exists j, n, rr, e. auto.
  - intros (j & n & rr & e & Hj & Hx & Hres & Hf & Hd).
    pose proof (proj1 (Forall_lookup _ _) HF j n Hj) as Hn.
    destruct (proj2 (Hn (S depth) cp r pathParts (loc ++ [j]) x)) as (c & Hc & Hcx);
      [exists rr, e; auto|].
    exists c. split; [|exact Hcx]. apply elem_of_concatMapi. exists j, n. auto.
Qed.

Lemma collects_every_node : forall node, collectsBelow node.
Proof.
  apply Node_nested_ind.
  - intros d depth cp r pathParts loc x. cbn [collectNode].
    split.
    + intros (c & Hc & _). destruct (maxDepth cfg <? depth)%nat; inversion Hc.
    + intros (rr & e & _ & Hres & _). unfold resolveFrom in Hres.
      destruct rr as [[|[h b] cpR] locR]; simpl in Hres.
      * destruct locR; simpl in Hres; discriminate.
      * destruct h; simpl in Hres; discriminate.
  - intros e ch sr fc Hch Hsr Hfc depth cp r pathParts loc x.
    cbn [collectNode].
    destruct (Nat.ltb_spec (maxDepth cfg) depth) as [Hdeep|Hok].
    { split.
      - intros (c & Hc & _). inversion Hc.
      - intros (rr & e' & _ & _ & _ & Hd). lia. }
    split.
    + intros (c & Hc & Hx).
      rewrite !elem_of_app in Hc. destruct Hc as [Hc|[Hc|[Hc|Hc]]].
      * destruct (isField e) eqn:Hf; [|inversion Hc].
        apply list_elem_of_singleton in Hc. subst c. simpl in Hx. subst x.
        exists ([], []), e. unfold rebase, resolveFrom, nodeDepth. simpl.
        rewrite app_nil_r. repeat split; try assumption; lia.
      * destruct sr as [s|]; [|inversion Hc].
        destruct (includeShadowDom cfg) eqn:Hinc; [|inversion Hc].
        destruct (Nat.ltb_spec (maxDepth cfg) (S depth)) as [Hdeep|Hok']; [inversion Hc|].
        destruct (proj1 (collects_root s Hsr (S depth) (cp ++ [(loc, ShadowB)])
                           (pathParts ++ [uniqueSelector r loc]) x))
          as (cpR & locR & r' & e' & Hx' & Hen & He & Hf & Hd); [eauto|].
        exists (([], ShadowB) :: cpR, locR), e'.
        unfold rebase, resolveFrom, nodeDepth in *. simpl in *.
        rewrite Hinc, Hen, app_nil_r, <- app_assoc in *. simpl in *.
        repeat split; try assumption; lia.
      * destruct (iframeTraversal cfg && String.eqb (tag e) "iframe") eqn:Hif;
          [|inversion Hc].
        destruct fc as [| |d]; try (inversion Hc; fail).
        destruct (Nat.ltb_spec (maxDepth cfg) (S depth)) as [Hdeep|Hok']; [inversion Hc|].
        destruct (proj1 (collects_root d Hfc (S depth) (cp ++ [(loc, FrameB)])
                           (pathParts ++ [uniqueSelector r loc]) x))
          as (cpR & locR & r' & e' & Hx' & Hen & He & Hf & Hd); [eauto|].
        exists (([], FrameB) :: cpR, locR), e'.
        unfold rebase, resolveFrom, nodeDepth in *. simpl in *.
        rewrite Hif, Hen, app_nil_r, <- app_assoc in *. simpl in *.
        repeat split; try assumption; lia.
      * destruct (proj1 (collects_children ch Hch depth cp r pathParts loc x))
          as (j & n & rr & e' & Hj & Hx' & Hres & Hf & Hd); [eauto|].
        destruct rr as [[|[h b] cpR] locR]; unfold rebase, resolveFrom in *; simpl in *.
        -- exists ([], j :: locR), e'. simpl. rewrite Hj, <- app_assoc in *.
           unfold nodeDepth in *. simpl in *. repeat split; try assumption; lia.
        -- exists ((j :: h, b) :: cpR, locR), e'. simpl. rewrite Hj, <- app_assoc in *.
           unfold nodeDepth in *. simpl in *. repeat split; try assumption; lia.
    + intros (rr & e' & Hx & Hres & Hf & Hd).
      destruct rr as [[|[h b] cpR] locR]; unfold rebase, resolveFrom in *; simpl in *.
      * destruct locR as [|j rel]; simpl in *.
        -- injection Hres as <-. rewrite app_nil_r in Hx.
           exists (mkCaptured (cp, loc) (fieldInfoOf document r loc e pathParts)).
           split; [|symmetry; exact Hx].
           rewrite Hf. apply elem_of_app. left. apply list_elem_of_singleton. reflexivity.
        -- destruct (ch !! j) as [n|] eqn:Hj; [|discriminate].
           destruct (proj2 (collects_children ch Hch depth cp r pathParts loc x))
             as (c & Hc & Hcx).
           ++ exists j, n, ([], rel), e'. unfold rebase, resolveFrom. simpl.
              rewrite <- app_assoc. unfold nodeDepth in *. simpl in *.
              repeat split; try assumption; lia.
           ++ exists c. split; [|exact Hcx]. rewrite !elem_of_app. auto.
      * destruct h as [|j h]; simpl in *.
        -- destruct b.
           ++ destruct (includeShadowDom cfg) eqn:Hinc; [|discriminate].
              destruct sr as [s|]; [|discriminate].
              destruct (enabledRootAt s cpR) as [r'|] eqn:Hen; [|discriminate].
              destruct (proj2 (collects_root s Hsr (S depth) (cp ++ [(loc, ShadowB)])
                                 (pathParts ++ [uniqueSelector r loc]) x))
                as (c & Hc & Hcx).
              ** exists cpR, locR, r', e'. rewrite app_nil_r in Hx.
                 rewrite <- app_assoc. unfold nodeDepth in *. simpl in *.
                 repeat split; try assumption; lia.
              ** exists c. split; [|exact Hcx]. rewrite !elem_of_app. right. left.
                 destruct (Nat.ltb_spec (maxDepth cfg) (S depth)) as [Hdeep|Hok'];
                   [unfold nodeDepth in Hd; simpl in Hd; lia|exact Hc].
           ++ destruct (iframeTraversal cfg && String.eqb (tag e) "iframe") eqn:Hif;
                [|discriminate].
              destruct fc as [| |d]; try discriminate.
              destruct (enabledRootAt d cpR) as [r'|] eqn:Hen; [|discriminate].
              destruct (proj2 (collects_root d Hfc (S depth) (cp ++ [(loc, FrameB)])
                                 (pathParts ++ [uniqueSelector r loc]) x))
                as (c & Hc & Hcx).
              ** exists cpR, locR, r', e'. rewrite app_nil_r in Hx.
                 rewrite <- app_assoc. unfold nodeDepth in *. simpl in *.
                 repeat split; try assumption; lia.
              ** exists c. split; [|exact Hcx]. rewrite !elem_of_app. right. right. left.
                 destruct (Nat.ltb_spec (maxDepth cfg) (S depth)) as [Hdeep|Hok'];
                   [unfold nodeDepth in Hd; simpl in Hd; lia|exact Hc].
        -- destruct (ch !! j) as [n|] eqn:Hj; [|discriminate].
           destruct (proj2 (collects_children ch Hch depth cp r pathParts loc x))
             as (c & Hc & Hcx).
           ++ exists j, n, ((h, b) :: cpR, locR), e'. unfold rebase, resolveFrom. simpl.
              rewrite <- app_assoc. unfold nodeDepth in *. simpl in *.
              repeat split; try assumption; lia.
           ++ exists c. split; [|exact Hcx]. rewrite !elem_of_app. auto.
Qed.

(** *** The [visited] set never stops the scan of a tree *)

(** No visited node lies at or below [key]. *)
Definition fresh (key : NodeKey) (vis : list NodeKey) : Prop :=
  forall k, k ∈ vis -> ~ key `prefix_of` k.

(** Every node of [vis] lies at or below [key]. *)
Definition under (key : NodeKey) (vis : list NodeKey) : Prop :=
  forall k, k ∈ vis -> key `prefix_of` k.

(** [st'] is [st] with nodes below [key] visited and [res] appended. *)
Definition extends (st st' : ScanState) (key : NodeKey) (res : list Captured) : Prop :=
  exists V, st' = mkScan (visited st ++ V) (results st ++ res) /\ under key V.

Lemma extends_refl st key : extends st st key [].
Proof.
  exists []. split; [destruct st; simpl; rewrite !app_nil_r; reflexivity|].
  intros k Hk. inversion Hk.
Qed.

Lemma extends_trans st st1 st2 key key1 key2 res1 res2 :
  key `prefix_of` key1 -> key `prefix_of` key2 ->
  extends st st1 key1 res1 -> extends st1 st2 key2 res2 ->
  extends st st2 key (res1 ++ res2).
Proof.
  intros H1 H2 (V1 & -> & HV1) (V2 & -> & HV2). simpl.
  exists (V1 ++ V2). split; [rewrite !app_assoc; reflexivity|].
  intros k Hk. apply elem_of_app in Hk. destruct Hk as [Hk|Hk].
  - etransitivity; [exact H1|apply HV1; exact Hk].
  - etransitivity; [exact H2|apply HV2; exact Hk].
Qed.

Lemma fresh_below key key' vis :
  fresh key vis -> key `prefix_of` key' -> fresh key' vis.
Proof.
  intros Hf Hp k Hk Hpk. apply (Hf k Hk). etransitivity; eassumption.
Qed.

Lemma step_not_prefix (key : NodeKey) (a : Step) : ~ (key ++ [a]) `prefix_of` key.
Proof.
  intros Hp. apply prefix_length in Hp. rewrite length_app in Hp. simpl in Hp. lia.
Qed.

Lemma steps_apart (key k : NodeKey) (a b : Step) :
  (key ++ [a]) `prefix_of` k -> (key ++ [b]) `prefix_of` k -> a = b.
Proof.
  intros [x Hx] [y Hy]. rewrite Hx, <- !app_assoc in Hy.
  apply app_inv_head in Hy. simpl in Hy. congruence.
Qed.

Lemma fresh_app key v1 v2 : fresh key v1 -> fresh key v2 -> fresh key (v1 ++ v2).
Proof.
  intros H1 H2 k Hk. apply elem_of_app in Hk. destruct Hk; auto.
Qed.

Lemma fresh_sibling key a b V :
  a <> b -> under (key ++ [a]) V -> fresh (key ++ [b]) V.
Proof.
  intros Hab HV k Hk Hp. apply Hab. eapply steps_apart; [apply HV; exact Hk|exact Hp].
Qed.

Lemma fresh_parent (key : NodeKey) (a : Step) : fresh (key ++ [a]) [key].
Proof.
  intros k Hk Hp. apply list_elem_of_singleton in Hk. subst k.
  exact (step_not_prefix key a Hp).
Qed.

Lemma keyOf_child cp loc i : keyOf cp (loc ++ [i]) = keyOf cp loc ++ [ChildStep i].
Proof. unfold keyOf. rewrite map_app, app_assoc. reflexivity. Qed.

Lemma keyOf_boundary cp loc b :
  keyOf (cp ++ [(loc, b)]) [] = keyOf cp loc ++ [boundaryStep b].
Proof.
  unfold keyOf. rewrite flat_map_app. simpl. rewrite !app_nil_r, app_assoc. reflexivity.
Qed.

Lemma keyOf_first cp i : keyOf cp [i] = keyOf cp [] ++ [ChildStep i].
Proof. apply (keyOf_child cp [] i). Qed.

(** The loop over the child nodes, when every child is scanned as
    [collect] says. *)
Lemma forEachChild_extends (visit : nat -> Node -> ScanState -> ScanState)
  (collect : nat -> Node -> list Captured) (key : NodeKey) (l : list Node) :
  forall i0,
    (forall j n, l !! j = Some n ->
       forall st, fresh (key ++ [ChildStep (i0 + j)]) (visited st) ->
                  extends st (visit (i0 + j) n st) (key ++ [ChildStep (i0 + j)])
                          (collect (i0 + j) n)) ->
    forall st,
      (forall j, i0 <= j -> fresh (key ++ [ChildStep j]) (visited st)) ->
      extends st (forEachChild visit i0 l st) key (concatMapi collect i0 l).
Proof.
  induction l as [|n l IH]; intros i0 Hvisit st Hfresh; simpl.
  - apply extends_refl.
  - pose proof (Hvisit 0 n eq_refl st) as H0. rewrite Nat.add_0_r in H0.
    specialize (H0 (Hfresh i0 (Nat.le_refl i0))).
    eapply extends_trans; [| |exact H0|].
    + apply prefix_app_r. reflexivity.
    + reflexivity.
    + apply IH.
      * intros j m Hj st' Hst'. specialize (Hvisit (S j) m Hj st').
        rewrite Nat.add_succ_r in Hvisit. apply Hvisit. exact Hst'.
      * intros j Hj. destruct H0 as (V & -> & HV). simpl.
        apply fresh_app; [apply Hfresh; lia|].
        eapply fresh_sibling; [|exact HV]. intros [= ->]. lia.
Qed.

(** What [traverse] promises of one node. *)
Definition traversesLike (node : Node) : Prop :=
  forall depth cp r pathParts loc st,
    fresh (keyOf cp loc) (visited st) ->
    extends st (traverse cfg document node depth cp r pathParts loc st)
            (keyOf cp loc) (collectNode node depth cp r pathParts loc).

Lemma enter_fresh depth key st :
  fresh key (visited st) ->
  enter cfg depth key st =
  if (maxDepth cfg <? depth)%nat then None
  else Some (mkScan (visited st ++ [key]) (results st)).
Proof.
  intros Hf. unfold enter.
  destruct (maxDepth cfg <? depth)%nat; [reflexivity|]. simpl.
  case_bool_decide as Hin; [|reflexivity].
  exfalso. apply (Hf key Hin). reflexivity.
Qed.

(** The same of a document or shadow root. *)
Lemma traverses_root (r : Root) :
  Forall traversesLike r ->
  forall depth cp pathParts st,
    fresh (keyOf cp []) (visited st) ->
    extends st
      (match enter cfg depth (keyOf cp []) st with
       | None => st
       | Some st' =>
           forEachChild (fun i c => traverse cfg document c (S depth) cp r pathParts [i])
                        0 r st'
       end)
      (keyOf cp [])
      (if (maxDepth cfg <? depth)%nat then []
       else concatMapi (fun i c => collectNode c (S depth) cp r pathParts [i]) 0 r).
Proof.
  intros HF depth cp pathParts st Hfresh.
  rewrite (enter_fresh depth _ st Hfresh).
  destruct (maxDepth cfg <? depth)%nat; [apply extends_refl|].
  set (st1 := mkScan (visited st ++ [keyOf cp []]) (results st)).
  assert (H1 : extends st st1 (keyOf cp []) []).
  { exists [keyOf cp []]. split; [unfold st1; rewrite app_nil_r; reflexivity|].
    intros k Hk. apply list_elem_of_singleton in Hk. subst k. reflexivity. }
  change (concatMapi _ 0 r) with
    ([] ++ concatMapi (fun i c => collectNode c (S depth) cp r pathParts [i]) 0 r).
  eapply extends_trans; [| |exact H1|]; [reflexivity|reflexivity|].
  apply forEachChild_extends.
  - intros j n Hj st' Hst'. simpl. rewrite <- keyOf_first.
    apply (proj1 (Forall_lookup _ _) HF j n Hj). rewrite keyOf_first. exact Hst'.
  - intros j _. unfold st1. simpl. apply fresh_app.
    + eapply fresh_below; [exact Hfresh|]. apply prefix_app_r. reflexivity.
    + apply fresh_parent.
Qed.

(** The three stages of [traverse] on an element before its child nodes:
    the field itself, its shadow root, its embedded document. *)
Definition selfStage (e : ElemData) (cp : CtxPath) (r : Root) (pathParts : list string)
  (loc : Loc) (st : ScanState) : ScanState :=
  if isField e
  then mkScan (visited st)
              (results st ++ [mkCaptured (cp, loc) (fieldInfoOf document r loc e pathParts)])
  else st.

Definition boundaryStage (b : Boundary) (inner : option Root) (depth : nat)
  (cp : CtxPath) (r : Root) (pathParts : list string) (loc : Loc) (st : ScanState)
  : ScanState :=
  match inner with
  | Some sr =>
      match enter cfg (S depth) (keyOf (cp ++ [(loc, b)]) []) st with
      | None => st
      | Some st' =>
          forEachChild
            (fun i c => traverse cfg document c (S (S depth)) (cp ++ [(loc, b)]) sr
                                 (pathParts ++ [uniqueSelector r loc]) [i])
            0 sr st'
      end
  | None => st
  end.

Definition boundaryFields (b : Boundary) (inner : option Root) (depth : nat)
  (cp : CtxPath) (r : Root) (pathParts : list string) (loc : Loc) : list Captured :=
  match inner with
  | Some sr =>
      if (maxDepth cfg <? S depth)%nat then []
      else concatMapi
             (fun i c => collectNode c (S (S depth)) (cp ++ [(loc, b)]) sr
                                     (pathParts ++ [uniqueSelector r loc]) [i])
             0 sr
  | None => []
  end.

Lemma traverse_element e ch sr fc depth cp r pathParts loc st :
  traverse cfg document (Element e ch sr fc) depth cp r pathParts loc st =
  match enter cfg depth (keyOf cp loc) st with
  | None => st
  | Some st1 =>
      forEachChild
        (fun i c => traverse cfg document c (S depth) cp r pathParts (loc ++ [i])) 0 ch
        (boundaryStage FrameB (crossing FrameB (Element e ch sr fc)) depth cp r pathParts loc
           (boundaryStage ShadowB (crossing ShadowB (Element e ch sr fc)) depth cp r
              pathParts loc
              (selfStage e cp r pathParts loc st1)))
  end.
Proof.
  cbn [traverse]. destruct (enter cfg depth (keyOf cp loc) st) as [st1|]; [|reflexivity].
  unfold boundaryStage, selfStage, crossing.
  destruct sr as [s|]; destruct (includeShadowDom cfg);
    destruct (iframeTraversal cfg && String.eqb (tag e) "iframe");
    destruct fc; reflexivity.
Qed.

Lemma collectNode_element e ch sr fc depth cp r pathParts loc :
  collectNode (Element e ch sr fc) depth cp r pathParts loc =
  if (maxDepth cfg <? depth)%nat then []
  else
    (if isField e
     then [mkCaptured (cp, loc) (fieldInfoOf document r loc e pathParts)] else [])
    ++ boundaryFields ShadowB (crossing ShadowB (Element e ch sr fc)) depth cp r pathParts loc
    ++ boundaryFields FrameB (crossing FrameB (Element e ch sr fc)) depth cp r pathParts loc
    ++ concatMapi (fun i c => collectNode c (S depth) cp r pathParts (loc ++ [i])) 0 ch.
Proof.
  cbn [collectNode]. destruct (maxDepth cfg <? depth)%nat; [reflexivity|].
  unfold boundaryFields, crossing.
  destruct sr as [s|]; destruct (includeShadowDom cfg);
    destruct (iframeTraversal cfg && String.eqb (tag e) "iframe");
    destruct fc; reflexivity.
Qed.

Lemma boundaryStage_extends b inner depth cp r pathParts loc st :
  Forall traversesLike (default [] inner) ->
  fresh (keyOf cp loc ++ [boundaryStep b]) (visited st) ->
  extends st (boundaryStage b inner depth cp r pathParts loc st)
          (keyOf cp loc ++ [boundaryStep b])
          (boundaryFields b inner depth cp r pathParts loc).
Proof.
  intros HF Hfresh. unfold boundaryStage, boundaryFields.
  destruct inner as [sr|]; [|apply extends_refl].
  rewrite <- keyOf_boundary. apply traverses_root; [exact HF|].
  rewrite keyOf_boundary. exact Hfresh.
Qed.

Lemma fresh_extends st st' key' res k :
  extends st st' key' res -> fresh k (visited st) ->
  (forall x, key' `prefix_of` x -> ~ k `prefix_of` x) ->
  fresh k (visited st').
Proof.
  intros (V & -> & HV) Hf Hapart. simpl. apply fresh_app; [exact Hf|].
  intros x Hx. apply Hapart. apply HV. exact Hx.
Qed.

Lemma crossing_inner_shadow e ch sr fc :
  Forall traversesLike (default [] sr) ->
  Forall traversesLike (default [] (crossing ShadowB (Element e ch sr fc))).
Proof.
  intros H. simpl. destruct (includeShadowDom cfg); [exact H|constructor].
Qed.

Lemma crossing_inner_frame e ch sr fc :
  Forall traversesLike (default [] (contentDocumentOf (Element e ch sr fc))) ->
  Forall traversesLike (default [] (crossing FrameB (Element e ch sr fc))).
Proof.
  intros H. simpl.
  destruct (iframeTraversal cfg && String.eqb (tag e) "iframe"); [|constructor].
  destruct fc; simpl in *; try constructor. exact H.
Qed.

Lemma traverses_every_node : forall node, traversesLike node.
Proof.
  apply Node_nested_ind.
  - intros d depth cp r pathParts loc st Hfresh.
    cbn [traverse collectNode]. rewrite (enter_fresh depth _ st Hfresh).
    destruct (maxDepth cfg <? depth)%nat; [apply extends_refl|].
    exists [keyOf cp loc]. split; [rewrite app_nil_r; reflexivity|].
    intros k Hk. apply list_elem_of_singleton in Hk. subst k. reflexivity.
  - intros e ch sr fc Hch Hsr Hfc depth cp r pathParts loc st Hfresh.
    rewrite traverse_element, collectNode_element, (enter_fresh depth _ st Hfresh).
    destruct (maxDepth cfg <? depth)%nat; [apply extends_refl|].
    set (key := keyOf cp loc) in *.
    set (st1 := mkScan (visited st ++ [key]) (results st)).
    set (st2 := selfStage e cp r pathParts loc st1).
    assert (Hv2 : visited st2 = visited st ++ [key]).
    { unfold st2, selfStage. destruct (isField e); reflexivity. }
    assert (E2 : extends st st2 key
                   (if isField e
                    then [mkCaptured (cp, loc) (fieldInfoOf document r loc e pathParts)]
                    else [])).
    { exists [key]. split.
      - unfold st2, selfStage, st1. destruct (isField e); simpl;
          rewrite ?app_nil_r; reflexivity.
      - intros k Hk. apply list_elem_of_singleton in Hk. subst k. reflexivity. }
    assert (F2 : forall a, fresh (key ++ [a]) (visited st2)).
    { intros a. rewrite Hv2. apply fresh_app; [|apply fresh_parent].
      eapply fresh_below; [exact Hfresh|]. apply prefix_app_r. reflexivity. }
    set (st3 := boundaryStage ShadowB _ depth cp r pathParts loc st2).
    assert (E3 : extends st2 st3 (key ++ [ShadowStep])
                   (boundaryFields ShadowB (crossing ShadowB (Element e ch sr fc))
                                   depth cp r pathParts loc)).
    { apply (boundaryStage_extends ShadowB); [apply crossing_inner_shadow; exact Hsr|].
      apply (F2 ShadowStep). }
    assert (F3 : forall a, a <> ShadowStep -> fresh (key ++ [a]) (visited st3)).
    { intros a Ha. eapply fresh_extends; [exact E3|apply F2|].
      intros x H1 H2. apply Ha. symmetry. eapply steps_apart; eassumption. }
    set (st4 := boundaryStage FrameB _ depth cp r pathParts loc st3).
    assert (E4 : extends st3 st4 (key ++ [FrameStep])
                   (boundaryFields FrameB (crossing FrameB (Element e ch sr fc))
                                   depth cp r pathParts loc)).
    { apply (boundaryStage_extends FrameB); [apply crossing_inner_frame; exact Hfc|].
      apply F3. discriminate. }
    assert (F4 : forall j, fresh (key ++ [ChildStep j]) (visited st4)).
    { intros j. eapply fresh_extends; [exact E4|apply F3; discriminate|].
      intros x H1 H2. pose proof (steps_apart _ _ _ _ H1 H2). discriminate. }
    assert (E5 : extends st4
                   (forEachChild
                      (fun i c => traverse cfg document c (S depth) cp r pathParts (loc ++ [i]))
                      0 ch st4)
                   key
                   (concatMapi (fun i c => collectNode c (S depth) cp r pathParts (loc ++ [i]))
                               0 ch)).
    { apply forEachChild_extends.
      - intros j n Hj st' Hst'. simpl. unfold key. rewrite <- keyOf_child.
        apply (proj1 (Forall_lookup _ _) Hch j n Hj). rewrite keyOf_child. exact Hst'.
      - intros j _. apply F4. }
    eapply extends_trans; [| |exact E2|]; [reflexivity|reflexivity|].
    eapply extends_trans; [| |exact E3|]; [apply prefix_app_r; reflexivity|reflexivity|].
    eapply extends_trans; [| |exact E4|exact E5];
      [apply prefix_app_r; reflexivity|reflexivity].
Qed.

(** The fields of a scan are the fields within the depth bound. *)
Lemma scan_results_spec (x : Ref) :
  x ∈ map elementRef (results (traverseRoot cfg document 0 [] document [] (mkScan [] [])))
  <-> scannable x /\ nodeDepth x <= maxDepth cfg.
Proof.
  unfold traverseRoot.
  destruct (traverses_root document
              (proj2 (Forall_forall _ _) (fun n _ => traverses_every_node n))
              0 [] [] (mkScan [] [])) as (V & -> & _).
  { intros k Hk. inversion Hk. }
  cbn [results app]. replace (maxDepth cfg <? 0)%nat with false
    by (symmetry; apply Nat.ltb_ge; lia).
  rewrite list_elem_of_In, in_map_iff.
  pose proof (collects_root document
                (proj2 (Forall_forall _ _) (fun n _ => collects_every_node n))
                0 [] [] x) as Hroot.
  split.
  - intros (c & Hx & Hc). apply list_elem_of_In in Hc.
    destruct (proj1 Hroot) as (cpR & locR & r' & e & -> & Hen & He & Hf & Hd); [eauto|].
    simpl in *. split; [exists r', e; auto|exact Hd].
  - intros [(r' & e & Hen & He & Hf) Hd].
    destruct (proj2 Hroot) as (c & Hc & Hx).
    + exists (fst x), (snd x), r', e. destruct x; simpl in *. auto.
    + exists c. split; [exact Hx|apply list_elem_of_In; exact Hc].
Qed.

(** A chain of crossings that the scan may follow leads to the root that
    the chain denotes in the page. *)
Lemma enabledRootAt_rootAt (cp : CtxPath) : forall r r',
  enabledRootAt r cp = Some r' -> rootAt r cp = Some r'.
Proof.
  induction cp as [|[h b] cp IH]; intros r r' H; simpl in *; [exact H|].
  destruct (nodeAt r h) as [[e ch sr fc|d]|]; try discriminate.
  destruct b; simpl in *.
  - destruct (includeShadowDom cfg); [|discriminate].
    destruct sr as [s|]; [|discriminate]. apply IH. exact H.
  - destruct (iframeTraversal cfg && String.eqb (tag e) "iframe"); [|discriminate].
    destruct fc as [| |doc]; try discriminate. apply IH. exact H.
Qed.

(** What the scan captures is an element of the page, and a field. *)
Lemma scannable_elemOf (x : Ref) :
  scannable x -> exists e, elemOf document x = Some e /\ isField e = true.
Proof.
  intros (r & e & Hr & He & Hf). exists e. split; [|exact Hf].
  unfold elemOf. rewrite (enabledRootAt_rootAt _ _ _ Hr). exact He.
Qed.

(** Every field has a positive depth: it is below the document node. *)
Lemma scannable_depth_positive (x : Ref) : scannable x -> 1 <= nodeDepth x.
Proof.
  intros (r & e & _ & He & _). unfold nodeDepth.
  destruct (snd x) as [|i l]; [discriminate|]. simpl. lia.
Qed.

End DepthFacts.




(* ===================================================================== *)
(** ** Label lookup                                                       *)
(* ===================================================================== *)

Section LabelFacts.

Import Samples.











(** *** Rule 2 *)

Lemma ancestors_snoc (a : Loc) (i : nat) :
  ancestors (a ++ [i]) = match a with [] => [] | _ :: _ => a :: ancestors a end.
Proof.
  unfold ancestors. rewrite rev_app_distr. simpl.
  destruct a as [|x a]; [reflexivity|].
  destruct (rev (x :: a)) as [|y l] eqn:E.
  - apply (f_equal (@length nat)) in E. rewrite length_rev in E. discriminate.
  - rewrite <- E, rev_involutive. reflexivity.
Qed.

(** The ancestors are the proper prefixes of the position that are
    elements, ... *)
Lemma ancestors_spec (loc x : Loc) :
  x ∈ ancestors loc <-> x <> [] /\ exists rest, rest <> [] /\ loc = x ++ rest.
Proof.
  induction loc as [|i a IH] using rev_ind.
  - split; [intros H; inversion H|].
    intros (_ & rest & Hr & H). destruct x, rest; try discriminate; contradiction.
  - rewrite ancestors_snoc. destruct a as [|y a].
    + split; [intros H; inversion H|].
      intros (Hx & rest & Hr & H). destruct x as [|z x]; [contradiction|].
      simpl in H. injection H as _ H. destruct x, rest; try discriminate; contradiction.
    + rewrite elem_of_cons, IH. split.
      * intros [->|(Hx & rest & Hr & ->)].
        -- split; [discriminate|]. exists [i]. split; [discriminate|reflexivity].
        -- split; [exact Hx|]. exists (rest ++ [i]). split.
           ++ destruct rest; discriminate.
           ++ rewrite app_assoc. reflexivity.
      * intros (Hx & rest & Hr & H).
        destruct rest as [|z rest] using rev_ind; [contradiction|]. clear IHrest.
        rewrite app_assoc in H. apply app_inj_tail in H. destruct H as [H _].
        destruct rest as [|w rest].
        -- left. rewrite app_nil_r in H. congruence.
        -- right. split; [exact Hx|]. exists (w :: rest). split; [discriminate|exact H].
Qed.

(** ... the nearest first. *)
Lemma ancestors_nearest_first (loc : Loc) :
  forall pre a post x,
    ancestors loc = pre ++ a :: post -> x ∈ post -> (length x < length a)%nat.
Proof.
  induction loc as [|i b IH] using rev_ind; intros pre a post x Hl Hx.
  - destruct pre; discriminate.
  - rewrite ancestors_snoc in Hl. destruct b as [|y b]; [destruct pre; discriminate|].
    destruct pre as [|p pre]; simpl in Hl.
    + injection Hl as <- <-. apply ancestors_spec in Hx.
      destruct Hx as (_ & rest & Hr & ->). rewrite length_app.
      destruct rest; [contradiction|simpl; lia].
    + injection Hl as _ Hl. eapply IH; eassumption.
Qed.








(** *** Rule 3 *)







(** *** The two label functions *)












End LabelFacts.

Section MappingUseFacts.

Import MappingEngine MappingUse.





Lemma keys_not_reduced (mapping : gmap string string) :
  (size (list_to_set (map_to_list mapping).*1 : gset string)
   =? length (map_to_list mapping).*1)%nat = true.
Proof. apply Nat.eqb_eq, size_list_to_set, NoDup_fst_map_to_list. Qed.

Lemma validateMapping_nonblank (mapping : gmap string string) :
  (forall s c, mapping !! s = Some c -> isBlank s = false /\ isBlank c = false) ->
  validateMapping mapping = true.
Proof.
  intros Hall. unfold validateMapping. rewrite keys_not_reduced.
  destruct (length _ =? 0)%nat; [reflexivity|].
  destruct (existsb isBlank (map_to_list mapping).*1) eqn:Hsel.
  - exfalso. apply existsb_exists in Hsel. destruct Hsel as (s & Hin & Hb).
    apply list_elem_of_In, list_elem_of_fmap in Hin.
    destruct Hin as ([s' c] & -> & Hin). apply elem_of_map_to_list in Hin.
    destruct (Hall _ _ Hin) as [H _]. simpl in Hb. congruence.
  - destruct (existsb isBlank (map_to_list mapping).*2) eqn:Hcol; [|reflexivity].
    exfalso. apply existsb_exists in Hcol. destruct Hcol as (c & Hin & Hb).
    apply list_elem_of_In, list_elem_of_fmap in Hin.
    destruct Hin as ([s c'] & -> & Hin). apply elem_of_map_to_list in Hin.
    destruct (Hall _ _ Hin) as [_ H]. simpl in Hb. congruence.
Qed.

Lemma validateMapping_entry (mapping : gmap string string) (s c : string) :
  validateMapping mapping = true -> mapping !! s = Some c ->
  isBlank s = false /\ isBlank c = false.
Proof.
  unfold validateMapping. intros Hv Hs. apply elem_of_map_to_list in Hs.
  destruct (Nat.eqb_spec (length (map_to_list mapping).*1) 0) as [Hlen|Hlen].
  - rewrite length_fmap in Hlen. apply nil_length_inv in Hlen.
    rewrite Hlen in Hs. inversion Hs.
  - destruct (existsb isBlank (map_to_list mapping).*1) eqn:Hsel; [discriminate|].
    destruct (existsb isBlank (map_to_list mapping).*2) eqn:Hcol; [discriminate|].
    split.
    + destruct (isBlank s) eqn:Hb; [|reflexivity].
      assert (existsb isBlank (map_to_list mapping).*1 = true); [|congruence].
      apply existsb_exists. exists s. split; [|exact Hb].
      apply list_elem_of_In, list_elem_of_fmap. exists (s, c). auto.
    + destruct (isBlank c) eqn:Hb; [|reflexivity].
      assert (existsb isBlank (map_to_list mapping).*2 = true); [|congruence].
      apply existsb_exists. exists c. split; [|exact Hb].
      apply list_elem_of_In, list_elem_of_fmap. exists (s, c). auto.
Qed.

(** X2. [validateMapping] accepts exactly the mappings without a blank
    selector or column; its test for repeated selectors never fails, the
    keys of an object being distinct. *)
Theorem validateMapping_spec (mapping : gmap string string) :
  validateMapping mapping = true
  <-> forall s c, mapping !! s = Some c -> isBlank s = false /\ isBlank c = false.
Proof.
  split.
  - intros Hv s c Hs. exact (validateMapping_entry mapping s c Hv Hs).
  - apply validateMapping_nonblank.
Qed.

(** X3. A mapping generated from fields and columns that are not blank passes
    [validateMapping]. *)
Theorem generateMapping_validates (inp : Inputs) :
  length (in_fields inp) = length (in_columns inp) ->
  Forall (fun f => isBlank (selector f) = false) (in_fields inp) ->
  Forall (fun c => isBlank c = false) (in_columns inp) ->
  exists m, fst (generateMapping inp) = Ok m /\ validateMapping m = true.
Proof.
  intros Hlen Hf Hc. unfold generateMapping.
  rewrite Hlen, Nat.eqb_refl. simpl.
  destruct (generateMapping_loop inp (length (in_columns inp))) as (m & Hm & Hinv);
    [lia|lia|].
  exists m. split; [exact Hm|]. apply validateMapping_nonblank. intros s c Hs.
  destruct (Hinv s) as [[Hnone _]|(j & f & c' & _ & Hfj & Hcj & <- & Hl & _)];
    [congruence|].
  assert (c' = c) by congruence. subst c'. split.
  - apply (proj1 (Forall_lookup _ _) Hf j f Hfj).
  - apply (proj1 (Forall_lookup _ _) Hc j c Hcj).
Qed.



Lemma generateMapping_validates_witness :
  exists m, fst (generateMapping sampleInputs) = Ok m /\ validateMapping m = true.
Proof.
  apply (generateMapping_validates sampleInputs).
  - reflexivity.
  - repeat constructor.
  - repeat constructor.
Defined.


End MappingUseFacts.

(* ===================================================================== *)
(** ** mappingengine.ts: tokens and scores                                *)
(* ===================================================================== *)

Section ScoreFacts.

Import MappingEngine MappingUse.

(** The characters of a token. *)
Definition isTokenChar (c : ascii) : bool :=
  isLower c || isDigit c || Ascii.eqb c "-".

Lemma kept_lower_tokenChar (c : ascii) :
  keptByTokenize c = true -> isSpace (toLowerChar c) = false ->
  isTokenChar (toLowerChar c) = true.
Proof.
  destruct c as [[] [] [] [] [] [] [] []]; vm_compute; intros H1 H2; congruence.
Qed.

Lemma space_lower_space (c : ascii) : isSpace c = true -> isSpace (toLowerChar c) = true.
Proof.
  destruct c as [[] [] [] [] [] [] [] []]; vm_compute; intros H; congruence.
Qed.

(** The pieces of [split(/\s+/)] are made of the characters of the string
    that are not white space. *)
Lemma splitSpaces_go_pieces (Q : ascii -> Prop) (s : list ascii) :
  forall cur inrun p,
    p ∈ splitSpaces_go cur inrun s ->
    Forall Q cur ->
    (forall c, c ∈ s -> isSpace c = false -> Q c) ->
    Forall Q p.
Proof.
  induction s as [|c s IH]; intros cur inrun p Hp Hcur Hs; simpl in Hp.
  - apply list_elem_of_singleton in Hp. subst p. apply Forall_rev. exact Hcur.
  - assert (Hs' : forall d, d ∈ s -> isSpace d = false -> Q d)
      by (intros d Hd; apply Hs; right; exact Hd).
    destruct (isSpace c) eqn:Hc.
    + destruct inrun.
      * eapply IH; eassumption.
      * apply elem_of_cons in Hp. destruct Hp as [->|Hp].
        -- apply Forall_rev. exact Hcur.
        -- eapply IH; [exact Hp|constructor|exact Hs'].
    + eapply IH; [exact Hp| |exact Hs'].
      constructor; [apply Hs; [left|exact Hc]|exact Hcur].
Qed.

Lemma tokenize_input (s : string) (c : ascii) :
  c ∈ toLowerCase (filter (fun c => keptByTokenize c = true) (chars s)) ->
  exists c0, c0 ∈ chars s /\ keptByTokenize c0 = true /\ c = toLowerChar c0.
Proof.
  unfold toLowerCase. intros H. apply list_elem_of_In, in_map_iff in H.
  destruct H as (c0 & <- & H). apply list_elem_of_In, list_elem_of_filter in H.
  destruct H as [Hk Hin]. exists c0. auto.
Qed.

Lemma chars_str (l : list ascii) : chars (str l) = l.
Proof. apply list_ascii_of_string_of_list_ascii. Qed.

Lemma tokenize_elem (s t : string) :
  t ∈ tokenize s ->
  exists p, t = str p /\ truthy p = true
            /\ p ∈ splitSpaces (toLowerCase (filter (fun c => keptByTokenize c = true)
                                                    (chars s))).
Proof.
  unfold tokenize. intros H. apply list_elem_of_In, in_map_iff in H.
  destruct H as (p & <- & H). apply list_elem_of_In, list_elem_of_filter in H.
  destruct H as [Ht Hin]. exists p. auto.
Qed.

(** X5. Every token is a non-empty word of lower-case letters, digits and
    hyphens. *)
Theorem tokenize_tokens (s t : string) :
  t ∈ tokenize s ->
  t <> "" /\ Forall (fun c => isTokenChar c = true) (chars t).
Proof.
  intros H. destruct (tokenize_elem s t H) as (p & -> & Ht & Hin). split.
  - destruct p; [discriminate|]. simpl. discriminate.
  - rewrite chars_str.
    apply (splitSpaces_go_pieces _ _ [] false p Hin); [constructor|].
    intros c Hc Hsp. destruct (tokenize_input s c Hc) as (c0 & _ & Hk & ->).
    apply kept_lower_tokenChar; assumption.
Qed.

Lemma trimStart_nil_blank (s : list ascii) : trimStart s = [] -> forallb isSpace s = true.
Proof.
  induction s as [|c s IH]; simpl; [reflexivity|].
  destruct (isSpace c); [exact IH|discriminate].
Qed.

Lemma trim_nil_blank (s : list ascii) : trim s = [] -> forallb isSpace s = true.
Proof.
  unfold trim. intros H.
  assert (H1 : trimStart (rev (trimStart s)) = []).
  { destruct (trimStart (rev (trimStart s))) as [|a l]; [reflexivity|].
    apply (f_equal (@length ascii)) in H. rewrite length_rev in H. discriminate. }
  apply trimStart_nil_blank in H1.
  assert (H2 : forallb isSpace (trimStart s) = true).
  { apply forallb_forall. intros x Hx. apply (proj1 (forallb_forall _ _) H1).
    apply in_rev in Hx. exact Hx. }
  destruct (trimStart_suffix s) as (p & Hs & Hp). rewrite Hs, forallb_app.
  rewrite H2. unfold blank in Hp. rewrite Hp. reflexivity.
Qed.

(** A blank string has no token. *)
Lemma tokenize_blank (s : string) : isBlank s = true -> tokenize s = [].
Proof.
  unfold isBlank. intros Hb. apply negb_true_iff in Hb.
  assert (Htrim : trim (chars s) = []) by (destruct (trim (chars s)); [reflexivity|discriminate]).
  pose proof (trim_nil_blank _ Htrim) as Hall.
  destruct (tokenize s) as [|t l] eqn:E; [reflexivity|].
  exfalso. assert (Ht : t ∈ tokenize s) by (rewrite E; left).
  destruct (tokenize_elem s t Ht) as (p & -> & Htr & Hin).
  assert (HF : Forall (fun _ => False) p).
  { apply (splitSpaces_go_pieces _ _ [] false p Hin); [constructor|].
    intros c Hc Hsp. destruct (tokenize_input s c Hc) as (c0 & Hc0 & _ & ->).
    rewrite space_lower_space in Hsp; [discriminate|].
    apply (proj1 (forallb_forall _ _) Hall). apply list_elem_of_In. exact Hc0. }
  destruct p; [discriminate|]. inversion HF. assumption.
Qed.

(** *** [jaccard] *)

Lemma jaccard_common (a b : gset string) : filter (fun x => x ∈ b) a = a ∩ b.
Proof. apply set_eq. intros x. rewrite elem_of_filter, elem_of_intersection. tauto. Qed.

Lemma jaccard_value (a b : gset string) :
  jaccard a b =
  if (size (a ∪ b) =? 0)%nat then 0%Q
  else Qmake (Z.of_nat (size (a ∩ b))) (Pos.of_nat (size (a ∪ b))).
Proof. unfold jaccard. rewrite jaccard_common. reflexivity. Qed.

(** A positive score means a common token. *)
Lemma jaccard_pos_common (a b : gset string) :
  (0 < jaccard a b)%Q -> exists x, x ∈ a /\ x ∈ b.
Proof.
  rewrite jaccard_value. destruct (size (a ∪ b) =? 0)%nat.
  - intros H. inversion H.
  - unfold Qlt. simpl. intros H.
    destruct (size (a ∩ b)) eqn:Hs; [simpl in H; lia|].
    assert (Hne : a ∩ b ≠ ∅).
    { intros He. rewrite He, size_empty in Hs. discriminate. }
    apply set_choose_L in Hne. destruct Hne as [x Hx].
    apply elem_of_intersection in Hx. eauto.
Qed.

Lemma Zpos_of_nat (n : nat) : n <> 0 -> Z.pos (Pos.of_nat n) = Z.of_nat n.
Proof. intros H. rewrite <- positive_nat_Z, Nat2Pos.id by exact H. reflexivity. Qed.

(** X6. The score of two token sets lies between 0 and 1, does not depend on
    their order, is 1 for a non-empty set and itself, and is 0 exactly
    when the sets share no token. *)
Theorem jaccard_properties (a b : gset string) :
  (0 <= jaccard a b)%Q /\ (jaccard a b <= 1)%Q
  /\ jaccard a b = jaccard b a
  /\ (a <> ∅ -> (jaccard a a == 1)%Q)
  /\ ((jaccard a b == 0)%Q <-> a ∩ b = ∅).
Proof.
  rewrite !jaccard_value.
  assert (Hsub : size (a ∩ b) <= size (a ∪ b)).
  { apply subseteq_size. intros x Hx. apply elem_of_intersection in Hx.
    apply elem_of_union. tauto. }
  repeat split.
  - destruct (size (a ∪ b) =? 0)%nat; [discriminate|].
    unfold Qle. simpl. lia.
  - destruct (Nat.eqb_spec (size (a ∪ b)) 0) as [|Hne]; [discriminate|].
    unfold Qle. simpl. rewrite Z.mul_1_r, Zpos_of_nat by exact Hne. lia.
  - rewrite (union_comm_L b a), (intersection_comm_L b a). reflexivity.
  - intros Hne. rewrite union_idemp_L, intersection_idemp_L.
    destruct (Nat.eqb_spec (size a) 0) as [H0|H0].
    + apply size_empty_inv in H0. exfalso. apply Hne. apply leibniz_equiv. exact H0.
    + unfold Qeq. simpl. rewrite Z.mul_1_r, Zpos_of_nat by exact H0. lia.
  - destruct (Nat.eqb_spec (size (a ∪ b)) 0) as [H0|H0].
    + intros _. apply size_empty_inv in H0. apply leibniz_equiv in H0.
      apply set_eq. intros x. rewrite elem_of_intersection.
      split; [|intros H; inversion H].
      intros [Hx _]. assert (Hu : x ∈ a ∪ b) by (apply elem_of_union; auto).
      rewrite H0 in Hu. exact Hu.
    + unfold Qeq. simpl. rewrite Z.mul_1_r. intros H.
      assert (Hs : size (a ∩ b) = 0) by lia.
      apply size_empty_inv in Hs. apply leibniz_equiv. exact Hs.
  - intros He. rewrite He, size_empty.
    destruct (size (a ∪ b) =? 0)%nat; reflexivity.
Qed.

Lemma tokenize_tokens_witness :
  "e-mail" ∈ tokenize "Your E-mail:" /\ "e-mail" <> ""
  /\ Forall (fun c => isTokenChar c = true) (chars "e-mail").
Proof.
  assert (H : "e-mail" ∈ tokenize "Your E-mail:")
    by (apply list_elem_of_In; vm_compute; auto).
  split; [exact H|]. exact (tokenize_tokens _ _ H).
Defined.

Lemma jaccard_properties_witness :
  ({["first"]} : gset string) <> ∅
  /\ (jaccard {["first"]} {["first"]} == 1)%Q
  /\ (jaccard {["first"]} {["first"; "name"]} <= 1)%Q.
Proof.
  assert (Hne : ({["first"]} : gset string) <> ∅).
  { intros H. apply (f_equal size) in H. vm_compute in H. discriminate. }
  split; [exact Hne|]. split.
  - exact (proj1 (proj2 (proj2 (proj2 (jaccard_properties {["first"]} {["first"]})))) Hne).
  - exact (proj1 (proj2 (jaccard_properties {["first"]} {["first"; "name"]}))).
Defined.

End ScoreFacts.

(* ===================================================================== *)
(** ** mappingengine.ts: what [autoMap] chooses                           *)
(* ===================================================================== *)

Section AutoMapFacts.

Import MappingEngine MappingUse.











Lemma tokenSet_common_text (text h : string) :
  (0 < jaccard (tokenSet text) (tokenSet h))%Q ->
  exists t, t ∈ tokenize text /\ t ∈ tokenize h.
Proof.
  intros H. destruct (jaccard_pos_common _ _ H) as (t & Ha & Hb).
  unfold tokenSet in Ha, Hb. rewrite elem_of_list_to_set in Ha, Hb. eauto.
Qed.

Lemma tokens_text_truthy (text t : string) :
  t ∈ tokenize text -> truthy (chars text) = true /\ isBlank text = false.
Proof.
  intros Ht. split.
  - destruct text; [|reflexivity]. inversion Ht.
  - destruct (isBlank text) eqn:Hb; [|reflexivity].
    rewrite (tokenize_blank _ Hb) in Ht. inversion Ht.
Qed.


(** X8. A header that [autoMap] assigns shares a token with the label-or-name
    text of a field with that selector; so neither is blank. *)
Theorem autoMap_shares_token (fields : list FieldInfo) (headers : list string)
    (s h : string) :
  autoMap fields headers !! s = Some h ->
  exists f t, f ∈ fields /\ selector f = s
              /\ t ∈ tokenize (fieldText f) /\ t ∈ tokenize h
              /\ isBlank (fieldText f) = false /\ isBlank h = false.
Proof.
  unfold autoMap. intros Hl.
  destruct (autoMap_fields_inv fields headers fields (mkAuto ∅ ∅)) as [Hval _].
  - auto.
  - split; simpl; intros *; rewrite lookup_empty; discriminate.
  - destruct (Hval s h Hl) as (_ & _ & f & Hf & Hs & Hscore).
    destruct (tokenSet_common_text (fieldText f) h) as (t & Ht & Hth).
    { eapply Qlt_le_trans; [|exact Hscore]. reflexivity. }
    exists f, t. repeat split; try assumption.
    + apply (tokens_text_truthy _ t Ht).
    + apply (tokens_text_truthy _ t Hth).
Qed.

(** X9. A mapping made by [autoMap] from fields whose selectors are not blank
    passes [validateMapping]. *)
Theorem autoMap_validates (fields : list FieldInfo) (headers : list string) :
  Forall (fun f => isBlank (selector f) = false) fields ->
  validateMapping (autoMap fields headers) = true.
Proof.
  intros Hsel. apply validateMapping_nonblank. intros s h Hl.
  unfold autoMap in Hl.
  destruct (autoMap_fields_inv fields headers fields (mkAuto ∅ ∅)) as [Hval _].
  - auto.
  - split; simpl; intros *; rewrite lookup_empty; discriminate.
  - destruct (Hval s h Hl) as (_ & _ & f & Hf & Hs & Hscore).
    split.
    + rewrite <- Hs. exact (proj1 (Forall_forall _ _) Hsel f Hf).
    + destruct (tokenSet_common_text (fieldText f) h) as (t & _ & Hth).
      { eapply Qlt_le_trans; [|exact Hscore]. reflexivity. }
      apply (tokens_text_truthy _ t Hth).
Qed.


Lemma autoMap_shares_token_witness :
  autoMap (in_fields sampleInputs) (in_columns sampleInputs) !! "#first" = Some "First"
  /\ exists f t, f ∈ in_fields sampleInputs /\ selector f = "#first"
                 /\ t ∈ tokenize (fieldText f) /\ t ∈ tokenize "First"
                 /\ isBlank (fieldText f) = false /\ isBlank "First" = false.
Proof.
  assert (Hl : autoMap (in_fields sampleInputs) (in_columns sampleInputs) !! "#first"
               = Some "First") by (vm_compute; reflexivity).
  split; [exact Hl|]. exact (autoMap_shares_token _ _ _ _ Hl).
Defined.

Lemma autoMap_validates_witness :
  validateMapping (autoMap (in_fields sampleInputs) (in_columns sampleInputs)) = true.
Proof.
  apply autoMap_validates. repeat constructor.
Defined.

End AutoMapFacts.

(* ===================================================================== *)
(** ** The change monitor under any series of mutations                   *)
(* ===================================================================== *)

Section MonitorInvariant.

Import ChangeMonitor.

Variable scanTime : Z.







End MonitorInvariant.


(* ===================================================================== *)
(** ** What the options of [scanDOM] rule out                             *)
(* ===================================================================== *)

Section ScanOptionFacts.

Import Samples ContentScript.

Variable cfg : Config.

(** The crossings of a chain that the scan may follow are allowed by the
    options, and each starts at an element. *)
Lemma enabledRootAt_allowed (cp : CtxPath) : forall r r',
  enabledRootAt cfg r cp = Some r' ->
  forall h b, (h, b) ∈ cp ->
    h <> []
    /\ (b = ShadowB -> includeShadowDom cfg = true)
    /\ (b = FrameB -> iframeTraversal cfg = true).
Proof.
  induction cp as [|[h0 b0] cp IH]; intros r r' Hr h b Hin.
  - inversion Hin.
  - simpl in Hr.
    destruct (nodeAt r h0) as [n|] eqn:Hn; [|discriminate].
    destruct (crossing cfg b0 n) as [r1|] eqn:Hc; [|discriminate].
    apply elem_of_cons in Hin. destruct Hin as [Heq|Hin].
    + injection Heq as -> ->. split; [|split].
      * intros ->. discriminate.
      * intros ->. destruct n as [e ch sr fc|d]; [|discriminate].
        simpl in Hc. destruct (includeShadowDom cfg); [reflexivity|discriminate].
      * intros ->. destruct n as [e ch sr fc|d]; [|discriminate].
        simpl in Hc. destruct (iframeTraversal cfg); [reflexivity|discriminate].
    + eapply IH; eassumption.
Qed.

Lemma crossings_cost (cp : CtxPath) :
  (forall h b, (h, b) ∈ cp -> h <> []) ->
  2 * length cp <= list_sum (map (fun h => S (length (fst h))) cp).
Proof.
  induction cp as [|[h b] cp IH]; intros Hne; simpl; [lia|].
  assert (h <> []) by (apply (Hne h b); left).
  assert (2 * length cp <= list_sum (map (fun h => S (length (fst h))) cp)).
  { apply IH. intros h' b' Hin. apply (Hne h' b'). right. exact Hin. }
  destruct h; [contradiction|]. simpl. lia.
Qed.

End ScanOptionFacts.

(** X11. Every entry of a scan is a field of the page.  With
    [includeShadowDom: false] none lies in a shadow root, with
    [iframeTraversal: false] none lies in a frame, and a field behind [k]
    boundaries is found only if [maxDepth] is at least [2k+1]: with the
    default options, behind at most three. *)
Theorem scan_respects_options (document : Root) (options : ContentScript.ScanOptions)
    (x : Ref) :
  x ∈ map ContentScript.elementRef (ContentScript.scanDOM document options) ->
  (exists e, elemOf document x = Some e /\ ContentScript.isField e = true)
  /\ (forall h, (h, ShadowB) ∈ fst x ->
                ContentScript.includeShadowDom (ContentScript.mergeOptions options) = true)
  /\ (forall h, (h, FrameB) ∈ fst x ->
                ContentScript.iframeTraversal (ContentScript.mergeOptions options) = true)
  /\ 2 * crossings x + 1 <= ContentScript.maxDepth (ContentScript.mergeOptions options)
  /\ (ContentScript.opt_maxDepth options = None -> crossings x <= 3).
Proof.
  intros Hx.
  apply (scan_results_spec (ContentScript.mergeOptions options) document) in Hx.
  destruct Hx as [Hs Hd].
  pose proof (scannable_elemOf _ _ _ Hs) as He.
  pose proof (scannable_depth_positive _ _ _ Hs) as Hpos.
  destruct Hs as (r & e & Hr & Hel & Hf).
  pose proof (enabledRootAt_allowed _ _ _ _ Hr) as Hall.
  assert (Hcost : 2 * crossings x + 1 <= nodeDepth x).
  { unfold crossings, nodeDepth.
    pose proof (crossings_cost (fst x) (fun h b Hin => proj1 (Hall h b Hin))).
    destruct (snd x) as [|i l]; [discriminate|]. simpl length. lia. }
  split; [exact He|]. split; [|split; [|split]].
  - intros h Hin. apply (Hall h ShadowB Hin). reflexivity.
  - intros h Hin. apply (Hall h FrameB Hin). reflexivity.
  - lia.
  - intros Hdef. unfold ContentScript.mergeOptions in Hd. rewrite Hdef in Hd.
    simpl in Hd. lia.
Qed.

Lemma scan_respects_options_witness :
  (exists e, elemOf Samples.emailShadowPage ([([0; 1; 0], ShadowB)], [0]) = Some e
             /\ ContentScript.isField e = true)
  /\ crossings ([([0; 1; 0], ShadowB)], [0]) <= 3.
Proof.
  destruct (scan_respects_options Samples.emailShadowPage ContentScript.noOptions
              ([([0; 1; 0], ShadowB)], [0])) as (He & _ & _ & _ & Hc).
  - apply list_elem_of_In. vm_compute. auto.
  - split; [exact He|]. apply Hc. reflexivity.
Defined.

(* ===================================================================== *)
(** ** Deep selectors are split back into their parts                     *)
(* ===================================================================== *)

Section DeepSelectorFacts.

Import ContentScript.

Definition gt : ascii := ">".

(** [>>>] occurs in [p]. *)
Definition hasDelimiter (p : list ascii) : Prop :=
  exists a b, p = a ++ gt :: gt :: gt :: b.

(** A part that the split gives back as it is: not empty, no white space
    at either end, no [>>>] inside. *)
Definition plainPart (p : list ascii) : Prop :=
  p <> [] /\ trim p = p /\ ~ hasDelimiter p.

(** The characters of [" >>> "]. *)
Definition delimiter : list ascii := [space; gt; gt; gt; space].

(** [parts.join(' >>> ')] on characters *)
Fixpoint joinDeep (parts : list (list ascii)) : list ascii :=
  match parts with
  | [] => []
  | [p] => p
  | p :: rest => p ++ delimiter ++ joinDeep rest
  end.

Lemma chars_append (a b : string) : chars (a +:+ b) = chars a ++ chars b.
Proof. induction a as [|c a IH]; simpl; [reflexivity|]. f_equal. exact IH. Qed.

Lemma chars_concat (l : list string) :
  chars (String.concat " >>> " l) = joinDeep (map chars l).
Proof.
  induction l as [|p [|q l] IH]; [reflexivity|reflexivity|].
  change (String.concat " >>> " (p :: q :: l))
    with (p +:+ " >>> " +:+ String.concat " >>> " (q :: l)).
  rewrite !chars_append, IH. reflexivity.
Qed.

Lemma joinDeep_snoc (l : list (list ascii)) (p : list ascii) :
  l <> [] -> joinDeep (l ++ [p]) = joinDeep l ++ delimiter ++ p.
Proof.
  induction l as [|a [|b l] IH]; intros Hne; [contradiction|reflexivity|].
  change (joinDeep ((a :: b :: l) ++ [p]))
    with (a ++ delimiter ++ joinDeep ((b :: l) ++ [p])).
  rewrite IH by discriminate.
  change (joinDeep (a :: b :: l)) with (a ++ delimiter ++ joinDeep (b :: l)).
  rewrite <- !app_assoc. reflexivity.
Qed.

Lemma chars_deepSelectorOf (pathParts : list string) (selector : string) :
  chars (deepSelectorOf pathParts selector)
  = joinDeep (map chars (pathParts ++ [selector])).
Proof.
  unfold deepSelectorOf. destruct pathParts as [|p l]; [reflexivity|].
  cbn [length Nat.ltb Nat.leb].
  rewrite !chars_append, chars_concat, map_app.
  change (map chars [selector]) with [chars selector].
  rewrite joinDeep_snoc by discriminate. reflexivity.
Qed.

(** What may follow a part: nothing, or a delimiter. *)
Definition follows (x : list ascii) : Prop :=
  x = [] \/ exists x', x = space :: x'.

Lemma trimStart_app_nonblank (q x : list ascii) :
  trimStart q <> [] -> trimStart (q ++ x) = trimStart q ++ x.
Proof.
  induction q as [|c q IH]; simpl; intros H; [contradiction|].
  destruct (isSpace c); [apply IH; exact H|reflexivity].
Qed.

Lemma trimStart_is_suffix (q : list ascii) : exists a, q = a ++ trimStart q.
Proof. destruct (trimStart_suffix q) as (p & Hp & _). eauto. Qed.

(** The last character of a part is not white space. *)
Definition endsClean (q : list ascii) : Prop :=
  forall a c, q = a ++ [c] -> isSpace c = false.

Lemma endsClean_tail (c : ascii) (q : list ascii) : endsClean (c :: q) -> endsClean q.
Proof. intros H a d ->. apply (H (c :: a) d). reflexivity. Qed.

Lemma endsClean_trimStart (q : list ascii) : q <> [] -> endsClean q -> trimStart q <> [].
Proof.
  induction q as [|c q IH]; intros Hne He; [contradiction|]. simpl.
  destruct (isSpace c) eqn:Hc; [|discriminate].
  destruct q as [|d q].
  - rewrite (He [] c eq_refl) in Hc. discriminate.
  - apply IH; [discriminate|]. eapply endsClean_tail. exact He.
Qed.

Lemma hasDelimiter_tail (c : ascii) (q : list ascii) :
  hasDelimiter q -> hasDelimiter (c :: q).
Proof. intros (a & b & ->). exists (c :: a), b. reflexivity. Qed.

Lemma space_not_gt : Ascii.eqb space gt = false.
Proof. reflexivity. Qed.

(** No delimiter matches inside a part. *)
Lemma delimiterAt_inside (q x : list ascii) :
  q <> [] -> endsClean q -> ~ hasDelimiter q -> follows x ->
  delimiterAt (q ++ x) = None.
Proof.
  intros Hne He Hnd Hx. unfold delimiterAt.
  rewrite trimStart_app_nonblank by (apply endsClean_trimStart; assumption).
  destruct (trimStart_is_suffix q) as (a & Hq).
  pose proof (endsClean_trimStart q Hne He) as Hts.
  destruct (trimStart q) as [|c1 [|c2 [|c3 t]]] eqn:Et; [contradiction| | |].
  - destruct Hx as [->|(x' & ->)]; [reflexivity|]. simpl.
    destruct x' as [|c3 x']; [reflexivity|].
    change (Ascii.eqb space ">") with false. rewrite andb_false_r. reflexivity.
  - destruct Hx as [->|(x' & ->)]; [reflexivity|]. simpl.
    change (Ascii.eqb space ">") with false. rewrite andb_false_r. reflexivity.
  - simpl.
    destruct (Ascii.eqb_spec c1 ">") as [->|]; [|reflexivity].
    destruct (Ascii.eqb_spec c2 ">") as [->|]; [|reflexivity].
    destruct (Ascii.eqb_spec c3 ">") as [->|]; [|reflexivity].
    exfalso. apply Hnd. exists a, t. exact Hq.
Qed.

(** The split reads a part up to what follows it. *)
Lemma splitDeep_go_part (q : list ascii) : forall cur x,
  (q = [] \/ endsClean q) -> ~ hasDelimiter q -> follows x ->
  splitDeep_go 0 cur (q ++ x) = splitDeep_go 0 (rev q ++ cur) x.
Proof.
  induction q as [|c q IH]; intros cur x He Hnd Hx; [reflexivity|].
  destruct He as [He|He]; [discriminate|].
  change ((c :: q) ++ x) with (c :: (q ++ x)).
  cbn [splitDeep_go].
  change (c :: (q ++ x)) with ((c :: q) ++ x).
  rewrite delimiterAt_inside; [|discriminate|exact He|exact Hnd|exact Hx].
  rewrite IH; [|destruct q; [left; reflexivity|right; eapply endsClean_tail; exact He]
               |intros H; apply Hnd; apply hasDelimiter_tail; exact H|exact Hx].
  simpl. rewrite <- app_assoc. reflexivity.
Qed.

Lemma plainPart_endsClean (p : list ascii) : trim p = p -> endsClean p.
Proof.
  intros Ht a c ->. unfold trim in Ht.
  destruct (isSpace c) eqn:Hc; [|reflexivity]. exfalso.
  destruct (trimStart_is_suffix (a ++ [c])) as (b & Hb).
  set (t := trimStart (a ++ [c])) in *.
  assert (Hlen : length (rev (trimStart (rev t))) = length (a ++ [c])) by (rewrite Ht; reflexivity).
  rewrite length_rev in Hlen.
  destruct (trimStart_is_suffix (rev t)) as (b' & Hb').
  assert (Hl1 : length (rev t) = length b' + length (trimStart (rev t)))
    by (rewrite Hb' at 1; apply length_app).
  assert (Hl2 : length (a ++ [c]) = length b + length t)
    by (rewrite Hb at 1; apply length_app).
  rewrite length_rev in Hl1.
  assert (Hb0 : b = []) by (destruct b; [reflexivity|simpl in *; lia]).
  subst b. simpl in Hb. 
  assert (Hrt : trimStart (rev t) = rev t).
  { destruct b'; [exact (eq_sym Hb')|simpl in *; lia]. }
  rewrite <- Hb, rev_app_distr in Hrt. simpl in Hrt. rewrite Hc in Hrt.
  pose proof (trimStart_is_suffix (rev a)) as (b2 & Hb2).
  apply (f_equal (@length ascii)) in Hrt. apply (f_equal (@length ascii)) in Hb2.
  rewrite length_app in Hb2. simpl in Hrt. lia.
Qed.

Lemma plainPart_starts (p : list ascii) : p <> [] -> trim p = p -> trimStart p = p.
Proof.
  intros Hne Ht. destruct p as [|c p]; [contradiction|]. simpl.
  destruct (isSpace c) eqn:Hc; [|reflexivity]. exfalso.
  unfold trim in Ht. simpl in Ht. rewrite Hc in Ht.
  apply (f_equal (@length ascii)) in Ht. rewrite length_rev in Ht.
  destruct (trimStart_is_suffix (rev (trimStart p))) as (b & Hb).
  destruct (trimStart_is_suffix p) as (b' & Hb').
  apply (f_equal (@length ascii)) in Hb. apply (f_equal (@length ascii)) in Hb'.
  rewrite length_app in Hb, Hb'. rewrite length_rev in Hb. simpl in Ht. lia.
Qed.

(** The split of joined plain parts gives the parts. *)
Lemma splitDeep_go_join (parts : list (list ascii)) : forall p cur,
  Forall plainPart (p :: parts) ->
  splitDeep_go 0 cur (joinDeep (p :: parts)) = (rev cur ++ p) :: parts.
Proof.
  induction parts as [|q parts IH]; intros p cur HF.
  - simpl. inversion HF as [|? ? (Hne & Ht & Hnd) _]; subst.
    rewrite <- (app_nil_r p) at 1.
    rewrite splitDeep_go_part;
      [|right; apply plainPart_endsClean; exact Ht|exact Hnd|left; reflexivity].
    simpl. rewrite rev_app_distr, rev_involutive. reflexivity.
  - inversion HF as [|? ? (Hne & Ht & Hnd) HF']; subst.
    change (joinDeep (p :: q :: parts)) with (p ++ delimiter ++ joinDeep (q :: parts)).
    rewrite splitDeep_go_part;
      [|right; apply plainPart_endsClean; exact Ht|exact Hnd
       |right; eexists; reflexivity].
    assert (Hq : exists c t, joinDeep (q :: parts) = c :: t /\ isSpace c = false).
    { inversion HF' as [|? ? (Hqne & Hqt & _) _]; subst.
      pose proof (plainPart_starts q Hqne Hqt) as Hs.
      destruct q as [|c t]; [contradiction|].
      simpl in Hs. destruct (isSpace c) eqn:Hc.
      - exfalso. destruct (trimStart_is_suffix t) as (b & Hb).
        apply (f_equal (@length ascii)) in Hs. apply (f_equal (@length ascii)) in Hb.
        rewrite length_app in Hb. simpl in Hs. lia.
      - destruct parts; simpl; eauto. }
    destruct Hq as (c & t & Hj & Hc).
    assert (Hd : delimiterAt (delimiter ++ joinDeep (q :: parts)) = Some 5).
    { rewrite Hj. unfold delimiterAt. simpl. rewrite Hc. simpl.
      f_equal. lia. }
    change (delimiter ++ joinDeep (q :: parts))
      with (space :: gt :: gt :: gt :: space :: joinDeep (q :: parts)) in *.
    cbn [splitDeep_go]. rewrite Hd. cbn [Nat.sub splitDeep_go].
    rewrite (IH q [] HF'). simpl.
    rewrite rev_app_distr, rev_involutive. reflexivity.
Qed.

Lemma str_chars (s : string) : str (chars s) = s.
Proof. apply string_of_list_ascii_of_string. Qed.

Definition plain (s : string) : Prop := plainPart (chars s).

(** Joined plain parts are split, trimmed and filtered into the parts. *)
Lemma deepParts_join (l : list string) (deepSelector : string) :
  l <> [] -> Forall plain l ->
  chars deepSelector = joinDeep (map chars l) ->
  deepParts deepSelector = l.
Proof.
  intros Hne HF Hchars. unfold deepParts. rewrite Hchars.
  assert (HF' : Forall plainPart (map chars l)).
  { apply Forall_forall. intros p Hp. apply list_elem_of_In, in_map_iff in Hp.
    destruct Hp as (s & <- & Hs). apply list_elem_of_In in Hs.
    exact (proj1 (Forall_forall _ _) HF s Hs). }
  destruct (map chars l) as [|p ps] eqn:El.
  { destruct l; [contradiction|discriminate]. }
  rewrite (splitDeep_go_join ps p [] HF'). simpl app. rewrite <- El.
  clear El HF' Hne Hchars. induction l as [|s l IH]; [reflexivity|].
  inversion HF as [|? ? (Hne & Ht & _) HF']; subst.
  assert (Htr : truthy (chars s) = true)
    by (destruct (chars s); [contradiction|reflexivity]).
  cbn [map List.filter]. rewrite Ht, Htr. cbn [map].
  rewrite str_chars. f_equal. apply IH. exact HF'.
Qed.

(** X12. The deep selector that [scanDOM] writes for a field is split by
    [queryDeepAll] into the path parts and the selector again, if each of
    them is non-empty, has no white space at its ends and does not
    contain [>>>]. *)
Theorem deepParts_of_deepSelector (pathParts : list string) (selector : string) :
  Forall plain (pathParts ++ [selector]) ->
  deepParts (deepSelectorOf pathParts selector) = pathParts ++ [selector].
Proof.
  intros HF. apply deepParts_join.
  - destruct pathParts; discriminate.
  - exact HF.
  - apply chars_deepSelectorOf.
Qed.

Lemma deepParts_of_deepSelector_witness :
  deepParts (deepSelectorOf ["body > x-host"; "#frame"] "input.big:nth-of-type(2)")
  = ["body > x-host"; "#frame"; "input.big:nth-of-type(2)"].
Proof.
  apply deepParts_of_deepSelector.
  repeat constructor; try discriminate;
    intros (a & b & H); vm_compute in H;
    repeat (destruct a as [|? a]; [discriminate|injection H as _ H]);
    destruct a; discriminate.
Defined.

End DeepSelectorFacts.

(* ===================================================================== *)
(** ** [cssEscape] writes identifiers that read back                      *)
(* ===================================================================== *)

Section EscapeFacts.

(** The tests of [cssEscape] on one code unit. *)
Definition isControl (c : ascii) : bool :=
  let n := nat_of_ascii c in
  ((1 <=? n)%nat && (n <=? 31)%nat) || (n =? 127)%nat.

Definition isSafe (c : ascii) : bool :=
  (128 <=? nat_of_ascii c)%nat || Ascii.eqb c hyphen || Ascii.eqb c underscore
  || isDigit c || isUpper c || isLower c.

(** What [cssEscape] writes for the code unit [c] at [index]. *)
Definition escapeOf (len : nat) (first : ascii) (index : nat) (c : ascii) : list ascii :=
  if (nat_of_ascii c =? 0)%nat
  then [ascii_of_nat 239; ascii_of_nat 191; ascii_of_nat 189]
  else if isControl c
          || ((index =? 0)%nat && isDigit c)
          || ((index =? 1)%nat && isDigit c && Ascii.eqb first hyphen)
  then backslash :: toHex (nat_of_ascii c) ++ [space]
  else if (index =? 0)%nat && Ascii.eqb c hyphen && (len =? 1)%nat
  then [backslash; c]
  else if isSafe c then [c]
  else [backslash; c].

Lemma cssEscape_go_cons len first index c s :
  cssEscape_go len first index (c :: s)
  = escapeOf len first index c ++ cssEscape_go len first (S index) s.
Proof.
  unfold escapeOf, isControl, isSafe. cbn [cssEscape_go].
  destruct (nat_of_ascii c =? 0)%nat; [reflexivity|].
  destruct (_ || _ || _ || _); [cbn [app]; rewrite <- app_assoc; reflexivity|].
  destruct (_ && _ && _); [reflexivity|].
  destruct (_ || _ || _ || _ || _ || _); reflexivity.
Qed.

Definition nonNull (c : ascii) : Prop := nat_of_ascii c <> 0.

(** What may follow an identifier. *)
Definition endsName (rest : list ascii) : Prop :=
  match rest with
  | [] => True
  | d :: _ => isNameChar d = false /\ d <> backslash
  end.

Definition notHexStart (rest : list ascii) : Prop :=
  match rest with
  | [] => True
  | d :: _ => isHex d = false
  end.

(** The digits written by [toString(16)] and their value. *)
Definition hexDigitsOk (c : ascii) : bool :=
  match toHex (nat_of_ascii c) with
  | [h] => isHex h && negb (isNewline h) && (hexValue h =? nat_of_ascii c)%nat
  | [h1; h2] =>
      isHex h1 && negb (isNewline h1) && isHex h2
      && (16 * hexValue h1 + hexValue h2 =? nat_of_ascii c)%nat
  | _ => false
  end.

Lemma toHex_ok (c : ascii) : hexDigitsOk c = true.
Proof. destruct c as [[] [] [] [] [] [] [] []]; vm_compute; reflexivity. Qed.

Lemma hexRun_stop k acc rest : notHexStart rest -> hexRun k acc rest = (acc, rest).
Proof.
  intros H. destruct k; [reflexivity|]. destruct rest as [|d t]; [reflexivity|].
  simpl in H. cbn [hexRun]. rewrite H. reflexivity.
Qed.

Lemma hexRun_step k acc h s :
  isHex h = true -> hexRun (S k) acc (h :: s) = hexRun k (16 * acc + hexValue h) s.
Proof. intros H. cbn [hexRun]. rewrite H. reflexivity. Qed.

Lemma hexRun_toHex (c : ascii) (rest : list ascii) :
  notHexStart rest ->
  hexRun 6 0 (toHex (nat_of_ascii c) ++ rest) = (nat_of_ascii c, rest).
Proof.
  intros H. pose proof (toHex_ok c) as Hok. unfold hexDigitsOk in Hok.
  destruct (toHex (nat_of_ascii c)) as [|h1 [|h2 [|h3 t]]]; try discriminate.
  - apply andb_true_iff in Hok. destruct Hok as [Hok Hv].
    apply andb_true_iff in Hok. destruct Hok as [Hh _].
    apply Nat.eqb_eq in Hv.
    cbn [app]. rewrite hexRun_step, hexRun_stop by assumption.
    f_equal. lia.
  - apply andb_true_iff in Hok. destruct Hok as [Hok Hv].
    apply andb_true_iff in Hok. destruct Hok as [Hok Hh2].
    apply andb_true_iff in Hok. destruct Hok as [Hh1 _].
    apply Nat.eqb_eq in Hv.
    cbn [app]. rewrite !hexRun_step, hexRun_stop by assumption.
    f_equal. lia.
Qed.

Lemma toHex_head (c : ascii) :
  exists h t, toHex (nat_of_ascii c) = h :: t /\ isHex h = true /\ isNewline h = false.
Proof.
  pose proof (toHex_ok c) as Hok. unfold hexDigitsOk in Hok.
  destruct (toHex (nat_of_ascii c)) as [|h1 [|h2 [|h3 t]]]; try discriminate.
  - apply andb_true_iff in Hok. destruct Hok as [Hok _].
    apply andb_true_iff in Hok. destruct Hok as [Hh Hn].
    apply negb_true_iff in Hn. eauto.
  - apply andb_true_iff in Hok. destruct Hok as [Hok _].
    apply andb_true_iff in Hok. destruct Hok as [Hok _].
    apply andb_true_iff in Hok. destruct Hok as [Hh Hn].
    apply negb_true_iff in Hn. eauto.
Qed.

Lemma safe_nameChar (c : ascii) : isSafe c = isNameChar c.
Proof. destruct c as [[] [] [] [] [] [] [] []]; vm_compute; reflexivity. Qed.

Lemma unsafe_not_hex (c : ascii) : isSafe c = false -> isHex c = false.
Proof. destruct c as [[] [] [] [] [] [] [] []]; vm_compute; congruence. Qed.

Lemma plain_not_newline (c : ascii) :
  nonNull c -> isControl c = false -> isNewline c = false.
Proof.
  unfold nonNull.
  destruct c as [[] [] [] [] [] [] [] []]; vm_compute; intros H1 H2; congruence.
Qed.

Lemma safe_start (c : ascii) :
  isSafe c = true -> isDigit c = false -> isNameStart c || Ascii.eqb c hyphen = true.
Proof. destruct c as [[] [] [] [] [] [] [] []]; vm_compute; congruence. Qed.

Lemma readEscape_hex (c : ascii) (rest : list ascii) :
  readEscape (toHex (nat_of_ascii c) ++ space :: rest) = Some (c, rest).
Proof.
  pose proof (hexRun_toHex c (space :: rest) eq_refl) as Hrun.
  destruct (toHex_head c) as (h & t & Ht & Hh & _).
  rewrite Ht in *. cbn [app] in *. unfold readEscape. rewrite Hh, Hrun.
  cbn [skipOneSpace]. change (isSpace space) with true. cbn iota.
  rewrite ascii_nat_embedding. reflexivity.
Qed.

(** One step of the reader undoes one step of the writer. *)
Lemma readName_escapeOf len first index c fuel acc rest :
  nonNull c ->
  readName (S fuel) acc (escapeOf len first index c ++ rest)
  = readName fuel (c :: acc) rest.
Proof.
  intros Hc. unfold escapeOf.
  destruct (Nat.eqb_spec (nat_of_ascii c) 0) as [H0|_]; [contradiction|].
  destruct (isControl c || _ || _) eqn:Hhex.
  - cbn [app readName]. change (isNameChar backslash) with false.
    change (Ascii.eqb backslash backslash) with true. cbn iota.
    rewrite <- app_assoc. cbn [app]. rewrite readEscape_hex. reflexivity.
  - apply orb_false_iff in Hhex. destruct Hhex as [Hhex _].
    apply orb_false_iff in Hhex. destruct Hhex as [Hctl _].
    assert (Hesc : forall a, isHex c = false ->
              readName (S fuel) a (backslash :: c :: rest) = readName fuel (c :: a) rest).
    { intros a Hx. cbn [readName]. change (isNameChar backslash) with false.
      change (Ascii.eqb backslash backslash) with true. cbn iota.
      unfold readEscape. rewrite Hx, (plain_not_newline c Hc Hctl). reflexivity. }
    destruct (_ && _ && _) eqn:Hsingle.
    + apply andb_true_iff in Hsingle. destruct Hsingle as [Hs _].
      apply andb_true_iff in Hs. destruct Hs as [_ Hs].
      apply Ascii.eqb_eq in Hs. subst c. apply Hesc. reflexivity.
    + destruct (isSafe c) eqn:Hsafe.
      * cbn [app readName]. rewrite <- safe_nameChar, Hsafe. reflexivity.
      * apply Hesc. apply unsafe_not_hex. exact Hsafe.
Qed.

Lemma readName_end fuel acc : readName fuel acc [] = (rev acc, []).
Proof. destruct fuel; reflexivity. Qed.

Lemma readName_stop fuel acc rest :
  endsName rest -> readName fuel acc rest = (rev acc, rest).
Proof.
  intros H. destruct rest as [|d t]; [apply readName_end|].
  destruct fuel; [reflexivity|]. destruct H as [Hn Hb]. cbn [readName].
  rewrite Hn. destruct (Ascii.eqb_spec d backslash); [contradiction|reflexivity].
Qed.

Lemma readName_cssEscape_go len first (s : list ascii) : forall index fuel acc rest,
  Forall nonNull s -> length s <= fuel -> endsName rest ->
  readName fuel acc (cssEscape_go len first index s ++ rest) = (rev acc ++ s, rest).
Proof.
  induction s as [|c s IH]; intros index fuel acc rest Hs Hf Hr.
  - simpl. rewrite app_nil_r. apply readName_stop. exact Hr.
  - inversion Hs as [|? ? Hc Hs']; subst.
    destruct fuel as [|fuel]; [simpl in Hf; lia|].
    rewrite cssEscape_go_cons, <- app_assoc, readName_escapeOf by exact Hc.
    rewrite IH; [|exact Hs'|simpl in Hf; lia|exact Hr].
    simpl. rewrite <- app_assoc. reflexivity.
Qed.

Lemma escapeOf_length len first index c : 1 <= length (escapeOf len first index c).
Proof.
  unfold escapeOf. repeat match goal with |- context [if ?b then _ else _] => destruct b end;
    simpl; lia.
Qed.

Lemma cssEscape_go_length len first (s : list ascii) : forall index,
  length s <= length (cssEscape_go len first index s).
Proof.
  induction s as [|c s IH]; intros index; [simpl; lia|].
  rewrite cssEscape_go_cons, length_app.
  pose proof (escapeOf_length len first index c). pose proof (IH (S index)).
  simpl. lia.
Qed.

Lemma startsIdent_escape d t :
  isNewline d = false -> startsIdent (backslash :: d :: t) = true.
Proof.
  intros Hd. unfold startsIdent, startsEscape.
  change (Ascii.eqb backslash hyphen) with false.
  change (Ascii.eqb backslash backslash) with true.
  change (isNameStart backslash) with false. rewrite Hd. reflexivity.
Qed.

Lemma startsIdent_hyphen_escape d t :
  isNewline d = false -> startsIdent (hyphen :: backslash :: d :: t) = true.
Proof.
  intros Hd. unfold startsIdent, startsEscape.
  change (Ascii.eqb hyphen hyphen) with true.
  change (Ascii.eqb backslash hyphen) with false.
  change (Ascii.eqb backslash backslash) with true.
  change (isNameStart backslash) with false. rewrite Hd. reflexivity.
Qed.

Lemma startsIdent_hyphen_start d t :
  isNameStart d || Ascii.eqb d hyphen = true -> startsIdent (hyphen :: d :: t) = true.
Proof.
  intros Hd. unfold startsIdent.
  change (Ascii.eqb hyphen hyphen) with true. cbn iota.
  rewrite Hd. reflexivity.
Qed.

(** The escaped string starts an identifier. *)
Lemma startsIdent_cssEscape_go (s rest : list ascii) :
  s <> [] -> Forall nonNull s ->
  startsIdent (cssEscape_go (length s) (hd zero s) 0 s ++ rest) = true.
Proof.
  intros Hne Hs. destruct s as [|c s]; [contradiction|].
  inversion Hs as [|? ? Hc Hs']; subst. cbn [hd].
  rewrite cssEscape_go_cons. unfold escapeOf.
  destruct (Nat.eqb_spec (nat_of_ascii c) 0) as [H0|_]; [contradiction|].
  change (0 =? 0)%nat with true. change (0 =? 1)%nat with false. cbn [andb orb].
  rewrite orb_false_r.
  pose proof startsIdent_escape as Hesc.
  destruct (isControl c || isDigit c) eqn:Hhex.
  - destruct (toHex_head c) as (h & t & Ht & _ & Hn). rewrite Ht. cbn [app].
    apply Hesc. exact Hn.
  - apply orb_false_iff in Hhex. destruct Hhex as [Hctl Hdig].
    pose proof (plain_not_newline c Hc Hctl) as Hnl.
    destruct (Ascii.eqb c hyphen && _) eqn:Hsingle.
    + cbn [app]. apply Hesc. exact Hnl.
    + destruct (isSafe c) eqn:Hsafe; [|cbn [app]; apply Hesc; exact Hnl].
      cbn [app]. pose proof (safe_start c Hsafe Hdig) as Hst.
      destruct (Ascii.eqb_spec c hyphen) as [->|Hnh].
      * (* a hyphen followed by more *)
        destruct s as [|d s]; [discriminate|].
        inversion Hs' as [|? ? Hd Hs'']; subst.
        rewrite cssEscape_go_cons. unfold escapeOf.
        destruct (Nat.eqb_spec (nat_of_ascii d) 0) as [H0|_]; [contradiction|].
        change (1 =? 0)%nat with false. change (1 =? 1)%nat with true.
        change (Ascii.eqb hyphen hyphen) with true. cbn [andb orb].
        rewrite andb_true_r, orb_false_r.
        destruct (isControl d || isDigit d) eqn:Hhex2.
        -- destruct (toHex_head d) as (h & t & Ht & _ & Hn). rewrite Ht.
           cbn [app]. apply startsIdent_hyphen_escape. exact Hn.
        -- apply orb_false_iff in Hhex2. destruct Hhex2 as [Hctl2 Hdig2].
           pose proof (plain_not_newline d Hd Hctl2) as Hnl2.
           destruct (isSafe d) eqn:Hsafe2.
           ++ pose proof (safe_start d Hsafe2 Hdig2) as Hst2.
              cbn [app]. apply startsIdent_hyphen_start. exact Hst2.
           ++ cbn [app]. apply startsIdent_hyphen_escape. exact Hnl2.
      * unfold startsIdent.
        destruct (Ascii.eqb_spec c hyphen) as [|_]; [contradiction|].
        rewrite orb_false_r in Hst. rewrite Hst. reflexivity.
Qed.

Definition wellFormedName (s : string) : Prop :=
  s <> "" /\ Forall nonNull (chars s).

Lemma chars_nonempty (s : string) : s <> "" -> chars s <> [].
Proof. destruct s; [contradiction|discriminate]. Qed.

Lemma str_chars_id (s : string) : str (chars s) = s.
Proof. apply string_of_list_ascii_of_string. Qed.

Lemma chars_str_id (l : list ascii) : chars (str l) = l.
Proof. apply list_ascii_of_string_of_list_ascii. Qed.

(** Reading the escaped form of a name gives the name. *)
Lemma readIdent_cssEscape (s : string) (rest : list ascii) :
  wellFormedName s -> endsName rest ->
  readIdent (chars (cssEscape s) ++ rest) = Some (s, rest).
Proof.
  intros [Hne Hs] Hr. unfold cssEscape, readIdent. rewrite chars_str_id.
  rewrite startsIdent_cssEscape_go by (try apply chars_nonempty; assumption).
  rewrite readName_cssEscape_go; [|exact Hs| |exact Hr].
  - simpl. rewrite str_chars_id. reflexivity.
  - rewrite length_app.
    pose proof (cssEscape_go_length (length (chars s)) (hd zero (chars s)) (chars s) 0).
    lia.
Qed.

(** X13. The identifier that [cssEscape] writes for a non-empty string without
    NUL is read by the selector parser as that string: alone, and before
    any character that does not continue a name. *)
Theorem cssEscape_reads_back (s : string) (rest : list ascii) :
  s <> "" -> Forall (fun c => nat_of_ascii c <> 0) (chars s) ->
  match rest with
  | [] => True
  | d :: _ => isNameChar d = false /\ d <> backslash
  end ->
  readIdent (chars (cssEscape s) ++ rest) = Some (s, rest).
Proof.
  intros Hne Hs Hr. apply readIdent_cssEscape; [split; assumption|exact Hr].
Qed.

Lemma cssEscape_reads_back_witness :
  readIdent (chars (cssEscape "1 b.c") ++ chars ".x") = Some ("1 b.c", chars ".x").
Proof.
  apply cssEscape_reads_back.
  - discriminate.
  - repeat constructor; vm_compute; discriminate.
  - split; [reflexivity|discriminate].
Defined.

(** *** The id selector *)

Definition hash : ascii := "#".

Lemma readIdent_hash (E : list ascii) : readIdent (hash :: E) = None.
Proof.
  unfold readIdent, startsIdent, startsEscape.
  change (Ascii.eqb hash hyphen) with false.
  change (Ascii.eqb hash backslash) with false.
  change (isNameStart hash) with false.
  destruct E as [|d t]; reflexivity.
Qed.

Lemma readCompound_id (E : list ascii) (i : string) :
  readIdent E = Some (i, []) -> readCompound (hash :: E) = Some ([SId i], []).
Proof.
  intros HE. unfold readCompound.
  change (Ascii.eqb hash "*") with false. cbn iota.
  rewrite readIdent_hash. cbn [rev app length readSubclasses].
  change (Ascii.eqb hash "#") with true. cbn iota.
  rewrite HE. reflexivity.
Qed.

Lemma parseSelector_id (i : string) :
  wellFormedName i ->
  parseSelector ("#" +:+ cssEscape i) = Some [mkComplex [SId i] []].
Proof.
  intros Hi. unfold parseSelector.
  change (chars ("#" +:+ cssEscape i)) with (hash :: chars (cssEscape i)).
  cbn [readList]. change (trimStart (hash :: chars (cssEscape i)))
    with (hash :: chars (cssEscape i)).
  rewrite (readCompound_id _ i).
  - reflexivity.
  - rewrite <- (app_nil_r (chars (cssEscape i))).
    apply readIdent_cssEscape; [exact Hi|exact I].
Qed.

Lemma selectAll_id (r : Root) (i : string) (loc : Loc) :
  loc ∈ selectAll r [mkComplex [SId i] []]
  <-> exists e, elemAt r loc = Some e /\ getAttribute e "id" = Some i.
Proof.
  unfold selectAll. rewrite list_elem_of_In, filter_In. split.
  - intros [_ Hm]. cbn [existsb] in Hm. rewrite orb_false_r in Hm.
    unfold matchesComplex, matchesCompound in Hm. cbn [subject leftwards] in Hm.
    destruct (elemAt r loc) as [e|]; [|discriminate].
    exists e. split; [reflexivity|].
    cbn [forallb matchesSimple matchesLeftwards] in Hm.
    destruct (getAttribute e "id") as [v|]; [|discriminate].
    rewrite !andb_true_r in Hm. apply String.eqb_eq in Hm. congruence.
  - intros (e & He & Hid). split.
    + apply list_elem_of_In. eapply allElements_complete. exact He.
    + cbn [existsb]. rewrite orb_false_r.
      unfold matchesComplex, matchesCompound. cbn [subject leftwards].
      rewrite He. cbn [forallb matchesSimple matchesLeftwards].
      rewrite Hid, String.eqb_refl. reflexivity.
Qed.

End EscapeFacts.

Section IdSelectorFacts.

Import ContentScript.

(** X14. For an element with an id (without NUL), [buildUniqueSelector]
    returns a valid selector that matches the element and, besides it,
    exactly the other elements of the root with the same id. *)
Theorem buildUniqueSelector_by_id (r : Root) (loc : Loc) (e : ElemData) :
  elemAt r loc = Some e ->
  Dom.id e <> "" -> Forall (fun c => nat_of_ascii c <> 0) (chars (Dom.id e)) ->
  exists matches,
    querySelectorAll r (PageScanner.buildUniqueSelector r loc) = Ok matches
    /\ loc ∈ matches
    /\ forall l, l ∈ matches <->
                 exists e', elemAt r l = Some e' /\ getAttribute e' "id" = Some (Dom.id e).
Proof.
  intros He Hne Hnul.
  exists (selectAll r [mkComplex [SId (Dom.id e)] []]).
  split; [|split].
  - unfold PageScanner.buildUniqueSelector. rewrite He.
    rewrite (truthy_chars_true _ Hne).
    unfold querySelectorAll. rewrite parseSelector_id by (split; assumption).
    reflexivity.
  - apply selectAll_id. exists e. split; [exact He|].
    unfold Dom.id, attrOrEmpty in *.
    destruct (getAttribute e "id") as [v|]; [reflexivity|contradiction].
  - intros l. apply selectAll_id.
Qed.

Lemma buildUniqueSelector_by_id_witness :
  exists matches,
    querySelectorAll Samples.dupIdPage (PageScanner.buildUniqueSelector Samples.dupIdPage [0; 1; 0])
    = Ok matches
    /\ [0; 1; 0] ∈ matches.
Proof.
  destruct (buildUniqueSelector_by_id Samples.dupIdPage [0; 1; 0]
              (mkElem "input" [("id", "a")] false)) as (m & Hq & Hin & _).
  - reflexivity.
  - discriminate.
  - repeat constructor; vm_compute; discriminate.
  - exists m. split; assumption.
Defined.

(** X15. When the id of an element (without NUL) is the id of no other
    element of the root, [uniqueSelector] returns a valid selector that
    matches this element and no other. *)
Theorem uniqueSelector_by_unique_id (r : Root) (loc : Loc) (e : ElemData) :
  elemAt r loc = Some e ->
  Dom.id e <> "" -> Forall (fun c => nat_of_ascii c <> 0) (chars (Dom.id e)) ->
  length (selectAll r [mkComplex [SId (Dom.id e)] []]) = 1 ->
  querySelectorAll r (uniqueSelector r loc) = Ok [loc].
Proof.
  intros He Hne Hnul Hone.
  destruct (uniqueSelector_id_shortcut r loc e He Hne Hone) as [-> Hsel].
  unfold querySelectorAll. rewrite parseSelector_id by (split; assumption).
  rewrite Hsel. reflexivity.
Qed.

Lemma uniqueSelector_by_unique_id_witness :
  querySelectorAll [Samples.el "input" [("id", "email")] []]
                   (uniqueSelector [Samples.el "input" [("id", "email")] []] [0])
  = Ok [[0]].
Proof.
  apply (uniqueSelector_by_unique_id _ _ (mkElem "input" [("id", "email")] false)).
  - reflexivity.
  - discriminate.
  - repeat constructor; vm_compute; discriminate.
  - reflexivity.
Defined.

End IdSelectorFacts.

(* ===================================================================== *)
(** ** The hops of [_resolveElement]                                      *)
(* ===================================================================== *)

Section HopFacts.

Import FormFiller.

Variable document : Root.

(** The root entered from a node through a boundary. *)
Definition across (b : Boundary) (n : Node) : option Root :=
  match b with
  | ShadowB => shadowRootOf n
  | FrameB => contentDocumentOf n
  end.

Lemma rootAt_snoc (cp : CtxPath) : forall doc r loc b n r',
  rootAt doc cp = Some r -> nodeAt r loc = Some n -> across b n = Some r' ->
  rootAt doc (cp ++ [(loc, b)]) = Some r'.
Proof.
  induction cp as [|[h c] cp IH]; intros doc r loc b n r' Hr Hn Ha.
  - injection Hr as ->. cbn [app rootAt]. rewrite Hn.
    unfold across in Ha. rewrite Ha. reflexivity.
  - cbn [app rootAt] in *. destruct (nodeAt doc h) as [m|]; [|discriminate].
    destruct (match c with ShadowB => _ | FrameB => _ end) as [r1|]; [|discriminate].
    eapply IH; eassumption.
Qed.

(** The context and the window of a cursor are roots of the page. *)
Definition inPage (cur : Cursor) : Prop :=
  (forall cp r, ctx cur = Some (cp, r) -> rootAt document cp = Some r)
  /\ (forall cp d, currentWin cur = WindowOf cp d -> rootAt document cp = Some d).

Lemma start_inPage : inPage (start document).
Proof.
  split; simpl.
  - intros cp r H. injection H as <- <-. reflexivity.
  - intros cp d H. injection H as <- <-. reflexivity.
Qed.

Lemma querySelectorAll_Ok (r : Root) (s : string) (ms : list Loc) :
  querySelectorAll r s = Ok ms ->
  exists sel, parseSelector s = Some sel /\ ms = selectAll r sel.
Proof.
  unfold querySelectorAll. destruct (parseSelector s) as [sel|]; [|discriminate].
  intros H. injection H as <-. eauto.
Qed.

Lemma querySelector_Ok (r : Root) (s : string) (found : option Loc) :
  querySelector r s = Ok found ->
  exists sel, parseSelector s = Some sel /\ found = head (selectAll r sel).
Proof.
  unfold querySelector. destruct (querySelectorAll r s) as [ms|] eqn:Hq; [|discriminate].
  simpl. intros H. injection H as <-.
  destruct (querySelectorAll_Ok _ _ _ Hq) as (sel & Hp & ->). eauto.
Qed.

Lemma resolveHop_inPage (cur cur' : Cursor) (hop : Hop) :
  inPage cur -> resolveHop cur hop = Ok (inr cur') -> inPage cur'.
Proof.
  intros [Hc Hw] H. destruct hop as [n|s]; cbn [resolveHop] in H.
  - destruct (currentWin cur) as [wcp wdoc|] eqn:Ew; [|discriminate].
    destruct (querySelectorAll wdoc "iframe") as [frames|]; cbn [bind] in H; [|discriminate].
    destruct (frames !! n) as [loc|]; [|discriminate].
    destruct (nodeAt wdoc loc) as [node|] eqn:En; [|discriminate].
    destruct node as [e ch sr [| |d]|t]; simpl in H; try discriminate.
    injection H as <-.
    assert (Hr : rootAt document (wcp ++ [(loc, FrameB)]) = Some d).
    { eapply rootAt_snoc; [apply Hw; reflexivity|exact En|reflexivity]. }
    split; simpl; intros cp r H; injection H as <- <-; exact Hr.
  - destruct (ctx cur) as [[cp r]|] eqn:Ec.
    + destruct (querySelector r s) as [host|]; cbn [bind] in H; [|discriminate].
      assert (Hnone : inPage (mkCursor None (currentWin cur))).
      { split; simpl; [discriminate|exact Hw]. }
      destruct host as [loc|]; [|injection H as <-; exact Hnone].
      destruct (nodeAt r loc) as [node|] eqn:En; [|injection H as <-; exact Hnone].
      destruct (shadowRootOf node) as [sr|] eqn:Es; [|injection H as <-; exact Hnone].
      injection H as <-. split; simpl; [|exact Hw].
      intros cp' r' H. injection H as <- <-.
      eapply rootAt_snoc; [apply Hc; reflexivity|exact En|exact Es].
    + injection H as <-. split; simpl; [discriminate|exact Hw].
Qed.

Lemma resolveHops_inPage (hops : list Hop) : forall cur cur',
  inPage cur -> resolveHops cur hops = Ok (inr cur') -> inPage cur'.
Proof.
  induction hops as [|hop hops IH]; intros cur cur' Hin H; simpl in H.
  - injection H as <-. exact Hin.
  - destruct (resolveHop cur hop) as [[[]|cur1]|] eqn:E; simpl in H; try discriminate.
    eapply IH; [|exact H]. eapply resolveHop_inPage; eassumption.
Qed.

(** X16. Whatever the mapping, an element returned by [_resolveElement] is an
    element of the page: it lies in a document or shadow root of the page
    and is the first element there that matches the selector of the
    mapping. *)
Theorem resolveElement_sound (map : FieldMapping) (x : Ref) :
  _resolveElement document map = Ok (Some x) ->
  exists r sel e,
    rootAt document (fst x) = Some r
    /\ parseSelector (selector map) = Some sel
    /\ head (selectAll r sel) = Some (snd x)
    /\ elemOf document x = Some e.
Proof.
  unfold _resolveElement. fold (start document). intros H.
  destruct (resolveHops (start document) (framePath map)) as [[[]|cur]|] eqn:Eh;
    simpl in H; try discriminate.
  pose proof (resolveHops_inPage _ _ _ start_inPage Eh) as [Hc _].
  unfold finalQuery in H. destruct (ctx cur) as [[cp r]|] eqn:Ec; [|discriminate].
  destruct (querySelector r (selector map)) as [found|] eqn:Eq; [|discriminate].
  simpl in H. destruct found as [loc|]; [|discriminate]. injection H as <-.
  destruct (querySelector_Ok _ _ _ Eq) as (sel & Hp & Hhead).
  assert (Hin : loc ∈ selectAll r sel).
  { destruct (selectAll r sel) as [|a l]; [discriminate|].
    injection Hhead as ->. left. }
  unfold selectAll in Hin. apply list_elem_of_In, filter_In in Hin.
  destruct Hin as [_ Hm].
  assert (He : exists e, elemAt r loc = Some e).
  { apply existsb_exists in Hm. destruct Hm as (cx & _ & Hm).
    unfold matchesComplex, matchesCompound in Hm.
    destruct (elemAt r loc) as [e|]; [eauto|discriminate]. }
  destruct He as (e & He).
  exists r, sel, e. simpl. rewrite (Hc cp r eq_refl).
  split; [reflexivity|]. split; [exact Hp|]. split; [symmetry; exact Hhead|].
  unfold elemOf. simpl. rewrite (Hc cp r eq_refl). exact He.
Qed.

(** *** A frame hop looks at the window only *)

Lemma resolveHop_frame_window (cur1 cur2 : Cursor) (n : nat) :
  currentWin cur1 = currentWin cur2 ->
  resolveHop cur1 (FrameIndex n) = resolveHop cur2 (FrameIndex n).
Proof. intros H. simpl. rewrite H. reflexivity. Qed.

Lemma resolveHop_host_window (cur cur' : Cursor) (s : string) :
  resolveHop cur (HostSelector s) = Ok (inr cur') ->
  currentWin cur' = currentWin cur.
Proof.
  simpl. destruct (ctx cur) as [[cp r]|].
  - destruct (querySelector r s) as [[loc|]|]; simpl; try discriminate.
    + destruct (nodeAt r loc) as [node|].
      * destruct (shadowRootOf node); intros H; injection H as <-; reflexivity.
      * intros H; injection H as <-; reflexivity.
    + intros H; injection H as <-; reflexivity.
  - intros H; injection H as <-; reflexivity.
Qed.

Lemma resolveHop_host_returns (cur : Cursor) (s : string) :
  is_Some (parseSelector s) ->
  exists cur', resolveHop cur (HostSelector s) = Ok (inr cur').
Proof.
  intros [sel Hs]. simpl. destruct (ctx cur) as [[cp r]|]; [|eauto].
  unfold querySelector, querySelectorAll. rewrite Hs. simpl.
  destruct (head (selectAll r sel)) as [loc|]; [|eauto].
  destruct (nodeAt r loc) as [node|]; [|eauto].
  destruct (shadowRootOf node); eauto.
Qed.

Lemma resolveHops_hosts (hosts : list string) : forall cur,
  Forall (fun s => is_Some (parseSelector s)) hosts ->
  exists cur', resolveHops cur (List.map HostSelector hosts) = Ok (inr cur')
               /\ currentWin cur' = currentWin cur.
Proof.
  induction hosts as [|s hosts IH]; intros cur HF.
  - exists cur. split; reflexivity.
  - inversion HF as [|? ? Hs HF']; subst.
    destruct (resolveHop_host_returns cur s Hs) as (cur1 & H1).
    destruct (IH cur1 HF') as (cur2 & H2 & Hw).
    exists cur2. cbn [List.map resolveHops]. rewrite H1. simpl.
    split; [exact H2|]. rewrite Hw. eapply resolveHop_host_window. exact H1.
Qed.

Lemma resolveHops_app (h1 h2 : list Hop) : forall cur,
  resolveHops cur (h1 ++ h2)
  = bind (resolveHops cur h1) (fun step =>
      match step with
      | inl tt => Ok (inl tt)
      | inr cur' => resolveHops cur' h2
      end).
Proof.
  induction h1 as [|hop h1 IH]; intros cur; [reflexivity|].
  cbn [app resolveHops]. destruct (resolveHop cur hop) as [[[]|cur1]|]; simpl;
    [reflexivity|apply IH|reflexivity].
Qed.

(** X17. A numeric hop is resolved in the document of the current window,
    which shadow hops do not change: valid host selectors written before
    a frame index have no effect on what is resolved. *)
Theorem resolveElement_frame_hop_forgets_hosts
    (hosts : list string) (n : nat) (rest : list Hop) (sel col ty : string) :
  Forall (fun s => is_Some (parseSelector s)) hosts ->
  _resolveElement document
    (mkMapping sel col ty (List.map HostSelector hosts ++ FrameIndex n :: rest))
  = _resolveElement document (mkMapping sel col ty (FrameIndex n :: rest)).
Proof.
  intros HF. unfold _resolveElement. cbn [framePath selector].
  fold (start document).
  destruct (resolveHops_hosts hosts (start document) HF) as (cur & Hh & Hw).
  rewrite resolveHops_app, Hh. cbn [bind].
  cbn [resolveHops]. rewrite (resolveHop_frame_window cur (start document) n Hw).
  reflexivity.
Qed.

(** The n-th iframe of the top document. *)
Definition frameAt (n : nat) : option Node :=
  match selectAll document [mkComplex [SType "iframe"] []] !! n with
  | Some loc => nodeAt document loc
  | None => None
  end.

Lemma parse_iframe : parseSelector "iframe" = Some [mkComplex [SType "iframe"] []].
Proof. vm_compute. reflexivity. Qed.

(** X18. A mapping whose first hop is a frame index resolves to [null] when
    the top document has no such iframe or the iframe has no window, and
    throws a [SecurityError] when the iframe is cross-origin, whatever
    the rest of the mapping. *)
Theorem resolveElement_first_frame_hop
    (n : nat) (rest : list Hop) (sel col ty : string) :
  let map := mkMapping sel col ty (FrameIndex n :: rest) in
  (frameAt n = None -> _resolveElement document map = Ok None)
  /\ (forall e ch sr, frameAt n = Some (Element e ch sr NoWindow) ->
        _resolveElement document map = Ok None)
  /\ (forall e ch sr, frameAt n = Some (Element e ch sr CrossOrigin) ->
        _resolveElement document map = Throw SecurityError).
Proof.
  intros map. unfold _resolveElement, frameAt. cbn [framePath map resolveHops resolveHop].
  cbn [currentWin start].
  assert (Hq : querySelectorAll document "iframe"
               = Ok (selectAll document [mkComplex [SType "iframe"] []])).
  { unfold querySelectorAll. rewrite parse_iframe. reflexivity. }
  rewrite Hq. cbn [bind].
  destruct (selectAll document [mkComplex [SType "iframe"] []] !! n) as [loc|].
  - split; [|split].
    + intros ->. reflexivity.
    + intros e ch sr ->. reflexivity.
    + intros e ch sr ->. reflexivity.
  - split; [|split]; try discriminate. reflexivity.
Qed.

End HopFacts.

(** A page with an input inside a same-origin iframe, and a page with a
    cross-origin iframe. *)
Definition framedPage : Root :=
  Samples.page [Element (mkElem "iframe" [] false) [] None
                        (SameOrigin (Samples.page [Samples.el "input" [("name", "q")] []]))].

Definition foreignFramePage : Root :=
  Samples.page [Element (mkElem "iframe" [] false) [] None CrossOrigin].

Lemma resolveElement_sound_witness :
  exists r sel e,
    rootAt framedPage [([0; 1; 0], FrameB)] = Some r
    /\ parseSelector "input" = Some sel
    /\ head (selectAll r sel) = Some [0; 1; 0]
    /\ elemOf framedPage ([([0; 1; 0], FrameB)], [0; 1; 0]) = Some e.
Proof.
  apply (resolveElement_sound framedPage
           (FormFiller.mkMapping "input" "COL_1" "input" [FormFiller.FrameIndex 0])
           ([([0; 1; 0], FrameB)], [0; 1; 0])).
  vm_compute. reflexivity.
Defined.

Lemma resolveElement_frame_hop_forgets_hosts_witness :
  FormFiller._resolveElement framedPage
    (FormFiller.mkMapping "input" "COL_1" "input"
       [FormFiller.HostSelector "x-host"; FormFiller.FrameIndex 0])
  = Ok (Some ([([0; 1; 0], FrameB)], [0; 1; 0])).
Proof.
  change [FormFiller.HostSelector "x-host"; FormFiller.FrameIndex 0]
    with (List.map FormFiller.HostSelector ["x-host"] ++ FormFiller.FrameIndex 0 :: []).
  rewrite (resolveElement_frame_hop_forgets_hosts framedPage ["x-host"] 0 []
             "input" "COL_1" "input").
  - vm_compute. reflexivity.
  - repeat constructor. vm_compute. eauto.
Defined.

Lemma resolveElement_first_frame_hop_witness :
  FormFiller._resolveElement foreignFramePage
    (FormFiller.mkMapping "input" "COL_1" "input" [FormFiller.FrameIndex 0])
  = Throw SecurityError
  /\ FormFiller._resolveElement framedPage
       (FormFiller.mkMapping "input" "COL_1" "input" [FormFiller.FrameIndex 1])
     = Ok None.
Proof.
  split.
  - apply (proj2 (proj2 (resolveElement_first_frame_hop foreignFramePage 0 []
                           "input" "COL_1" "input"))
             (mkElem "iframe" [] false) [] None).
    vm_compute. reflexivity.
  - apply (proj1 (resolveElement_first_frame_hop framedPage 1 []
                    "input" "COL_1" "input")).
    vm_compute. reflexivity.
Defined.

(* ===================================================================== *)
(** ** The shape of label texts                                           *)
(* ===================================================================== *)

Section LabelTextFacts.

Import ContentScript PageScanner.

(** The first character is not white space. *)
Definition startsClean (s : list ascii) : Prop :=
  match s with
  | c :: _ => isSpace c = false
  | [] => True
  end.

(** Every white-space character is a single space between two other
    characters. *)
Definition singleSpaced (s : list ascii) : Prop :=
  (forall c, c ∈ s -> isSpace c = true -> c = space)
  /\ (forall a b, s <> a ++ space :: space :: b).

Lemma trimStart_startsClean (s : list ascii) : startsClean (trimStart s).
Proof.
  induction s as [|c s IH]; simpl; [exact I|].
  destruct (isSpace c) eqn:Hc; [exact IH|exact Hc].
Qed.

Lemma startsClean_rev_endsClean (s : list ascii) : startsClean s -> endsClean (rev s).
Proof.
  intros Hs a c Hr. apply (f_equal (@rev ascii)) in Hr.
  rewrite rev_involutive, rev_app_distr in Hr. simpl in Hr. subst s. exact Hs.
Qed.

Lemma trimStart_keeps_end (s : list ascii) : endsClean s -> endsClean (trimStart s).
Proof.
  intros He a c Ht. destruct (trimStart_suffix s) as (p & Hs & _).
  apply (He (p ++ a) c). rewrite Hs at 1. rewrite Ht, app_assoc. reflexivity.
Qed.

Lemma endsClean_rev_startsClean (s : list ascii) : endsClean s -> startsClean (rev s).
Proof.
  intros He. destruct (rev s) as [|c t] eqn:Hr; [exact I|]. simpl.
  apply (He (rev t) c). apply (f_equal (@rev ascii)) in Hr.
  rewrite rev_involutive in Hr. exact Hr.
Qed.

(** [trim] leaves no white space at either end. *)
Lemma trim_clean (s : list ascii) : startsClean (trim s) /\ endsClean (trim s).
Proof.
  unfold trim. split.
  - apply endsClean_rev_startsClean, trimStart_keeps_end, startsClean_rev_endsClean.
    apply trimStart_startsClean.
  - apply startsClean_rev_endsClean, trimStart_startsClean.
Qed.

Lemma collapse_spaces_only (s : list ascii) : forall inrun c,
  c ∈ collapseSpaces inrun s -> isSpace c = true -> c = space.
Proof.
  induction s as [|d s IH]; intros inrun c Hin Hc; simpl in Hin; [inversion Hin|].
  destruct (isSpace d) eqn:Hd.
  - destruct inrun; [eapply IH; eassumption|].
    apply elem_of_cons in Hin. destruct Hin as [->|Hin]; [reflexivity|].
    eapply IH; eassumption.
  - apply elem_of_cons in Hin. destruct Hin as [->|Hin]; [congruence|].
    eapply IH; eassumption.
Qed.

Lemma collapse_in_run (s : list ascii) : startsClean (collapseSpaces true s).
Proof.
  induction s as [|d s IH]; simpl; [exact I|].
  destruct (isSpace d) eqn:Hd; [exact IH|exact Hd].
Qed.

Lemma collapse_no_double (s : list ascii) : forall inrun a b,
  collapseSpaces inrun s <> a ++ space :: space :: b.
Proof.
  induction s as [|d s IH]; intros inrun a b H; simpl in H.
  - destruct a; discriminate.
  - destruct (isSpace d) eqn:Hd.
    + destruct inrun; [exact (IH _ _ _ H)|].
      destruct a as [|x a].
      * injection H as H. pose proof (collapse_in_run s) as Hs.
        rewrite H in Hs. discriminate.
      * injection H as _ H. exact (IH _ _ _ H).
    + destruct a as [|x a].
      * injection H as -> _. discriminate.
      * injection H as _ H. exact (IH _ _ _ H).
Qed.

Lemma collapse_starts (s : list ascii) :
  startsClean s -> startsClean (collapseSpaces false s).
Proof.
  destruct s as [|c s]; [intros _; exact I|]. simpl. intros Hc. rewrite Hc. exact Hc.
Qed.

Lemma collapse_snoc (s : list ascii) : forall inrun c,
  isSpace c = false ->
  collapseSpaces inrun (s ++ [c]) = collapseSpaces inrun s ++ [c].
Proof.
  induction s as [|d s IH]; intros inrun c Hc; simpl.
  - rewrite Hc. reflexivity.
  - destruct (isSpace d); [destruct inrun|]; simpl; rewrite IH by exact Hc; reflexivity.
Qed.

Lemma collapse_ends (s : list ascii) :
  endsClean s -> endsClean (collapseSpaces false s).
Proof.
  intros He. destruct (rev s) as [|c t] eqn:Hr.
  - apply (f_equal (@rev ascii)) in Hr. rewrite rev_involutive in Hr. subst s.
    intros a c H. destruct a; discriminate.
  - apply (f_equal (@rev ascii)) in Hr. rewrite rev_involutive in Hr. simpl in Hr.
    subst s. pose proof (He _ _ eq_refl) as Hc.
    rewrite collapse_snoc by exact Hc.
    intros a d H. apply app_inj_tail in H. destruct H as [_ <-]. exact Hc.
Qed.

Lemma collapse_nonempty (s : list ascii) :
  s <> [] -> collapseSpaces false s <> [].
Proof. destruct s as [|c s]; [contradiction|]. simpl. destruct (isSpace c); discriminate. Qed.

Lemma chars_of_str (l : list ascii) : chars (str l) = l.
Proof. apply list_ascii_of_string_of_list_ascii. Qed.

Lemma trimOrNull_Some (s t : string) :
  trimOrNull s = Some t -> t = trimmed s /\ chars t <> [].
Proof.
  unfold trimOrNull. destruct (truthy (chars (trimmed s))) eqn:Ht; [|discriminate].
  intros H. injection H as <-. split; [reflexivity|].
  destruct (chars (trimmed s)); [discriminate|discriminate].
Qed.

Lemma enclosingLabel_Some (r : Root) (ancs : list Loc) (t : string) :
  enclosingLabel r ancs = Some t -> exists s, trimOrNull s = Some t.
Proof.
  induction ancs as [|p ancs IH]; simpl; [discriminate|].
  destruct (elemAt r p) as [e|]; [|exact IH].
  destruct (String.eqb (tag e) "label"); [eauto|exact IH].
Qed.

(** X19. A label text returned by [resolveLabelText] is not empty, has no
    white space at its ends, and its only white space is single spaces.
    One returned by [extractLabelText] has no white space at its ends;
    it may be empty. *)
Theorem label_text_shape (document : Root) (cp : CtxPath) (r : Root) (loc : Loc)
    (t : string) :
  (resolveLabelText document cp r loc = Some t ->
     t <> "" /\ startsClean (chars t) /\ endsClean (chars t) /\ singleSpaced (chars t))
  /\ (extractLabelText document r loc = Some t ->
        startsClean (chars t) /\ endsClean (chars t)).
Proof.
  split.
  - unfold resolveLabelText. intros H.
    set (first := if truthy _ then _ else None) in H.
    assert (Hsrc : forall u, match first with
                             | Some t0 => Some t0
                             | None => enclosingLabel r (ancestors loc)
                             end = Some u -> exists s, trimOrNull s = Some u).
    { intros u Hu. destruct first as [t0|] eqn:Ef.
      - injection Hu as ->. subst first.
        destruct (truthy _); [|discriminate].
        destruct (labelFor _ _); [eauto|discriminate].
      - eapply enclosingLabel_Some. exact Hu. }
    destruct (match first with Some t0 => Some t0 | None => _ end) as [u|]; [|discriminate].
    injection H as <-. destruct (Hsrc u eq_refl) as (s & Hs).
    apply trimOrNull_Some in Hs. destruct Hs as [-> Hne].
    unfold trimmed in *. rewrite chars_of_str in *.
    destruct (trim_clean (chars s)) as [Hst Hen].
    split; [|rewrite chars_of_str; split; [|split; [|split]]].
    + intros Habs. apply (f_equal chars) in Habs. rewrite chars_of_str in Habs.
      exact (collapse_nonempty _ Hne Habs).
    + apply collapse_starts. exact Hst.
    + apply collapse_ends. exact Hen.
    + intros c. apply collapse_spaces_only.
    + apply collapse_no_double.
  - unfold extractLabelText. intros H.
    assert (Ht : exists s, t = trimmed s).
    { destruct (if _ && _ then _ else None) as [l|].
      - injection H as <-. eauto.
      - destruct (previousElementSibling r loc) as [prev|]; [|discriminate].
        destruct (elemAt r prev) as [p|]; [|discriminate].
        destruct (String.eqb (tag p) "label"); [|discriminate].
        injection H as <-. eauto. }
    destruct Ht as (s & ->). unfold trimmed. rewrite chars_of_str. apply trim_clean.
Qed.

Lemma label_text_shape_witness :
  resolveLabelText Samples.wrappedLabelPage [] Samples.wrappedLabelPage [0; 1; 0; 1]
  = Some "Name"
  /\ singleSpaced (chars "Name").
Proof.
  assert (H : resolveLabelText Samples.wrappedLabelPage [] Samples.wrappedLabelPage
                [0; 1; 0; 1] = Some "Name") by (vm_compute; reflexivity).
  split; [exact H|].
  exact (proj2 (proj2 (proj2 (proj1 (label_text_shape _ _ _ _ _) H)))).
Defined.

End LabelTextFacts.

(* ===================================================================== *)
(** ** From the scan to the deep query                                    *)
(* ===================================================================== *)

Section ScanSelectorFacts.

Import ContentScript.

Variable cfg : Config.
Variable document : Root.








(** The entries of a scan are those that [collectNode] gives for the
    children of the document. *)
Lemma scan_collects :
  results (traverseRoot cfg document 0 [] document [] (mkScan [] []))
  = concatMapi (fun i c => collectNode cfg document c 1 [] document [] [i]) 0 document.
Proof.
  unfold traverseRoot.
  destruct (traverses_root cfg document document
              (proj2 (Forall_forall _ _) (fun n _ => traverses_every_node cfg document n))
              0 [] [] (mkScan [] [])) as (V & -> & _).
  { intros k Hk. inversion Hk. }
  cbn [results app]. reflexivity.
Qed.


End ScanSelectorFacts.

Section RetraceFacts.

Import ContentScript.









End RetraceFacts.






(* ===================================================================== *)
(** ** Fields and hosts with plain ids                                    *)
(* ===================================================================== *)

Section PlainIdFacts.

Import ContentScript.

(** An identifier that needs no escaping: a letter, an underscore or a
    non-ASCII character, followed by letters, digits, hyphens, underscores
    and non-ASCII characters. *)
Definition bareIdent (i : string) : Prop :=
  match chars i with
  | [] => False
  | c :: t => isNameStart c = true /\ Forall (fun d => isNameChar d = true) t
  end.

Lemma nameStart_facts (c : ascii) :
  isNameStart c = true ->
  nat_of_ascii c <> 0 /\ isControl c = false /\ isDigit c = false
  /\ Ascii.eqb c hyphen = false /\ isSafe c = true /\ isSpace c = false
  /\ Ascii.eqb c gt = false.
Proof.
  destruct c as [[] [] [] [] [] [] [] []]; vm_compute; intros H;
    repeat split; congruence.
Qed.

Lemma nameChar_facts (c : ascii) :
  isNameChar c = true ->
  nat_of_ascii c <> 0 /\ isControl c = false /\ isSafe c = true /\ isSpace c = false
  /\ Ascii.eqb c gt = false.
Proof.
  destruct c as [[] [] [] [] [] [] [] []]; vm_compute; intros H;
    repeat split; congruence.
Qed.


Lemma escapeOf_first (len : nat) (c : ascii) :
  isNameStart c = true -> escapeOf len c 0 c = [c].
Proof.
  intros H. destruct (nameStart_facts c H) as (H0 & Hctl & Hdig & Hhy & Hsafe & _).
  unfold escapeOf. destruct (Nat.eqb_spec (nat_of_ascii c) 0); [contradiction|].
  rewrite Hctl, Hdig, Hhy, Hsafe. cbn [andb orb]. rewrite !andb_false_r. reflexivity.
Qed.

Lemma escapeOf_later (len : nat) (first : ascii) (index : nat) (c : ascii) :
  Ascii.eqb first hyphen = false -> isNameChar c = true ->
  escapeOf len first (S index) c = [c].
Proof.
  intros Hf H. destruct (nameChar_facts c H) as (H0 & Hctl & Hsafe & _).
  unfold escapeOf. destruct (Nat.eqb_spec (nat_of_ascii c) 0); [contradiction|].
  rewrite Hctl, Hf, Hsafe. change (S index =? 0)%nat with false.
  cbn [andb orb]. rewrite !andb_false_r. reflexivity.
Qed.

Lemma cssEscape_go_later (len : nat) (first : ascii) (s : list ascii) : forall index,
  Ascii.eqb first hyphen = false -> Forall (fun d => isNameChar d = true) s ->
  cssEscape_go len first (S index) s = s.
Proof.
  induction s as [|c s IH]; intros index Hf HF; [reflexivity|].
  inversion HF as [|? ? Hc HF']; subst.
  rewrite cssEscape_go_cons, (escapeOf_later _ _ _ _ Hf Hc), IH by assumption.
  reflexivity.
Qed.

(** [cssEscape] leaves such an identifier as it is. *)
Lemma cssEscape_bareIdent (i : string) : bareIdent i -> cssEscape i = i.
Proof.
  unfold bareIdent, cssEscape. intros H.
  destruct (chars i) as [|c t] eqn:E; [contradiction|]. destruct H as [Hc Ht].
  cbn [hd]. rewrite cssEscape_go_cons, (escapeOf_first _ c Hc).
  rewrite cssEscape_go_later;
    [|exact (proj1 (proj2 (proj2 (proj2 (nameStart_facts c Hc)))))|exact Ht].
  cbn [app]. rewrite <- E. apply str_chars_id.
Qed.

Lemma bareIdent_wellFormed (i : string) : bareIdent i -> wellFormedName i.
Proof.
  unfold bareIdent, wellFormedName. intros H.
  destruct (chars i) as [|c t] eqn:E; [contradiction|]. destruct H as [Hc Ht].
  split.
  - intros ->. discriminate.
  - constructor; [exact (proj1 (nameStart_facts c Hc))|].
    eapply Forall_impl; [exact Ht|]. intros d Hd. exact (proj1 (nameChar_facts d Hd)).
Qed.








End PlainIdFacts.




(* ===================================================================== *)
(** ** Reading the fragments of a synthesized path                        *)
(* ===================================================================== *)

Section FragmentFacts.

(** One fragment of a path: a tag, classes and, where the element has
    siblings of its type, its rank among them. *)
Record Frag := mkFrag {
  f_tag : string;
  f_classes : list string;
  f_nth : option Z
}.

(** [classes.map(cls => '.' + CSS.escape(cls)).join('')] *)
Definition classSuffix (classes : list string) : string :=
  String.concat "" (List.map (fun cls => "." +:+ cssEscape cls) classes).

Definition nthSuffix (n : option Z) : string :=
  match n with
  | Some z => nthOfType z
  | None => ""
  end.

Definition fragString (f : Frag) : string :=
  f_tag f +:+ classSuffix (f_classes f) +:+ nthSuffix (f_nth f).

(** The compound selector that a fragment denotes. *)
Definition fragAst (f : Frag) : Compound :=
  SType (f_tag f) :: List.map SClass (f_classes f)
  ++ match f_nth f with
     | Some z => [SNthOfType (Z.to_nat z)]
     | None => []
     end.

Definition okFrag (f : Frag) : Prop :=
  bareIdent (f_tag f)
  /\ Forall wellFormedName (f_classes f)
  /\ (forall z, f_nth f = Some z -> (0 < z)%Z).

(** *** Numbers *)

Lemma pretty_N_char_digit (m : N) :
  (m < 10)%N ->
  isDigit (pretty_N_char m) = true
  /\ nat_of_ascii (pretty_N_char m) - 48 = N.to_nat m.
Proof.
  intros H.
  assert (m = 0 \/ m = 1 \/ m = 2 \/ m = 3 \/ m = 4 \/ m = 5 \/ m = 6 \/ m = 7
          \/ m = 8 \/ m = 9)%N as Hm by lia.
  repeat (destruct Hm as [->|Hm]; [split; reflexivity|]). subst m. split; reflexivity.
Qed.

Lemma readDigits_digit (acc : nat) (seen : bool) (m : N) (s : list ascii) :
  (m < 10)%N ->
  readDigits acc seen (pretty_N_char m :: s)
  = readDigits (10 * acc + N.to_nat m) true s.
Proof.
  intros H. destruct (pretty_N_char_digit m H) as [Hd Hv].
  cbn [readDigits]. rewrite Hd, Hv. reflexivity.
Qed.

Lemma readDigits_pretty_go (x : N) : forall (s : string) (seen : bool) (rest : list ascii),
  readDigits 0 seen (chars (pretty_N_go x s) ++ rest)
  = if decide (x = 0)%N then readDigits 0 seen (chars s ++ rest)
    else readDigits (N.to_nat x) true (chars s ++ rest).
Proof.
  induction (N.lt_wf_0 x) as [x _ IH]. intros s seen rest.
  destruct (decide (x = 0)%N) as [->|Hx]; [rewrite pretty_N_go_0; reflexivity|].
  rewrite pretty_N_go_step by lia.
  rewrite IH by (apply N.div_lt; lia).
  assert (Hm : (x `mod` 10 < 10)%N) by (apply N.mod_lt; lia).
  change (chars (String (pretty_N_char (x `mod` 10)) s) ++ rest)
    with (pretty_N_char (x `mod` 10) :: (chars s ++ rest)).
  pose proof (N.div_mod x 10 ltac:(lia)) as Hdm.
  destruct (decide (x `div` 10 = 0)%N) as [Hq|Hq].
  - rewrite (readDigits_digit _ _ _ _ Hm). f_equal. lia.
  - rewrite (readDigits_digit _ _ _ _ Hm). f_equal. lia.
Qed.

Definition closeParen : ascii := ")".

Lemma readDigits_pretty (z : Z) (rest : list ascii) :
  (0 < z)%Z ->
  readDigits 0 false (chars (pretty z) ++ closeParen :: rest)
  = Some (Z.to_nat z, closeParen :: rest).
Proof.
  intros Hz. destruct z as [|p|p]; try lia.
  change (pretty (Z.pos p)) with (pretty_N_go (N.pos p) "").
  rewrite readDigits_pretty_go.
  destruct (decide (N.pos p = 0)%N); [discriminate|].
  cbn [chars list_ascii_of_string app readDigits].
  change (isDigit closeParen) with false. cbn iota.
  reflexivity.
Qed.

(** *** One fragment *)

Lemma readIdent_bare (t : string) (rest : list ascii) :
  bareIdent t -> endsName rest -> readIdent (chars t ++ rest) = Some (t, rest).
Proof.
  intros Ht Hr. rewrite <- (cssEscape_bareIdent t Ht) at 1.
  apply readIdent_cssEscape; [apply bareIdent_wellFormed; exact Ht|exact Hr].
Qed.

Definition dot : ascii := ".".
Definition colon : ascii := ":".

(** What may follow a compound selector in a path: the end, or the white
    space before a combinator. *)
Definition okRest (rest : list ascii) : Prop :=
  rest = [] \/ exists t, rest = space :: t.

Lemma okRest_endsName (rest : list ascii) : okRest rest -> endsName rest.
Proof. intros [->|(t & ->)]; [exact I|]. split; [reflexivity|discriminate]. Qed.

Lemma chars_classSuffix_cons (c : string) (cs : list string) :
  chars (classSuffix (c :: cs))
  = dot :: chars (cssEscape c) ++ chars (classSuffix cs).
Proof.
  unfold classSuffix. cbn [List.map]. destruct cs as [|d cs].
  - cbn [String.concat List.map]. rewrite chars_append.
    change (chars "") with (@nil ascii). rewrite app_nil_r. reflexivity.
  - change (String.concat "" (("." +:+ cssEscape c) :: List.map _ (d :: cs)))
      with (("." +:+ cssEscape c) +:+ "" +:+ String.concat "" (List.map (fun cls => "." +:+ cssEscape cls) (d :: cs))).
    rewrite !chars_append. reflexivity.
Qed.

Lemma classSuffix_endsName (cs : list string) (tail : list ascii) :
  endsName tail -> endsName (chars (classSuffix cs) ++ tail).
Proof.
  intros Ht. destruct cs as [|c cs]; [exact Ht|].
  rewrite chars_classSuffix_cons. split; [reflexivity|discriminate].
Qed.

Lemma readSubclasses_class (fuel : nat) (acc : list Simple) (c : string)
    (more : list ascii) :
  wellFormedName c -> endsName more ->
  readSubclasses (S fuel) acc (dot :: chars (cssEscape c) ++ more)
  = readSubclasses fuel (SClass c :: acc) more.
Proof.
  intros Hc Hm. cbn [readSubclasses].
  change (Ascii.eqb dot "#") with false. change (Ascii.eqb dot ".") with true.
  cbn iota. rewrite (readIdent_cssEscape c more Hc Hm). reflexivity.
Qed.

Lemma readSubclasses_classes (cs : list string) : forall fuel acc tail,
  Forall wellFormedName cs -> endsName tail ->
  readSubclasses (length cs + fuel) acc (chars (classSuffix cs) ++ tail)
  = readSubclasses fuel (rev (List.map SClass cs) ++ acc) tail.
Proof.
  induction cs as [|c cs IH]; intros fuel acc tail HF Ht; [reflexivity|].
  inversion HF as [|? ? Hc HF']; subst.
  rewrite chars_classSuffix_cons. cbn [length Nat.add app].
  rewrite <- app_assoc.
  rewrite readSubclasses_class; [|exact Hc|apply classSuffix_endsName; exact Ht].
  rewrite IH by assumption. cbn [List.map rev]. rewrite <- app_assoc. reflexivity.
Qed.

Lemma digit_not_space (c : ascii) : isDigit c = true -> isSpace c = false.
Proof. destruct c as [[] [] [] [] [] [] [] []]; vm_compute; congruence. Qed.

Lemma bareIdent_nth : bareIdent "nth-of-type".
Proof. split; [reflexivity|]. repeat constructor. Qed.

Definition openParen : ascii := "(".

Lemma chars_nthOfType (z : Z) :
  chars (nthOfType z)
  = colon :: chars "nth-of-type" ++ openParen :: chars (pretty z) ++ [closeParen].
Proof.
  unfold nthOfType. rewrite !chars_append. reflexivity.
Qed.

Lemma readPseudo_nth (z : Z) (rest : list ascii) :
  (0 < z)%Z ->
  readPseudo (chars "nth-of-type" ++ openParen :: chars (pretty z) ++ closeParen :: rest)
  = Some (SNthOfType (Z.to_nat z), rest).
Proof.
  intros Hz. unfold readPseudo.
  rewrite (readIdent_bare "nth-of-type" _ bareIdent_nth)
    by (split; [reflexivity|discriminate]).
  change (String.eqb (str (toLowerCase (chars "nth-of-type"))) "nth-of-type") with true.
  cbn iota. cbn [expect]. change (Ascii.eqb "(" openParen) with true. cbn iota.
  pose proof (readDigits_pretty z rest Hz) as Hd.
  assert (Hts : trimStart (chars (pretty z) ++ closeParen :: rest)
                = chars (pretty z) ++ closeParen :: rest).
  { destruct (chars (pretty z) ++ closeParen :: rest) as [|c l] eqn:E; [reflexivity|].
    cbn [readDigits] in Hd. destruct (isDigit c) eqn:Hc; [|discriminate].
    cbn [trimStart]. rewrite (digit_not_space c Hc). reflexivity. }
  rewrite Hts, Hd.
  change (trimStart (closeParen :: rest)) with (closeParen :: rest).
  cbn [expect]. change (Ascii.eqb ")" closeParen) with true. reflexivity.
Qed.

Lemma readSubclasses_nth (fuel : nat) (acc : list Simple) (z : Z) (rest : list ascii) :
  (0 < z)%Z ->
  readSubclasses (S fuel) acc (chars (nthOfType z) ++ rest)
  = readSubclasses fuel (SNthOfType (Z.to_nat z) :: acc) rest.
Proof.
  intros Hz. rewrite chars_nthOfType. cbn [app readSubclasses].
  change (Ascii.eqb colon "#") with false. change (Ascii.eqb colon ".") with false.
  change (Ascii.eqb colon "[") with false. change (Ascii.eqb colon ":") with true.
  cbn iota.
  replace ((chars "nth-of-type" ++ openParen :: chars (pretty z) ++ [closeParen]) ++ rest)
    with (chars "nth-of-type" ++ openParen :: chars (pretty z) ++ closeParen :: rest).
  - rewrite (readPseudo_nth z rest Hz). reflexivity.
  - rewrite <- !app_assoc. cbn [app]. rewrite <- app_assoc. reflexivity.
Qed.

Lemma readSubclasses_stop (fuel : nat) (acc : list Simple) (rest : list ascii) :
  okRest rest -> readSubclasses (S fuel) acc rest = Some (rev acc, rest).
Proof. intros [->|(t & ->)]; reflexivity. Qed.

Lemma nthSuffix_endsName (n : option Z) (rest : list ascii) :
  okRest rest -> endsName (chars (nthSuffix n) ++ rest).
Proof.
  intros Hr. destruct n as [z|]; [|apply okRest_endsName; exact Hr].
  cbn [nthSuffix]. rewrite chars_nthOfType. split; [reflexivity|discriminate].
Qed.

(** The subclass selectors of a fragment, read with the fuel they need. *)
Lemma readSubclasses_frag (f : Frag) (fuel : nat) (acc : list Simple) (rest : list ascii) :
  okFrag f -> okRest rest ->
  length (f_classes f) + (match f_nth f with Some _ => 2 | None => 1 end) <= fuel ->
  readSubclasses fuel acc
    (chars (classSuffix (f_classes f)) ++ chars (nthSuffix (f_nth f)) ++ rest)
  = Some (rev acc ++ List.map SClass (f_classes f)
          ++ match f_nth f with
             | Some z => [SNthOfType (Z.to_nat z)]
             | None => []
             end, rest).
Proof.
  intros (_ & Hcs & Hn) Hr Hfuel.
  replace fuel with (length (f_classes f) + (fuel - length (f_classes f))) by lia.
  rewrite readSubclasses_classes; [|exact Hcs|apply nthSuffix_endsName; exact Hr].
  destruct (f_nth f) as [z|].
  - destruct (fuel - length (f_classes f)) as [|[|k]] eqn:Ek; try lia.
    cbn [nthSuffix]. rewrite readSubclasses_nth by (apply Hn; reflexivity).
    rewrite readSubclasses_stop by exact Hr.
    cbn [rev]. rewrite rev_app_distr, rev_involutive, <- app_assoc. reflexivity.
  - destruct (fuel - length (f_classes f)) as [|k] eqn:Ek; try lia.
    cbn [nthSuffix]. change (chars "") with (@nil ascii). cbn [app].
    rewrite readSubclasses_stop by exact Hr.
    rewrite rev_app_distr, rev_involutive, app_nil_r. reflexivity.
Qed.

Lemma classSuffix_length (cs : list string) : length cs <= length (chars (classSuffix cs)).
Proof.
  induction cs as [|c cs IH]; [simpl; lia|].
  rewrite chars_classSuffix_cons. cbn [length]. rewrite length_app. lia.
Qed.

Lemma nthSuffix_length (n : option Z) :
  (match n with Some _ => 1 | None => 0 end) <= length (chars (nthSuffix n)).
Proof.
  destruct n as [z|]; [|simpl; lia]. cbn [nthSuffix]. rewrite chars_nthOfType.
  simpl. lia.
Qed.

Lemma nameStart_not_star (c : ascii) :
  isNameStart c = true -> Ascii.eqb c "*" = false /\ isSpace c = false.
Proof.
  destruct c as [[] [] [] [] [] [] [] []]; vm_compute; intros H; split; congruence.
Qed.

Lemma chars_fragString (f : Frag) :
  chars (fragString f)
  = chars (f_tag f) ++ chars (classSuffix (f_classes f)) ++ chars (nthSuffix (f_nth f)).
Proof. unfold fragString. rewrite !chars_append. reflexivity. Qed.

Lemma fragString_head (f : Frag) (rest : list ascii) :
  okFrag f ->
  exists c t, chars (fragString f) ++ rest = c :: t /\ isNameStart c = true.
Proof.
  intros (Ht & _). rewrite chars_fragString. unfold bareIdent in Ht.
  destruct (chars (f_tag f)) as [|c t]; [contradiction|].
  destruct Ht as [Hc _]. exists c. eexists. split; [reflexivity|exact Hc].
Qed.

(** A fragment is read as the compound selector it denotes. *)
Lemma readCompound_frag (f : Frag) (rest : list ascii) :
  okFrag f -> okRest rest ->
  readCompound (chars (fragString f) ++ rest) = Some (fragAst f, rest).
Proof.
  intros Hf Hr. pose proof Hf as (Ht & Hcs & Hn).
  destruct (fragString_head f rest Hf) as (c & t & Hs & Hc).
  unfold readCompound. rewrite Hs.
  rewrite (proj1 (nameStart_not_star c Hc)). rewrite <- Hs.
  rewrite chars_fragString, <- !app_assoc.
  set (X := chars (classSuffix (f_classes f)) ++ chars (nthSuffix (f_nth f)) ++ rest).
  assert (HX : endsName X).
  { unfold X. apply classSuffix_endsName, nthSuffix_endsName. exact Hr. }
  rewrite (readIdent_bare _ _ Ht HX). cbn [rev app].
  unfold X. rewrite (readSubclasses_frag f _ [SType (f_tag f)] rest Hf Hr).
  - reflexivity.
  - rewrite !length_app.
    pose proof (classSuffix_length (f_classes f)).
    pose proof (nthSuffix_length (f_nth f)).
    destruct (f_nth f); lia.
Qed.

(** *** A path of fragments *)

(** What follows the first fragment of [fragments.join(' > ')]. *)
Definition childTail (fs : list Frag) : list ascii :=
  flat_map (fun f => space :: gt :: space :: chars (fragString f)) fs.

Lemma chars_path (f : Frag) (fs : list Frag) :
  chars (String.concat " > " (List.map fragString (f :: fs)))
  = chars (fragString f) ++ childTail fs.
Proof.
  revert f. induction fs as [|g fs IH]; intros f.
  - cbn [List.map String.concat childTail flat_map]. rewrite app_nil_r. reflexivity.
  - change (String.concat " > " (List.map fragString (f :: g :: fs)))
      with (fragString f +:+ " > " +:+ String.concat " > " (List.map fragString (g :: fs))).
    rewrite !chars_append, IH. reflexivity.
Qed.

Lemma childTail_okRest (fs : list Frag) : okRest (childTail fs).
Proof. destruct fs as [|f fs]; [left; reflexivity|right; eexists; reflexivity]. Qed.

(** The complex selector read so far, extended by a child step. *)
Definition childStep (cur : Complex) (f : Frag) : Complex :=
  mkComplex (fragAst f) ((Child, subject cur) :: leftwards cur).

Lemma readComplex_child (fuel : nat) (cur : Complex) (X : list ascii) :
  readComplex (S fuel) cur (space :: gt :: space :: X)
  = match readCompound (trimStart X) with
    | Some (cp, rest) =>
        readComplex fuel (mkComplex cp ((Child, subject cur) :: leftwards cur)) rest
    | None => None
    end.
Proof.
  cbn [readComplex].
  change (trimStart (space :: gt :: space :: X)) with (gt :: space :: X).
  cbn iota. change (Ascii.eqb gt ",") with false. change (Ascii.eqb gt ">") with true.
  cbn iota. change (trimStart (space :: X)) with (trimStart X). reflexivity.
Qed.

Lemma readComplex_path (fs : list Frag) : forall fuel cur,
  Forall okFrag fs -> length fs < fuel ->
  readComplex fuel cur (childTail fs) = Some (fold_left childStep fs cur, []).
Proof.
  induction fs as [|f fs IH]; intros fuel cur HF Hfuel.
  - destruct fuel; [lia|]. reflexivity.
  - inversion HF as [|? ? Hf HF']; subst.
    destruct fuel as [|fuel]; [simpl in Hfuel; lia|].
    cbn [childTail flat_map]. fold (childTail fs).
    destruct (fragString_head f (childTail fs) Hf) as (c & t & Hs & Hc).
    cbn [app]. rewrite readComplex_child.
    rewrite Hs. cbn [trimStart]. rewrite (proj2 (nameStart_not_star c Hc)). rewrite <- Hs.
    rewrite (readCompound_frag f (childTail fs) Hf (childTail_okRest fs)).
    rewrite IH; [reflexivity|exact HF'|simpl in Hfuel; lia].
Qed.

Lemma childTail_length (fs : list Frag) : length fs <= length (childTail fs).
Proof.
  induction fs as [|f fs IH]; [simpl; lia|].
  change (childTail (f :: fs))
    with (space :: gt :: space :: chars (fragString f) ++ childTail fs).
  cbn [length]. rewrite length_app. lia.
Qed.

(** The selector that a path of fragments denotes: the last fragment is
    the subject, the others are its ancestors by child steps. *)
Definition pathAst (f : Frag) (fs : list Frag) : Complex :=
  fold_left childStep fs (mkComplex (fragAst f) []).

(** A path of fragments joined by [' > '] is read as that selector. *)
Lemma parseSelector_path (f : Frag) (fs : list Frag) :
  Forall okFrag (f :: fs) ->
  parseSelector (String.concat " > " (List.map fragString (f :: fs)))
  = Some [pathAst f fs].
Proof.
  intros HF. inversion HF as [|? ? Hf HF']; subst.
  unfold parseSelector. rewrite chars_path. cbn [readList].
  destruct (fragString_head f (childTail fs) Hf) as (c & t & Hs & Hc).
  assert (Hts : trimStart (chars (fragString f) ++ childTail fs)
                = chars (fragString f) ++ childTail fs).
  { rewrite Hs. cbn [trimStart]. rewrite (proj2 (nameStart_not_star c Hc)). reflexivity. }
  rewrite Hts, (readCompound_frag f (childTail fs) Hf (childTail_okRest fs)).
  rewrite readComplex_path; [reflexivity|exact HF'|].
  pose proof (childTail_length fs). lia.
Qed.

End FragmentFacts.

(* ===================================================================== *)
(** ** What a synthesized path matches                                    *)
(* ===================================================================== *)

Section PathFacts.

Import ContentScript.

Variable r : Root.

(** The rank of the element at child index [i] among the children of its
    type, as [indexOf] counts it and as [:nth-of-type] does. *)
Lemma indexOf_typeRank (e : ElemData) (l : list Node) :
  forall (i off : nat) (k : Z) ch sr fc,
    l !! i = Some (Element e ch sr fc) ->
    indexOf_from k (off + i)
      (List.filter (fun s => String.eqb (tag (snd s)) (tag e)) (elementChildren_from off l))
    = (k + Z.of_nat (typeRank (tag e) i l) - 1)%Z.
Proof.
  induction l as [|n l IH]; intros i off k ch sr fc Hi; [discriminate|].
  destruct i as [|i].
  - simpl in Hi. injection Hi as ->. cbn [elementChildren_from List.filter snd].
    rewrite String.eqb_refl. cbn [indexOf_from]. rewrite Nat.add_0_r, Nat.eqb_refl.
    cbn [typeRank]. lia.
  - simpl in Hi. destruct n as [e' ch' sr' fc'|d].
    + cbn [elementChildren_from List.filter snd typeRank].
      replace (off + S i) with (S off + i) by lia.
      destruct (String.eqb (tag e') (tag e)) eqn:Ht.
      * cbn [indexOf_from]. destruct (Nat.eqb_spec (S off + i) off) as [Heq|_]; [lia|].
        rewrite (IH i (S off) (k + 1)%Z ch sr fc Hi). lia.
      * rewrite (IH i (S off) k ch sr fc Hi). lia.
    + cbn [elementChildren_from typeRank].
      replace (off + S i) with (S off + i) by lia.
      apply (IH i (S off) k ch sr fc Hi).
Qed.

Lemma typeRank_positive (t : string) (i : nat) (l : list Node) : 1 <= typeRank t i l.
Proof.
  revert l. induction i as [|i IH]; intros l; [simpl; lia|].
  destruct l as [|[e ch sr fc|d] l]; cbn [typeRank]; [lia| |apply IH].
  pose proof (IH l). lia.
Qed.

(** The fragment written for the element [e] at [parent ++ [i]]. *)
Definition nthOf (parent : Loc) (i : nat) (e : ElemData) : option Z :=
  let siblings := sameTagSiblings r parent e in
  if (1 <? length siblings)%nat then Some (indexOf i siblings + 1)%Z else None.

Definition lowerTag (e : ElemData) : Prop :=
  str (toLowerCase (chars (tag e))) = tag e.

Lemma elemAt_child (parent : Loc) (i : nat) (e : ElemData) :
  elemAt r (parent ++ [i]) = Some e ->
  exists ch sr fc, childNodesAt r parent !! i = Some (Element e ch sr fc).
Proof.
  unfold elemAt. rewrite nodeAt_snoc.
  destruct (childNodesAt r parent !! i) as [[e' ch sr fc|d]|]; try discriminate.
  intros H. injection H as ->. eauto.
Qed.

Lemma nthOf_rank (parent : Loc) (i : nat) (e : ElemData) (z : Z) :
  elemAt r (parent ++ [i]) = Some e -> nthOf parent i e = Some z ->
  (0 < z)%Z /\ Z.to_nat z = typeRank (tag e) i (childNodesAt r parent).
Proof.
  intros He Hn. destruct (elemAt_child _ _ _ He) as (ch & sr & fc & Hi).
  unfold nthOf in Hn. destruct (1 <? _)%nat; [|discriminate]. injection Hn as <-.
  unfold indexOf, sameTagSiblings, elementChildren.
  pose proof (indexOf_typeRank e _ i 0 0%Z ch sr fc Hi) as H. cbn [Nat.add] in H.
  rewrite H. pose proof (typeRank_positive (tag e) i (childNodesAt r parent)). lia.
Qed.

(** An element matches the fragment written for it. *)
Lemma matches_own_fragment (parent : Loc) (i : nat) (e : ElemData) (n : option Z) :
  elemAt r (parent ++ [i]) = Some e -> lowerTag e ->
  n = None \/ n = nthOf parent i e ->
  matchesCompound r (parent ++ [i]) (fragAst (mkFrag (tag e) (classList e) n)) = true.
Proof.
  intros He Hlow Hn. unfold matchesCompound. rewrite He.
  unfold fragAst. cbn [f_tag f_classes f_nth forallb matchesSimple].
  rewrite Hlow, String.eqb_refl. cbn [andb].
  rewrite forallb_app. apply andb_true_iff. split.
  - apply forallb_forall. intros s Hs. apply in_map_iff in Hs.
    destruct Hs as (c & <- & Hc). cbn [matchesSimple].
    apply bool_decide_eq_true. apply list_elem_of_In. exact Hc.
  - destruct n as [z|]; [|reflexivity].
    destruct Hn as [Hn|Hn]; [discriminate|].
    destruct (nthOf_rank parent i e z He (eq_sym Hn)) as [_ Hz].
    cbn [forallb matchesSimple]. rewrite List.last_last, removelast_last, Hz.
    rewrite Nat.eqb_refl. reflexivity.
Qed.

(** *** Chains of fragments *)

(** [fs] are fragments for the elements from a child of [top] down to
    [loc], each matching its element. *)
Fixpoint chainBelow (top loc : Loc) (fs : list Frag) : Prop :=
  match fs with
  | [] => top = loc
  | g :: rest =>
      exists i, matchesCompound r (top ++ [i]) (fragAst g) = true
                /\ chainBelow (top ++ [i]) loc rest
  end.

Lemma parentElement_snoc (top : Loc) (i : nat) :
  top <> [] -> parentElement (top ++ [i]) = Some top.
Proof.
  intros Hne. unfold parentElement. rewrite removelast_last.
  destruct top; [contradiction|reflexivity].
Qed.

Lemma matchesCompound_nonempty (loc : Loc) (c : Compound) :
  matchesCompound r loc c = true -> loc <> [].
Proof. unfold matchesCompound. intros H ->. discriminate. Qed.

Lemma chain_matches (fs : list Frag) : forall top cur loc,
  matchesComplex r top cur = true ->
  chainBelow top loc fs ->
  matchesComplex r loc (fold_left childStep fs cur) = true.
Proof.
  induction fs as [|g fs IH]; intros top cur loc Hcur Hch.
  - simpl in Hch. subst loc. exact Hcur.
  - destruct Hch as (i & Hg & Hrest). cbn [fold_left].
    apply (IH (top ++ [i])); [|exact Hrest].
    unfold matchesComplex, childStep. cbn [subject leftwards matchesLeftwards].
    rewrite Hg. cbn [andb].
    assert (Htop : top <> []).
    { apply andb_true_iff in Hcur. destruct Hcur as [Hc _].
      eapply matchesCompound_nonempty. exact Hc. }
    rewrite (parentElement_snoc top i Htop). exact Hcur.
Qed.

(** A chain that starts with the fragment of [top] itself. *)
Definition chainFrom (top loc : Loc) (f : Frag) (fs : list Frag) : Prop :=
  matchesCompound r top (fragAst f) = true /\ chainBelow top loc fs.

Lemma chainFrom_matches (top loc : Loc) (f : Frag) (fs : list Frag) :
  chainFrom top loc f fs -> matchesComplex r loc (pathAst f fs) = true.
Proof.
  intros [Hf Hch]. unfold pathAst. apply (chain_matches fs top); [|exact Hch].
  unfold matchesComplex. cbn [subject leftwards matchesLeftwards].
  rewrite Hf. reflexivity.
Qed.

End PathFacts.

(* ===================================================================== *)
(** ** The path written by [uniqueSelector]                               *)
(* ===================================================================== *)

Section UniqueSelectorPath.

Import ContentScript.

(** An element whose tag is a lower-case identifier and whose class
    names and id contain no NUL. *)
Definition plainlyMarked (e : ElemData) : Prop :=
  bareIdent (tag e) /\ lowerTag e /\ Forall wellFormedName (classList e)
  /\ Forall nonNull (chars (Dom.id e)).

Definition plainlyMarkedb (e : ElemData) : bool :=
  match chars (tag e) with
  | [] => false
  | c :: t => isNameStart c && forallb isNameChar t
  end
  && String.eqb (str (toLowerCase (chars (tag e)))) (tag e)
  && forallb (fun c => truthy (chars c)
                       && forallb (fun a => negb (nat_of_ascii a =? 0)%nat) (chars c))
             (classList e)
  && forallb (fun a => negb (nat_of_ascii a =? 0)%nat) (chars (Dom.id e)).

Lemma nonNull_forallb (l : list ascii) :
  forallb (fun a => negb (nat_of_ascii a =? 0)%nat) l = true -> Forall nonNull l.
Proof.
  intros H. apply Forall_forall. intros a Ha.
  apply list_elem_of_In in Ha.
  pose proof (proj1 (forallb_forall _ _) H a Ha) as Hb.
  apply negb_true_iff, Nat.eqb_neq in Hb. exact Hb.
Qed.

Lemma plainlyMarkedb_spec (e : ElemData) : plainlyMarkedb e = true -> plainlyMarked e.
Proof.
  unfold plainlyMarkedb, plainlyMarked, bareIdent, lowerTag. intros H.
  apply andb_true_iff in H. destruct H as [H Hid].
  apply andb_true_iff in H. destruct H as [H Hcls].
  apply andb_true_iff in H. destruct H as [Htag Hlow].
  split; [|split; [|split]].
  - destruct (chars (tag e)) as [|c t]; [discriminate|].
    apply andb_true_iff in Htag. destruct Htag as [Hc Ht]. split; [exact Hc|].
    apply Forall_forall. intros d Hd. apply list_elem_of_In in Hd.
    exact (proj1 (forallb_forall _ _) Ht d Hd).
  - apply String.eqb_eq. exact Hlow.
  - apply Forall_forall. intros c Hc. apply list_elem_of_In in Hc.
    pose proof (proj1 (forallb_forall _ _) Hcls c Hc) as Hb.
    apply andb_true_iff in Hb. destruct Hb as [Hne Hnul]. split.
    + intros ->. discriminate.
    + apply nonNull_forallb. exact Hnul.
  - apply nonNull_forallb. exact Hid.
Qed.

(** Every element of the root is plainly marked. *)
Definition wellMarked (r : Root) : Prop :=
  forall l e, elemAt r l = Some e -> plainlyMarked e.

Definition wellMarkedb (r : Root) : bool :=
  forallb (fun l => match elemAt r l with
                    | Some e => plainlyMarkedb e
                    | None => true
                    end) (allElements r).

Lemma wellMarkedb_spec (r : Root) : wellMarkedb r = true -> wellMarked r.
Proof.
  intros H l e He. apply plainlyMarkedb_spec.
  pose proof (allElements_complete r l e He) as Hin.
  apply list_elem_of_In in Hin.
  pose proof (proj1 (forallb_forall _ _) H l Hin) as Hb. simpl in Hb.
  rewrite He in Hb. exact Hb.
Qed.

Variable r : Root.
Hypothesis marked : wellMarked r.



Lemma string_eq_chars (a b : string) : chars a = chars b -> a = b.
Proof. intros H. rewrite <- (str_chars_id a), <- (str_chars_id b), H. reflexivity. Qed.


Lemma append_empty (s : string) : s +:+ "" = s.
Proof. apply string_eq_chars. rewrite chars_append. apply app_nil_r. Qed.







End UniqueSelectorPath.


(* ===================================================================== *)
(** ** The path written by [buildUniqueSelector]                          *)
(* ===================================================================== *)

Section BuildSelectorPath.

Import PageScanner.

Variable r : Root.
Hypothesis marked : wellMarked r.

(** The fragment of [buildUniqueSelector] for the element at
    [rev (i :: rparent)]. *)
Definition buildFrag (i : nat) (rparent : list nat) (e : ElemData) : Frag :=
  mkFrag (tag e) (classList e)
         (match rparent with
          | [] => None
          | _ :: _ => nthOf r (rev rparent) i e
          end).

Fixpoint buildFrags (rcurrent : list nat) (acc : list Frag) : list Frag :=
  match rcurrent with
  | [] => acc
  | i :: rparent =>
      match elemAt r (rev rcurrent) with
      | None => acc
      | Some e => buildFrags rparent (buildFrag i rparent e :: acc)
      end
  end.

Lemma chars_dotJoin (c : string) (cs : list string) :
  chars ("." +:+ String.concat "." (List.map cssEscape (c :: cs)))
  = chars (classSuffix (c :: cs)).
Proof.
  revert c. induction cs as [|d cs IH]; intros c.
  - rewrite chars_classSuffix_cons. cbn [List.map String.concat].
    rewrite chars_append. change (chars (classSuffix [])) with (@nil ascii).
    rewrite app_nil_r. reflexivity.
  - rewrite chars_classSuffix_cons, <- IH.
    change (String.concat "." (List.map cssEscape (c :: d :: cs)))
      with (cssEscape c +:+ "." +:+ String.concat "." (List.map cssEscape (d :: cs))).
    rewrite !chars_append. reflexivity.
Qed.

Lemma part_fragString (e : ElemData) (n : option Z) :
  (if (0 <? length (classList e))%nat
   then tag e +:+ "." +:+ String.concat "." (List.map cssEscape (classList e))
   else tag e) +:+ nthSuffix n
  = fragString (mkFrag (tag e) (classList e) n).
Proof.
  apply string_eq_chars. rewrite chars_fragString. cbn [f_tag f_classes f_nth].
  destruct (classList e) as [|c cs].
  - cbn [length Nat.ltb Nat.leb]. rewrite chars_append. reflexivity.
  - cbn [length Nat.ltb Nat.leb]. rewrite !chars_append, <- app_assoc.
    f_equal. f_equal. rewrite <- chars_dotJoin, chars_append. reflexivity.
Qed.

Lemma build_strings (rcurrent : list nat) : forall acc,
  buildUniqueSelector_walk r rcurrent (List.map fragString acc)
  = List.map fragString (buildFrags rcurrent acc).
Proof.
  induction rcurrent as [|i rparent IH]; intros acc; [reflexivity|].
  cbn [buildUniqueSelector_walk buildFrags].
  destruct (elemAt r (rev (i :: rparent))) as [e|]; [|reflexivity].
  rewrite <- IH. f_equal. cbn [List.map]. f_equal.
  unfold buildFrag. destruct rparent as [|j rp].
  - rewrite <- (part_fragString e None). cbn [nthSuffix]. rewrite append_empty.
    reflexivity.
  - rewrite <- (part_fragString e (nthOf r (rev (j :: rp)) i e)). unfold nthOf.
    destruct (1 <? length (sameTagSiblings r (rev (j :: rp)) e))%nat; cbn [nthSuffix].
    + reflexivity.
    + rewrite append_empty. reflexivity.
Qed.

Lemma buildFrag_ok (i : nat) (rparent : list nat) (e : ElemData) :
  elemAt r (rev (i :: rparent)) = Some e -> okFrag (buildFrag i rparent e).
Proof.
  intros He. destruct (marked _ e He) as (Htag & _ & Hcls & _).
  split; [exact Htag|]. split; [exact Hcls|].
  intros z Hz. unfold buildFrag in Hz. cbn [f_nth] in Hz.
  destruct rparent as [|j rp]; [discriminate|]. cbn [rev] in He.
  exact (proj1 (nthOf_rank r _ _ _ _ He Hz)).
Qed.

Lemma buildFrags_ok (rcurrent : list nat) : forall acc,
  Forall okFrag acc -> Forall okFrag (buildFrags rcurrent acc).
Proof.
  induction rcurrent as [|i rparent IH]; intros acc Hacc; [exact Hacc|].
  cbn [buildFrags]. destruct (elemAt r (rev (i :: rparent))) as [e|] eqn:He; [|exact Hacc].
  apply IH. constructor; [|exact Hacc]. apply buildFrag_ok. exact He.
Qed.

Lemma buildFrags_chain (loc : Loc) (rcurrent : list nat) : forall acc,
  chainBelow r (rev rcurrent) loc acc ->
  match buildFrags rcurrent acc with
  | [] => True
  | f :: fs => exists top, chainFrom r top loc f fs
  end.
Proof.
  induction rcurrent as [|i rparent IH]; intros acc Hacc.
  - cbn [buildFrags]. destruct acc as [|g rest]; [exact I|].
    destruct Hacc as (j & Hg & Hrest). eexists. split; eassumption.
  - cbn [buildFrags].
    destruct (elemAt r (rev (i :: rparent))) as [e|] eqn:He.
    + destruct (marked _ e He) as (_ & Hlow & _). cbn [rev] in He, Hacc.
      apply IH. exists i. split; [|exact Hacc].
      unfold buildFrag. apply matches_own_fragment; [exact He|exact Hlow|].
      destruct rparent; [left|right]; reflexivity.
    + destruct acc as [|g rest]; [exact I|].
      destruct Hacc as (j & Hg & Hrest). eexists. split; eassumption.
Qed.

Lemma buildFrags_keeps (rcurrent : list nat) : forall acc,
  acc <> [] -> buildFrags rcurrent acc <> [].
Proof.
  induction rcurrent as [|i rparent IH]; intros acc Hacc; [exact Hacc|].
  cbn [buildFrags]. destruct (elemAt r (rev (i :: rparent))); [|exact Hacc].
  apply IH. discriminate.
Qed.

(** X23. In a root whose elements have lower-case identifiers as tags and no
    NUL in class names and ids, [buildUniqueSelector] writes for every
    element a valid selector that matches the element. *)
Theorem buildUniqueSelector_matches_element (loc : Loc) (e : ElemData) :
  elemAt r loc = Some e ->
  exists matches, querySelectorAll r (buildUniqueSelector r loc) = Ok matches
                  /\ loc ∈ matches.
Proof.
  intros He. unfold buildUniqueSelector. rewrite He.
  destruct (truthy (chars (Dom.id e))) eqn:Ht.
  - assert (Hne : Dom.id e <> "") by (intros Heq; rewrite Heq in Ht; discriminate).
    exists (selectAll r [mkComplex [SId (Dom.id e)] []]). split.
    + unfold querySelectorAll.
      rewrite parseSelector_id
        by (split; [exact Hne|exact (proj2 (proj2 (proj2 (marked _ e He))))]).
      reflexivity.
    + apply selectAll_id. exists e. split; [exact He|].
      unfold Dom.id, attrOrEmpty in *.
      destruct (getAttribute e "id"); [reflexivity|contradiction].
  - change (@nil string) with (List.map fragString []). rewrite build_strings.
    pose proof (buildFrags_ok (rev loc) [] ltac:(constructor)) as Hok.
    pose proof (buildFrags_chain loc (rev loc) []) as Hch.
    rewrite rev_involutive in Hch. specialize (Hch eq_refl).
    assert (Hne : buildFrags (rev loc) [] <> []).
    { destruct (rev loc) as [|i rparent] eqn:Er.
      - apply (f_equal (@rev nat)) in Er. rewrite rev_involutive in Er. subst loc.
        discriminate.
      - cbn [buildFrags]. rewrite <- Er, rev_involutive, He.
        apply buildFrags_keeps. discriminate. }
    destruct (buildFrags (rev loc) []) as [|f fs]; [contradiction|].
    destruct Hch as (top & Hchain).
    exists (selectAll r [pathAst f fs]). split.
    + unfold querySelectorAll. rewrite (parseSelector_path f fs Hok). reflexivity.
    + unfold selectAll. apply list_elem_of_In, filter_In. split.
      * apply list_elem_of_In. eapply allElements_complete. exact He.
      * cbn [existsb]. rewrite (chainFrom_matches r top loc f fs Hchain). reflexivity.
Qed.

End BuildSelectorPath.

Lemma buildUniqueSelector_matches_element_witness :
  exists matches,
    querySelectorAll Samples.rowsShadow
                     (PageScanner.buildUniqueSelector Samples.rowsShadow [1; 0])
    = Ok matches
    /\ [1; 0] ∈ matches.
Proof.
  refine (buildUniqueSelector_matches_element Samples.rowsShadow _ [1; 0]
            (mkElem "input" [] false) _).
  - apply wellMarkedb_spec. vm_compute. reflexivity.
  - reflexivity.
Defined.

(* ===================================================================== *)
(** ** What the deep query returns                                        *)
(* ===================================================================== *)

Section DeepQueryResults.

Import ContentScript.

Variable document : Root.

(** A context of the page, reached by [k] crossings. *)
Definition contextAt (k : nat) (c : Context) : Prop :=
  rootAt document (fst c) = Some (snd c) /\ length (fst c) = k.

Lemma nextRoot_inPage (k : nat) (ctx c' : Context) (loc : Loc) :
  contextAt k ctx -> nextRoot ctx loc = Some c' -> contextAt (S k) c'.
Proof.
  intros [Hr Hk] H. unfold nextRoot in H.
  destruct (nodeAt (snd ctx) loc) as [n|] eqn:Hn; [|discriminate].
  destruct (if _ && _ then contentDocumentOf n else None) as [d|] eqn:Hd.
  - injection H as <-. split; cbn [fst snd].
    + eapply (rootAt_snoc _ _ _ loc FrameB n d Hr Hn).
      destruct (_ && _); [exact Hd|discriminate].
    + rewrite length_app. simpl. lia.
  - destruct (shadowRootOf n) as [sr|] eqn:Hs; [|discriminate].
    injection H as <-. split; cbn [fst snd].
    + exact (rootAt_snoc _ _ _ loc ShadowB n sr Hr Hn Hs).
    + rewrite length_app. simpl. lia.
Qed.

Lemma boundariesOf_inPage (k : nat) (cands : list (Context * Loc)) :
  Forall (fun c => contextAt k (fst c)) cands ->
  Forall (contextAt (S k)) (boundariesOf cands).
Proof.
  induction cands as [|c cands IH]; intros HF; [constructor|].
  inversion HF as [|? ? Hc HF']; subst.
  unfold boundariesOf. cbn [flat_map]. apply Forall_app. split; [|apply IH; exact HF'].
  destruct (nextRoot (fst c) (snd c)) as [c'|] eqn:Hn; [|constructor].
  constructor; [|constructor]. eapply nextRoot_inPage; eassumption.
Qed.

Lemma candidates_elem (ctxs : list Context) (sel : SelectorList) (c : Context * Loc) :
  c ∈ candidates ctxs sel <-> fst c ∈ ctxs /\ snd c ∈ selectAll (snd (fst c)) sel.
Proof.
  unfold candidates. rewrite list_elem_of_In, in_flat_map. split.
  - intros (ctx & Hctx & Hc). apply in_map_iff in Hc. destruct Hc as (loc & <- & Hloc).
    cbn [fst snd]. split; apply list_elem_of_In; assumption.
  - intros [Hctx Hloc]. exists (fst c). split; [apply list_elem_of_In; exact Hctx|].
    apply in_map_iff. exists (snd c). split; [destruct c; reflexivity|].
    apply list_elem_of_In. exact Hloc.
Qed.

Lemma candidates_inPage (k : nat) (ctxs : list Context) (sel : SelectorList) :
  Forall (contextAt k) ctxs ->
  Forall (fun c => contextAt k (fst c)) (candidates ctxs sel).
Proof.
  intros HF. apply Forall_forall. intros c Hc. apply candidates_elem in Hc.
  exact (proj1 (Forall_forall _ _) HF _ (proj1 Hc)).
Qed.

(** A part that was evaluated in some context is a selector. *)
Lemma eachContext_Ok (part : string) (isLast : bool) (ctxs : list Context)
    (res : list DeepNode) :
  ctxs <> [] -> eachContext part isLast ctxs [] = Ok res ->
  exists sel, parsesTo part sel
              /\ res = if isLast
                       then List.map ElementNode (List.map refOf (candidates ctxs sel))
                       else List.map RootNode (boundariesOf (candidates ctxs sel)).
Proof.
  intros Hne H. destruct (parseSelector part) as [sel|] eqn:Hp.
  - exists sel. split; [exact Hp|].
    rewrite (eachContext_spec part sel isLast Hp ctxs []) in H.
    injection H as <-. reflexivity.
  - exfalso. destruct ctxs as [|ctx ctxs]; [contradiction|].
    cbn [eachContext] in H. unfold querySelectorAll in H. rewrite Hp in H. discriminate.
Qed.

Lemma selectAll_element (r : Root) (sel : SelectorList) (loc : Loc) :
  loc ∈ selectAll r sel -> exists e, elemAt r loc = Some e.
Proof.
  unfold selectAll. rewrite list_elem_of_In, filter_In. intros [_ Hm].
  apply existsb_exists in Hm. destruct Hm as (cx & _ & Hm).
  unfold matchesComplex, matchesCompound in Hm.
  destruct (elemAt r loc) as [e|]; [eauto|discriminate].
Qed.

(** What holds of a result of the loop that started with contexts [k]
    crossings deep. *)
Definition resultOf (parts : list string) (k : nat) (x : Ref) : Prop :=
  exists lastPart sel r e,
    last parts = Some lastPart
    /\ parseSelector lastPart = Some sel
    /\ rootAt document (fst x) = Some r
    /\ snd x ∈ selectAll r sel
    /\ elemAt r (snd x) = Some e
    /\ S (length (fst x)) = k + length parts.

Lemma queryDeepAll_loop_results (parts : list string) : forall ctxs k l x,
  Forall (contextAt k) ctxs ->
  queryDeepAll_loop parts ctxs = Ok l -> x ∈ l -> resultOf parts k x.
Proof.
  induction parts as [|part rest IH]; intros ctxs k l x HF H Hx.
  - cbn [queryDeepAll_loop] in H. injection H as <-. inversion Hx.
  - cbn [queryDeepAll_loop] in H.
    destruct ctxs as [|ctx0 ctxs0] eqn:Ectx.
    { cbn [eachContext bind length Nat.eqb] in H. injection H as <-. inversion Hx. }
    rewrite <- Ectx in *.
    destruct (eachContext part (match rest with [] => true | _ => false end) ctxs [])
      as [next|] eqn:He; cbn [bind] in H; [|discriminate].
    apply eachContext_Ok in He; [|rewrite Ectx; discriminate].
    destruct He as (sel & Hp & Hnext).
    destruct (length next =? 0)%nat; [injection H as <-; inversion Hx|].
    destruct rest as [|part' rest'].
    + injection H as <-. subst next. rewrite elementNodes_map in Hx.
      apply list_elem_of_In, in_map_iff in Hx. destruct Hx as (c & <- & Hc).
      apply list_elem_of_In, candidates_elem in Hc. destruct Hc as [Hctx Hloc].
      destruct (proj1 (Forall_forall _ _) HF _ Hctx) as [Hr Hk].
      destruct (selectAll_element _ _ _ Hloc) as (e & Hel).
      exists part, sel, (snd (fst c)), e. unfold refOf. cbn [fst snd length last].
      repeat split; try assumption. lia.
    + subst next. rewrite rootNodes_map in H.
      pose proof (boundariesOf_inPage k _ (candidates_inPage k ctxs sel HF)) as HF'.
      destruct (IH _ (S k) l x HF' H Hx) as (lp & sel' & r & e & Hl & Hps & Hr & Hin & Hel & Hlen).
      exists lp, sel', r, e. repeat split; try assumption.
      cbn [length] in *. lia.
Qed.

(** X24. Every element that [queryDeepAll] returns is an element of the
    page that matches the last part of the deep selector in its document
    or shadow root, and lies behind as many boundaries as the deep
    selector has parts before the last. *)
Theorem queryDeepAll_results_sound (deepSelector : string) (l : list Ref) (x : Ref) :
  queryDeepAll document deepSelector = Ok l -> x ∈ l ->
  exists lastPart sel r e,
    last (deepParts deepSelector) = Some lastPart
    /\ parseSelector lastPart = Some sel
    /\ rootAt document (fst x) = Some r
    /\ snd x ∈ selectAll r sel
    /\ elemOf document x = Some e
    /\ S (crossings x) = length (deepParts deepSelector).
Proof.
  unfold queryDeepAll. intros H Hx.
  destruct (length (deepParts deepSelector) =? 0)%nat;
    [injection H as <-; inversion Hx|].
  assert (HF : Forall (contextAt 0) [([], document)]).
  { constructor; [|constructor]. split; reflexivity. }
  destruct (queryDeepAll_loop_results _ _ 0 l x HF H Hx)
    as (lp & sel & r & e & Hl & Hp & Hr & Hin & Hel & Hlen).
  exists lp, sel, r, e. unfold elemOf, crossings. rewrite Hr.
  repeat split; assumption.
Qed.

End DeepQueryResults.

Lemma queryDeepAll_results_sound_witness :
  exists lastPart sel r e,
    last (ContentScript.deepParts "host >>> input[name=x]") = Some lastPart
    /\ parseSelector lastPart = Some sel
    /\ rootAt Samples.namedShadowPage [([0; 1; 0], ShadowB)] = Some r
    /\ [0] ∈ selectAll r sel
    /\ elemOf Samples.namedShadowPage ([([0; 1; 0], ShadowB)], [0]) = Some e
    /\ S (crossings ([([0; 1; 0], ShadowB)], [0]))
       = length (ContentScript.deepParts "host >>> input[name=x]").
Proof.
  apply (queryDeepAll_results_sound Samples.namedShadowPage "host >>> input[name=x]"
           [([([0; 1; 0], ShadowB)], [0])] ([([0; 1; 0], ShadowB)], [0])).
  - vm_compute. reflexivity.
  - left.
Defined.

(* ===================================================================== *)
(** ** No element is scanned twice                                        *)
(* ===================================================================== *)

Section ScanOnceFacts.

Import ContentScript.

Variable cfg : Config.
Variable document : Root.

(** The node that an entry was captured from. *)
Definition refKey (c : Captured) : NodeKey :=
  keyOf (fst (elementRef c)) (snd (elementRef c)).

Definition keysOf (l : list Captured) : list NodeKey := List.map refKey l.

(** The entries are distinct nodes at or below [key]. *)
Definition tidy (key : NodeKey) (l : list Captured) : Prop :=
  NoDup (keysOf l) /\ under key (keysOf l).

(** The entries lie below [key] by a step that satisfies [P]. *)
Definition beyond (P : Step -> Prop) (key : NodeKey) (l : list Captured) : Prop :=
  forall k, k ∈ keysOf l -> exists a, P a /\ (key ++ [a]) `prefix_of` k.

Lemma keysOf_app (l1 l2 : list Captured) : keysOf (l1 ++ l2) = keysOf l1 ++ keysOf l2.
Proof. apply map_app. Qed.

Lemma beyond_under (P : Step -> Prop) (key : NodeKey) (l : list Captured) :
  beyond P key l -> under key (keysOf l).
Proof.
  intros H k Hk. destruct (H k Hk) as (a & _ & Hp).
  etransitivity; [|exact Hp]. apply prefix_app_r. reflexivity.
Qed.

Lemma beyond_app (P : Step -> Prop) (key : NodeKey) (l1 l2 : list Captured) :
  beyond P key l1 -> beyond P key l2 -> beyond P key (l1 ++ l2).
Proof.
  intros H1 H2 k Hk. rewrite keysOf_app in Hk. apply elem_of_app in Hk.
  destruct Hk; auto.
Qed.

Lemma beyond_weaken (P Q : Step -> Prop) (key : NodeKey) (l : list Captured) :
  (forall a, P a -> Q a) -> beyond P key l -> beyond Q key l.
Proof. intros HPQ H k Hk. destruct (H k Hk) as (a & Ha & Hp). eauto. Qed.

Lemma under_beyond (key : NodeKey) (a : Step) (l : list Captured) :
  under (key ++ [a]) (keysOf l) -> beyond (fun b => b = a) key l.
Proof. intros H k Hk. exists a. split; [reflexivity|apply H; exact Hk]. Qed.

Lemma NoDup_beyond_app (P Q : Step -> Prop) (key : NodeKey) (l1 l2 : list Captured) :
  (forall a, P a -> Q a -> False) ->
  NoDup (keysOf l1) -> NoDup (keysOf l2) ->
  beyond P key l1 -> beyond Q key l2 ->
  NoDup (keysOf (l1 ++ l2)).
Proof.
  intros Hdis N1 N2 B1 B2. rewrite keysOf_app. apply NoDup_app.
  split; [exact N1|]. split; [|exact N2].
  intros k H1 H2. destruct (B1 k H1) as (a & Ha & Hpa).
  destruct (B2 k H2) as (b & Hb & Hpb).
  pose proof (steps_apart _ _ _ _ Hpa Hpb). subst b. eauto.
Qed.

(** The entries of the nodes of a list, each below its own child step. *)
Lemma concat_tidy (f : nat -> Node -> list Captured) (base : NodeKey) (l : list Node) :
  forall i0,
    (forall j n, l !! j = Some n ->
                 tidy (base ++ [ChildStep (i0 + j)]) (f (i0 + j) n)) ->
    NoDup (keysOf (concatMapi f i0 l))
    /\ beyond (fun a => exists j, i0 <= j /\ a = ChildStep j) base (concatMapi f i0 l).
Proof.
  induction l as [|n l IH]; intros i0 Hf.
  - split; [constructor|]. intros k Hk. inversion Hk.
  - cbn [concatMapi].
    destruct (Hf 0 n eq_refl) as [N0 U0]. rewrite Nat.add_0_r in N0, U0.
    destruct (IH (S i0)) as [N1 B1].
    { intros j m Hj. specialize (Hf (S j) m Hj). rewrite Nat.add_succ_r in Hf. exact Hf. }
    pose proof (under_beyond _ _ _ U0) as B0.
    split.
    + eapply NoDup_beyond_app; [|exact N0|exact N1|exact B0|exact B1].
      intros a -> (j & Hj & Heq). injection Heq as <-. lia.
    + apply beyond_app.
      * eapply beyond_weaken; [|exact B0]. intros a ->. exists i0. split; [lia|reflexivity].
      * eapply beyond_weaken; [|exact B1]. intros a (j & Hj & ->). exists j. split; [lia|reflexivity].
Qed.

Definition tidyNode (node : Node) : Prop :=
  forall depth cp r pathParts loc,
    tidy (keyOf cp loc) (collectNode cfg document node depth cp r pathParts loc).

Lemma boundary_tidy (b : Boundary) (inner : option Root) (depth : nat) (cp : CtxPath)
    (r : Root) (pathParts : list string) (loc : Loc) :
  Forall tidyNode (default [] inner) ->
  NoDup (keysOf (boundaryFields cfg document b inner depth cp r pathParts loc))
  /\ beyond (fun a => a = boundaryStep b) (keyOf cp loc)
            (boundaryFields cfg document b inner depth cp r pathParts loc).
Proof.
  intros HF. unfold boundaryFields.
  assert (Hnil : NoDup (keysOf []) /\ beyond (fun a => a = boundaryStep b) (keyOf cp loc) []).
  { split; [constructor|]. intros k Hk. inversion Hk. }
  destruct inner as [sr|]; [|exact Hnil].
  destruct (maxDepth cfg <? S depth)%nat; [exact Hnil|].
  simpl in HF.
  destruct (concat_tidy
              (fun i c => collectNode cfg document c (S (S depth)) (cp ++ [(loc, b)]) sr
                                      (pathParts ++ [uniqueSelector r loc]) [i])
              (keyOf (cp ++ [(loc, b)]) []) sr 0) as [N B].
  { intros j n Hj. cbn [Nat.add]. rewrite <- keyOf_first.
    apply (proj1 (Forall_lookup _ _) HF j n Hj). }
  split; [exact N|].
  apply under_beyond. rewrite <- keyOf_boundary. eapply beyond_under. exact B.
Qed.

Lemma tidy_every_node : forall node, tidyNode node.
Proof.
  apply Node_nested_ind.
  - intros d depth cp r pathParts loc. cbn [collectNode].
    destruct (maxDepth cfg <? depth)%nat; (split; [constructor|intros k Hk; inversion Hk]).
  - intros e ch sr fc Hch Hsr Hfc depth cp r pathParts loc.
    rewrite collectNode_element.
    destruct (maxDepth cfg <? depth)%nat;
      [split; [constructor|intros k Hk; inversion Hk]|].
    set (key := keyOf cp loc).
    set (own := if isField e
                then [mkCaptured (cp, loc) (fieldInfoOf document r loc e pathParts)]
                else []).
    assert (Nown : NoDup (keysOf own)).
    { unfold own. destruct (isField e); repeat constructor. intros H. inversion H. }
    assert (Uown : forall k, k ∈ keysOf own -> k = key).
    { unfold own. intros k Hk. destruct (isField e); [|inversion Hk].
      apply list_elem_of_singleton in Hk. exact Hk. }
    assert (Hshadow := boundary_tidy ShadowB (crossing cfg ShadowB (Element e ch sr fc))
                         depth cp r pathParts loc).
    assert (Hframe := boundary_tidy FrameB (crossing cfg FrameB (Element e ch sr fc))
                        depth cp r pathParts loc).
    destruct Hshadow as [Ns Bs].
    { cbn [crossing]. destruct (includeShadowDom cfg); [exact Hsr|constructor]. }
    destruct Hframe as [Nf Bf].
    { cbn [crossing]. destruct (iframeTraversal cfg && String.eqb (tag e) "iframe");
        [|constructor].
      destruct fc; try constructor. exact Hfc. }
    destruct (concat_tidy
                (fun i c => collectNode cfg document c (S depth) cp r pathParts (loc ++ [i]))
                key ch 0) as [Nc Bc].
    { intros j n Hj. cbn [Nat.add]. unfold key. rewrite <- keyOf_child.
      apply (proj1 (Forall_lookup _ _) Hch j n Hj). }
    fold key in Bs, Bf.
    set (S1 := boundaryFields cfg document ShadowB _ depth cp r pathParts loc) in *.
    set (S2 := boundaryFields cfg document FrameB _ depth cp r pathParts loc) in *.
    set (S3 := concatMapi _ 0 ch) in *.
    (* frames and children *)
    assert (N23 : NoDup (keysOf (S2 ++ S3))).
    { eapply NoDup_beyond_app; [|exact Nf|exact Nc|exact Bf|exact Bc].
      intros a -> (j & _ & Heq). discriminate. }
    assert (B23 : beyond (fun a => a <> ShadowStep) key (S2 ++ S3)).
    { apply beyond_app.
      - eapply beyond_weaken; [|exact Bf]. intros a ->. discriminate.
      - eapply beyond_weaken; [|exact Bc]. intros a (j & _ & ->). discriminate. }
    assert (N123 : NoDup (keysOf (S1 ++ S2 ++ S3))).
    { eapply NoDup_beyond_app; [|exact Ns|exact N23|exact Bs|exact B23].
      intros a -> Hne. apply Hne. reflexivity. }
    assert (B123 : beyond (fun _ => True) key (S1 ++ S2 ++ S3)).
    { apply beyond_app.
      - eapply beyond_weaken; [|exact Bs]. auto.
      - eapply beyond_weaken; [|exact B23]. auto. }
    split.
    + rewrite keysOf_app. apply NoDup_app. split; [exact Nown|]. split; [|exact N123].
      intros k Hk Hk'. rewrite (Uown k Hk) in Hk'.
      destruct (B123 key Hk') as (a & _ & Hp). exact (step_not_prefix key a Hp).
    + intros k Hk. rewrite keysOf_app in Hk. apply elem_of_app in Hk.
      destruct Hk as [Hk|Hk].
      * rewrite (Uown k Hk). reflexivity.
      * exact (beyond_under _ _ _ B123 k Hk).
Qed.

End ScanOnceFacts.

(** X25. [scanDOM] returns no element twice. *)
Theorem scan_no_duplicates (document : Root) (options : ContentScript.ScanOptions) :
  NoDup (List.map ContentScript.elementRef (ContentScript.scanDOM document options)).
Proof.
  unfold ContentScript.scanDOM. rewrite scan_collects.
  destruct (concat_tidy
              (fun i c => collectNode (ContentScript.mergeOptions options) document c 1
                                      [] document [] [i])
              (ContentScript.keyOf [] []) document 0) as [N _].
  { intros j n Hj. cbn [Nat.add]. rewrite <- keyOf_first. apply tidy_every_node. }
  unfold keysOf in N.
  assert (Heq : List.map refKey
                  (concatMapi (fun i c => collectNode (ContentScript.mergeOptions options)
                                            document c 1 [] document [] [i]) 0 document)
                = List.map (fun x : Ref => ContentScript.keyOf (fst x) (snd x))
                    (List.map ContentScript.elementRef
                       (concatMapi (fun i c => collectNode (ContentScript.mergeOptions options)
                                                 document c 1 [] document [] [i]) 0 document)))
    by (rewrite map_map; reflexivity).
  rewrite Heq in N. exact (NoDup_fmap_1 _ _ N).
Qed.

(* ===================================================================== *)
(** ** formfiller.ts: what a scan writes, the resolver reads              *)
(* ===================================================================== *)

Section FormScanFacts.

Import FormFiller FormScan.

Variable document : Root.

(** The two constant selectors of [_walkContext] are read as modelled. *)
Lemma parse_fillable :
  parseSelector "input, select, textarea, [contenteditable]" = Some fillableSelector.
Proof. vm_compute. reflexivity. Qed.























(** *** The callback *)









(** *** Nothing is missed *)






End FormScanFacts.






(* ===================================================================== *)
(** ** The path written by [_getUniqueSelector]                           *)
(* ===================================================================== *)

Section FormSelectorPath.

Import FormScan.

Variable r : Root.
Hypothesis marked : wellMarked r.










End FormSelectorPath.

